(** * The synchronous producer of sarama (sync_producer.go)

    A shallow embedding of [syncProducer]: its constructors, the two
    dispatch operations [SendMessage] and [SendMessages], the two result
    routers [handleSuccesses] and [handleErrors], and [Close].

    The producer is a concurrent program.  Every goroutine is embedded as a
    small machine with one control point per statement that touches shared
    memory or a channel, and the program is the interleaving of these
    machines.  The asynchronous engine ([asyncProducer]) is an external
    collaborator: it is a nondeterministic environment that obeys the engine
    contract only. *)

From stdpp Require Import base numbers list strings option.

Set Default Proof Using "Type".

(** ** Data model *)

(** A [*ProducerMessage] is an index into the heap of messages and a
    [chan *ProducerError] is the identity of a channel. *)
Abbreviation ptr := nat (only parsing).
Abbreviation chan := nat (only parsing).

(** Go's [error] values.  [ConfigurationError] is sarama's string type of that
    name; [Cause] stands for every other error value. *)
Inductive error :=
| ConfigurationError (text : string)
| Cause (text : string).

(** The fields of [ProducerMessage] that the synchronous producer reads or
    writes.  [expectation] is [None] for the nil channel. *)
Record ProducerMessage := mkProducerMessage {
  Partition : Z;
  Offset : Z;
  expectation : option chan
}.

Record ProducerError := mkProducerError {
  Msg : ptr;
  Err : error
}.

#[global] Instance error_eq_dec : EqDecision error.
Proof. solve_decision. Defined.
#[global] Instance ProducerError_eq_dec : EqDecision ProducerError.
Proof. solve_decision. Defined.

(** [ProducerErrors], the aggregate error of a batch; a returned Go [error]
    that is nil is [None]. *)
Abbreviation ProducerErrors := (list ProducerError) (only parsing).

(** What the engine has reported about a message. *)
Inductive Report :=
| Succeeded (msg : ptr) (partition offset : Z)
| Failed (msg : ptr) (cause : error).

Definition report_msg (r : Report) : ptr :=
  match r with
  | Succeeded m _ _ => m
  | Failed m _ => m
  end.

(** Modelled from the spec: the asynchronous engine [asyncProducer], whose code
    is not part of the sources.  §6 of the specification gives its contract: an
    intake that accepts messages, a stream of successfully produced messages, a
    stream of (message, cause) pairs, and [asyncClose], which stops intake,
    flushes buffered work and eventually closes both streams.  [inflight] is
    the work accepted and not yet reported; [reports] is a history of the
    reports made, written by the engine and read by no code. *)
Record asyncProducer := mkAsyncProducer {
  inflight : list ptr;
  successes : list ptr;
  errors : list ProducerError;
  shutdown : bool;
  closed : bool;
  reports : list Report
}.

Definition fresh_engine : asyncProducer :=
  mkAsyncProducer [] [] [] false false [].

Definition with_inflight (l : list ptr) (p : asyncProducer) : asyncProducer :=
  mkAsyncProducer l (successes p) (errors p) (shutdown p) (closed p) (reports p).
Definition with_successes (l : list ptr) (p : asyncProducer) : asyncProducer :=
  mkAsyncProducer (inflight p) l (errors p) (shutdown p) (closed p) (reports p).
Definition with_errors (l : list ProducerError) (p : asyncProducer) : asyncProducer :=
  mkAsyncProducer (inflight p) (successes p) l (shutdown p) (closed p) (reports p).
Definition with_shutdown (b : bool) (p : asyncProducer) : asyncProducer :=
  mkAsyncProducer (inflight p) (successes p) (errors p) b (closed p) (reports p).
Definition with_closed (b : bool) (p : asyncProducer) : asyncProducer :=
  mkAsyncProducer (inflight p) (successes p) (errors p) (shutdown p) b (reports p).
Definition with_reports (l : list Report) (p : asyncProducer) : asyncProducer :=
  mkAsyncProducer (inflight p) (successes p) (errors p) (shutdown p) (closed p) l.

(** *** Control points *)

(** [SendMessage], lines 118-130. *)
Inductive SM_pc :=
| SM_Get                                              (* 119 *)
| SM_Attach (c : chan)                                (* 120 *)
| SM_Push (c : chan)                                  (* 121 *)
| SM_Wait (c : chan)                                  (* 122 *)
| SM_Detach (c : chan) (pErr : option ProducerError)  (* 123 *)
| SM_Put (c : chan) (pErr : option ProducerError)     (* 124 *)
| SM_Return (pErr : option ProducerError)             (* 125-129 *)
| SM_Done (partition offset : Z) (err : option error).

(** The goroutine of [SendMessages], lines 134-142. *)
Inductive Sub_pc :=
| Sub_Get (i : nat)                                   (* 136 *)
| Sub_Attach (i : nat) (c : chan)                     (* 137 *)
| Sub_Push (i : nat) (c : chan)                       (* 138 *)
| Sub_Index (i : nat)                                 (* 139 *)
| Sub_Close                                           (* 141 *)
| Sub_Exit.

(** The calling goroutine of [SendMessages], lines 144-158. *)
Inductive Con_pc :=
| Con_Range (errs : ProducerErrors)                   (* 145 *)
| Con_Read (i : nat) (errs : ProducerErrors)          (* 146 *)
| Con_Wait (i : nat) (exp : option chan) (errs : ProducerErrors)   (* 147 *)
| Con_Detach (i : nat) (c : chan) (pErr : option ProducerError)
    (errs : ProducerErrors)                           (* 148 *)
| Con_Put (i : nat) (c : chan) (pErr : option ProducerError)
    (errs : ProducerErrors)                           (* 149-152 *)
| Con_Done (ret : option ProducerErrors).

(** [Close], lines 177-181. *)
Inductive CL_pc :=
| CL_AsyncClose                                       (* 178 *)
| CL_Wait                                             (* 179 *)
| CL_Done (err : option error).

(** [handleSuccesses], lines 161-167. *)
Inductive HS_pc :=
| HS_NotStarted
| HS_Range                                            (* 163 *)
| HS_Read (msg : ptr)                                 (* 164 *)
| HS_Send (exp : option chan)                         (* 165 *)
| HS_Exit                                             (* 162, deferred *)
| HS_Done.

(** [handleErrors], lines 169-175. *)
Inductive HE_pc :=
| HE_NotStarted
| HE_Range                                            (* 171 *)
| HE_Read (err : ProducerError)                       (* 172 *)
| HE_Send (exp : option chan) (err : ProducerError)   (* 173 *)
| HE_Exit                                             (* 170, deferred *)
| HE_Done.

(** A call in progress.  A [SendMessages] call owns its [indices] channel
    (buffer and closed flag, capacity [len(msgs)]) and runs two goroutines. *)
Inductive Thread :=
| T_SendMessage (msg : ptr) (pc : SM_pc)
| T_SendMessages (msgs : list ptr) (indices : list nat)
    (indices_closed : bool) (sub : Sub_pc) (con : Con_pc)
| T_Close (pc : CL_pc).

(** The whole program state.  [slots] holds the buffer of every expectation
    channel made so far, by identity; [collected] remembers the channels that
    the pool dropped (sync.Pool may free pooled items at any time) and is read
    by no code. *)
Record State := mkState {
  heap : list ProducerMessage;
  slots : list (list (option ProducerError));
  expectationsPool : list chan;
  collected : list chan;
  producer : asyncProducer;
  wg : nat;
  handleSuccesses : HS_pc;
  handleErrors : HE_pc;
  callers : list Thread
}.

Definition set_heap (h : list ProducerMessage) (s : State) : State :=
  mkState h (slots s) (expectationsPool s) (collected s) (producer s) (wg s)
    (handleSuccesses s) (handleErrors s) (callers s).
Definition set_slots (sl : list (list (option ProducerError))) (s : State) : State :=
  mkState (heap s) sl (expectationsPool s) (collected s) (producer s) (wg s)
    (handleSuccesses s) (handleErrors s) (callers s).
Definition set_pool (p : list chan) (s : State) : State :=
  mkState (heap s) (slots s) p (collected s) (producer s) (wg s)
    (handleSuccesses s) (handleErrors s) (callers s).
Definition set_collected (g : list chan) (s : State) : State :=
  mkState (heap s) (slots s) (expectationsPool s) g (producer s) (wg s)
    (handleSuccesses s) (handleErrors s) (callers s).
Definition set_producer (p : asyncProducer) (s : State) : State :=
  mkState (heap s) (slots s) (expectationsPool s) (collected s) p (wg s)
    (handleSuccesses s) (handleErrors s) (callers s).
Definition set_wg (n : nat) (s : State) : State :=
  mkState (heap s) (slots s) (expectationsPool s) (collected s) (producer s) n
    (handleSuccesses s) (handleErrors s) (callers s).
Definition set_hs (pc : HS_pc) (s : State) : State :=
  mkState (heap s) (slots s) (expectationsPool s) (collected s) (producer s)
    (wg s) pc (handleErrors s) (callers s).
Definition set_he (pc : HE_pc) (s : State) : State :=
  mkState (heap s) (slots s) (expectationsPool s) (collected s) (producer s)
    (wg s) (handleSuccesses s) pc (callers s).
Definition set_callers (cs : list Thread) (s : State) : State :=
  mkState (heap s) (slots s) (expectationsPool s) (collected s) (producer s)
    (wg s) (handleSuccesses s) (handleErrors s) cs.

(** ** Channels *)

(** A send on a buffered channel of capacity [cap] blocks ([None]) while the
    buffer is full; a receive blocks while it is empty. *)
Definition chan_send {A} (cap : nat) (v : A) (buf : list A) : option (list A) :=
  if decide (length buf < cap) then Some (buf ++ [v]) else None.

Definition chan_recv {A} (buf : list A) : option (A * list A) :=
  match buf with
  | v :: rest => Some (v, rest)
  | [] => None
  end.

(** [make(chan *ProducerError, 1)], line 7. *)
Definition slot_capacity : nat := 1.

Definition slot_send (c : chan) (v : option ProducerError) (s : State) : option State :=
  buf ← slots s !! c;
  buf' ← chan_send slot_capacity v buf;
  Some (set_slots (<[c := buf']> (slots s)) s).

Definition slot_recv (c : chan) (s : State) : option (option ProducerError * State) :=
  buf ← slots s !! c;
  '(v, rest) ← chan_recv buf;
  Some (v, set_slots (<[c := rest]> (slots s)) s).

(** ** The slot pool, lines 5-9 *)

(** [expectationsPool.Get()]: an arbitrary pooled channel ([pick = Some k]
    takes the [k]-th), or a channel made by [New]. *)
Definition Get (pick : option nat) (s : State) : option (chan * State) :=
  match pick with
  | Some k =>
      c ← expectationsPool s !! k;
      Some (c, set_pool (delete k (expectationsPool s)) s)
  | None => Some (length (slots s), set_slots (slots s ++ [[]]) s)
  end.

(** [expectationsPool.Put(c)]. *)
Definition Put (c : chan) (s : State) : State :=
  set_pool (expectationsPool s ++ [c]) s.

(** ** Messages *)

(** [msg.expectation = e]; undefined when [msg] points to no message (Go
    panics on the nil dereference). *)
Definition with_expectation (e : option chan) (pm : ProducerMessage) : ProducerMessage :=
  mkProducerMessage (Partition pm) (Offset pm) e.

Definition set_expectation (msg : ptr) (e : option chan) (s : State) : option State :=
  pm ← heap s !! msg;
  Some (set_heap (<[msg := with_expectation e pm]> (heap s)) s).

(** [sp.producer.Input() <- msg]: the engine takes the message unless it has
    stopped intake. *)
Definition Input_send (msg : ptr) (s : State) : option State :=
  let p := producer s in
  if shutdown p then None
  else Some (set_producer (with_inflight (inflight p ++ [msg]) p) s).

(** ** The dispatch path *)

(** One statement of [SendMessage(msg)]. *)
Definition SendMessage_step (pick : option nat) (msg : ptr) (pc : SM_pc) (s : State)
  : option (SM_pc * State) :=
  match pc with
  | SM_Get =>
      '(c, s') ← Get pick s; Some (SM_Attach c, s')
  | SM_Attach c =>
      s' ← set_expectation msg (Some c) s; Some (SM_Push c, s')
  | SM_Push c =>
      s' ← Input_send msg s; Some (SM_Wait c, s')
  | SM_Wait c =>
      '(pErr, s') ← slot_recv c s; Some (SM_Detach c pErr, s')
  | SM_Detach c pErr =>
      s' ← set_expectation msg None s; Some (SM_Put c pErr, s')
  | SM_Put c pErr =>
      Some (SM_Return pErr, Put c s)
  | SM_Return pErr =>
      match pErr with
      | Some e => Some (SM_Done (-1) (-1) (Some (Err e)), s)
      | None =>
          pm ← heap s !! msg;
          Some (SM_Done (Partition pm) (Offset pm) None, s)
      end
  | SM_Done _ _ _ => None
  end.

(** The head of [for i, msg := range msgs]. *)
Definition sub_range (msgs : list ptr) (i : nat) : Sub_pc :=
  if decide (i < length msgs) then Sub_Get i else Sub_Close.

(** One statement of the goroutine started by [SendMessages(msgs)]; it owns
    the sending side of [indices]. *)
Definition submit_step (pick : option nat) (msgs : list ptr)
    (indices : list nat) (indices_closed : bool) (pc : Sub_pc) (s : State)
  : option (list nat * bool * Sub_pc * State) :=
  match pc with
  | Sub_Get i =>
      '(c, s') ← Get pick s;
      Some (indices, indices_closed, Sub_Attach i c, s')
  | Sub_Attach i c =>
      msg ← msgs !! i;
      s' ← set_expectation msg (Some c) s;
      Some (indices, indices_closed, Sub_Push i c, s')
  | Sub_Push i c =>
      msg ← msgs !! i;
      s' ← Input_send msg s;
      Some (indices, indices_closed, Sub_Index i, s')
  | Sub_Index i =>
      indices' ← chan_send (length msgs) i indices;
      Some (indices', indices_closed, sub_range msgs (S i), s)
  | Sub_Close =>
      Some (indices, true, Sub_Exit, s)
  | Sub_Exit => None
  end.

(** [if pErr != nil { errors = append(errors, pErr) }], lines 150-152. *)
Definition collect (errs : ProducerErrors) (pErr : option ProducerError) : ProducerErrors :=
  match pErr with
  | Some e => errs ++ [e]
  | None => errs
  end.

(** Lines 155-158. *)
Definition aggregate (errs : ProducerErrors) : option ProducerErrors :=
  if decide (0 < length errs) then Some errs else None.

(** One statement of the calling goroutine of [SendMessages(msgs)]. *)
Definition SendMessages_step (msgs : list ptr)
    (indices : list nat) (indices_closed : bool) (pc : Con_pc) (s : State)
  : option (list nat * Con_pc * State) :=
  match pc with
  | Con_Range errs =>
      match indices with
      | i :: rest => Some (rest, Con_Read i errs, s)
      | [] =>
          if indices_closed then Some (indices, Con_Done (aggregate errs), s)
          else None
      end
  | Con_Read i errs =>
      msg ← msgs !! i;
      pm ← heap s !! msg;
      Some (indices, Con_Wait i (expectation pm) errs, s)
  | Con_Wait i exp errs =>
      c ← exp;
      '(pErr, s') ← slot_recv c s;
      Some (indices, Con_Detach i c pErr errs, s')
  | Con_Detach i c pErr errs =>
      msg ← msgs !! i;
      s' ← set_expectation msg None s;
      Some (indices, Con_Put i c pErr errs, s')
  | Con_Put i c pErr errs =>
      Some (indices, Con_Range (collect errs pErr), Put c s)
  | Con_Done _ => None
  end.

(** ** Lifecycle *)

(** One statement of [Close()]. *)
Definition Close_step (pc : CL_pc) (s : State) : option (CL_pc * State) :=
  match pc with
  | CL_AsyncClose =>
      let p := producer s in
      Some (CL_Wait, set_producer (with_shutdown true p) s)
  | CL_Wait =>
      if decide (wg s = 0) then Some (CL_Done None, s) else None
  | CL_Done _ => None
  end.

(** One statement of a caller. *)
Definition call_step (pick : option nat) (th : Thread) (s : State)
  : option (Thread * State) :=
  match th with
  | T_SendMessage msg pc =>
      '(pc', s') ← SendMessage_step pick msg pc s;
      Some (T_SendMessage msg pc', s')
  | T_SendMessages msgs indices cl sub con =>
      '(indices', con', s') ← SendMessages_step msgs indices cl con s;
      Some (T_SendMessages msgs indices' cl sub con', s')
  | T_Close pc =>
      '(pc', s') ← Close_step pc s;
      Some (T_Close pc', s')
  end.

Definition go_step (pick : option nat) (th : Thread) (s : State)
  : option (Thread * State) :=
  match th with
  | T_SendMessages msgs indices cl sub con =>
      '(indices', cl', sub', s') ← submit_step pick msgs indices cl sub s;
      Some (T_SendMessages msgs indices' cl' sub' con, s')
  | _ => None
  end.

(** ** The result routers *)

(** [sp.wg.Done()]; a negative counter panics. *)
Definition wg_Done (s : State) : option State :=
  match wg s with
  | S n => Some (set_wg n s)
  | O => None
  end.

(** One statement of [handleSuccesses]. *)
Definition handleSuccesses_step (s : State) : option State :=
  let p := producer s in
  match handleSuccesses s with
  | HS_Range =>
      match successes p with
      | msg :: rest =>
          Some (set_hs (HS_Read msg) (set_producer (with_successes rest p) s))
      | [] => if closed p then Some (set_hs HS_Exit s) else None
      end
  | HS_Read msg =>
      pm ← heap s !! msg;
      Some (set_hs (HS_Send (expectation pm)) s)
  | HS_Send exp =>
      c ← exp;
      s' ← slot_send c None s;
      Some (set_hs HS_Range s')
  | HS_Exit =>
      s' ← wg_Done s; Some (set_hs HS_Done s')
  | HS_NotStarted | HS_Done => None
  end.

(** One statement of [handleErrors]. *)
Definition handleErrors_step (s : State) : option State :=
  let p := producer s in
  match handleErrors s with
  | HE_Range =>
      match errors p with
      | err :: rest =>
          Some (set_he (HE_Read err) (set_producer (with_errors rest p) s))
      | [] => if closed p then Some (set_he HE_Exit s) else None
      end
  | HE_Read err =>
      pm ← heap s !! Msg err;
      Some (set_he (HE_Send (expectation pm) err) s)
  | HE_Send exp err =>
      c ← exp;
      s' ← slot_send c (Some err) s;
      Some (set_he HE_Range s')
  | HE_Exit =>
      s' ← wg_Done s; Some (set_he HE_Done s')
  | HE_NotStarted | HE_Done => None
  end.

(** ** The engine *)

(** Modelled from the spec: the moves of the engine (§3, §6).  It may write the
    partition and offset of a message it holds, up to acknowledgment; it
    reports a message it holds exactly once, on the success stream or, paired
    with a cause, on the error stream; after [asyncClose] and once its work is
    flushed it closes both streams. *)
Definition engine_assign (k : nat) (p o : Z) (s : State) : option State :=
  msg ← inflight (producer s) !! k;
  pm ← heap s !! msg;
  Some (set_heap (<[msg := mkProducerMessage p o (expectation pm)]> (heap s)) s).

Definition engine_succeed (k : nat) (s : State) : option State :=
  let p := producer s in
  if closed p then None
  else
    msg ← inflight p !! k;
    pm ← heap s !! msg;
    Some (set_producer
            (with_reports (reports p ++ [Succeeded msg (Partition pm) (Offset pm)])
               (with_successes (successes p ++ [msg])
                  (with_inflight (delete k (inflight p)) p))) s).

Definition engine_fail (k : nat) (cause : error) (s : State) : option State :=
  let p := producer s in
  if closed p then None
  else
    msg ← inflight p !! k;
    Some (set_producer
            (with_reports (reports p ++ [Failed msg cause])
               (with_errors (errors p ++ [mkProducerError msg cause])
                  (with_inflight (delete k (inflight p)) p))) s).

Definition engine_close (s : State) : option State :=
  let p := producer s in
  if shutdown p && negb (closed p) && bool_decide (inflight p = []) then
    Some (set_producer (with_closed true p) s)
  else None.

(** sync.Pool frees a pooled item. *)
Definition pool_drop (k : nat) (s : State) : option State :=
  c ← expectationsPool s !! k;
  Some (set_collected (collected s ++ [c])
          (set_pool (delete k (expectationsPool s)) s)).

(** ** Interleaving *)

Inductive Label :=
| L_call (t : nat) (pick : option nat)
| L_go (t : nat) (pick : option nat)
| L_handleSuccesses
| L_handleErrors
| L_assign (k : nat) (p o : Z)
| L_succeed (k : nat)
| L_fail (k : nat) (cause : error)
| L_close
| L_pool_drop (k : nat).

(** Caller [t] moves to [th]. *)
Definition upd (t : nat) (th : Thread) (s : State) : State :=
  set_callers (<[t := th]> (callers s)) s.

Definition step (l : Label) (s : State) : option State :=
  match l with
  | L_call t pick =>
      th ← callers s !! t;
      '(th', s') ← call_step pick th s;
      Some (upd t th' s')
  | L_go t pick =>
      th ← callers s !! t;
      '(th', s') ← go_step pick th s;
      Some (upd t th' s')
  | L_handleSuccesses => handleSuccesses_step s
  | L_handleErrors => handleErrors_step s
  | L_assign k p o => engine_assign k p o s
  | L_succeed k => engine_succeed k s
  | L_fail k cause => engine_fail k cause s
  | L_close => engine_close s
  | L_pool_drop k => pool_drop k s
  end.

Fixpoint run (ls : list Label) (s : State) : option State :=
  match ls with
  | [] => Some s
  | l :: ls' => s' ← step l s; run ls' s'
  end.

(** ** Construction *)

(** [Config], reduced to the two fields read here:
    [Producer.Return.Successes] and [Producer.Return.Errors]. *)
Record Config := mkConfig {
  Producer_Return_Successes : bool;
  Producer_Return_Errors : bool
}.

(** Lines 108-116. *)
Definition verifyProducerConfig (config : Config) : option error :=
  if negb (Producer_Return_Errors config) then
    Some (ConfigurationError "Producer.Return.Errors must be true to be used in a SyncProducer")
  else if negb (Producer_Return_Successes config) then
    Some (ConfigurationError "Producer.Return.Successes must be true to be used in a SyncProducer")
  else None.

(** Lines 98-106: [sp.wg.Add(2)] and the two [go] statements. *)
Definition newSyncProducerFromAsyncProducer (p : asyncProducer) (s : State) : State :=
  let s := set_producer p s in
  let s := set_wg (wg s + 2) s in
  let s := set_hs HS_Range s in
  let s := set_he HE_Range s in
  s.

(** A [Client], reduced to what [client.Config()] returns. *)
Record Client := mkClient { Client_Config : Config }.

Section Constructors.
(** [NewConfig], [NewAsyncProducer] and [NewAsyncProducerFromClient] belong to
    other files of the package. *)
Variable NewConfig : Config.
Variable NewAsyncProducer : list string → Config → error + asyncProducer.
Variable NewAsyncProducerFromClient : Client → error + asyncProducer.

(** Lines 67-82.  The result is the returned error (the returned producer is
    the state itself). *)
Definition NewSyncProducer (addrs : list string) (config : option Config) (s : State)
  : option error * State :=
  let config :=
    match config with
    | None => mkConfig true (Producer_Return_Errors NewConfig)
    | Some c => c
    end in
  match verifyProducerConfig config with
  | Some err => (Some err, s)
  | None =>
      match NewAsyncProducer addrs config with
      | inl err => (Some err, s)
      | inr p => (None, newSyncProducerFromAsyncProducer p s)
      end
  end.

(** Lines 86-96. *)
Definition NewSyncProducerFromClient (client : Client) (s : State)
  : option error * State :=
  match verifyProducerConfig (Client_Config client) with
  | Some err => (Some err, s)
  | None =>
      match NewAsyncProducerFromClient client with
      | inl err => (Some err, s)
      | inr p => (None, newSyncProducerFromAsyncProducer p s)
      end
  end.
End Constructors.

(** ** Programs *)

Inductive Call :=
| CallSendMessage (msg : ptr)
| CallSendMessages (msgs : list ptr)
| CallClose.

(** The first control point of a call; [SendMessages] makes [indices] and
    starts its goroutine (lines 133-134). *)
Definition start (c : Call) : Thread :=
  match c with
  | CallSendMessage msg => T_SendMessage msg SM_Get
  | CallSendMessages msgs => T_SendMessages msgs [] false (sub_range msgs 0) (Con_Range [])
  | CallClose => T_Close CL_AsyncClose
  end.

(** Before construction: no channel exists, no router runs. *)
Definition blank (h : list ProducerMessage) (calls : list Call) : State :=
  mkState h [] [] [] fresh_engine 0 HS_NotStarted HE_NotStarted (start <$> calls).

(** A producer constructed over a fresh engine, and the calls made on it. *)
Definition init (h : list ProducerMessage) (calls : list Call) : State :=
  newSyncProducerFromAsyncProducer fresh_engine (blank h calls).

(** * Counting *)

(** The invariants of the producer are stated by counting: how many parties
    hold a channel, how many results are on their way to a message. *)

Definition ind (P : Prop) `{Decision P} : nat := if decide P then 1 else 0.

Definition sum_over {A} (f : A → nat) (l : list A) : nat :=
  foldr (λ x acc, f x + acc) 0 l.

Definition occ (x : nat) (l : list nat) : nat := sum_over (λ y, ind (y = x)) l.

Section counting.
Context {A : Type} (f : A → nat).

Lemma sum_over_nil : sum_over f [] = 0.
Proof. done. Qed.

Lemma sum_over_cons x l : sum_over f (x :: l) = f x + sum_over f l.
Proof. done. Qed.

Lemma sum_over_app l1 l2 : sum_over f (l1 ++ l2) = sum_over f l1 + sum_over f l2.
Proof. induction l1 as [|x l1 IH]; simpl; [done|]. rewrite IH. lia. Qed.

Lemma sum_over_snoc l x : sum_over f (l ++ [x]) = sum_over f l + f x.
Proof. rewrite sum_over_app, sum_over_cons, sum_over_nil. lia. Qed.

Lemma sum_over_split l i y :
  l !! i = Some y →
  sum_over f l = sum_over f (take i l) + f y + sum_over f (drop (S i) l).
Proof.
  intros Hi. rewrite <- (take_drop_middle l i y Hi) at 1.
  rewrite sum_over_app, sum_over_cons. lia.
Qed.

Lemma sum_over_insert l i x y :
  l !! i = Some y →
  sum_over f (<[i:=x]> l) + f y = sum_over f l + f x.
Proof.
  intros Hi. rewrite (sum_over_split l i y Hi).
  rewrite insert_take_drop by (by eapply lookup_lt_Some).
  rewrite sum_over_app, sum_over_cons. lia.
Qed.

Lemma sum_over_delete l i y :
  l !! i = Some y →
  sum_over f (delete i l) + f y = sum_over f l.
Proof.
  intros Hi. rewrite (sum_over_split l i y Hi), delete_take_drop.
  rewrite sum_over_app. lia.
Qed.

Lemma sum_over_pos l : 0 < sum_over f l → ∃ i y, l !! i = Some y ∧ 0 < f y.
Proof.
  induction l as [|x l IH]; rewrite ?sum_over_nil, ?sum_over_cons; [lia|].
  intros H. destruct (decide (0 < f x)).
  - by exists 0, x.
  - destruct IH as (i & y & ? & ?); [lia|]. by exists (S i), y.
Qed.

Lemma sum_over_lookup_le l i y : l !! i = Some y → f y ≤ sum_over f l.
Proof. intros Hi. rewrite (sum_over_split l i y Hi). lia. Qed.

Lemma sum_over_zero l : (∀ x, x ∈ l → f x = 0) → sum_over f l = 0.
Proof.
  induction l as [|x l IH]; [done|]. intros H. rewrite sum_over_cons.
  rewrite (H x) by left. rewrite IH; [done|]. intros y Hy. apply H. by right.
Qed.
End counting.

Lemma sum_over_ext {A} (f g : A → nat) l :
  (∀ x, x ∈ l → f x = g x) → sum_over f l = sum_over g l.
Proof.
  induction l as [|x l IH]; [done|]. intros H. rewrite !sum_over_cons.
  rewrite (H x) by left. rewrite IH; [done|]. intros y Hy. apply H. by right.
Qed.

Lemma sum_over_le {A} (f g : A → nat) l :
  (∀ x, x ∈ l → f x ≤ g x) → sum_over f l ≤ sum_over g l.
Proof.
  induction l as [|x l IH]; [done|]. intros H. rewrite !sum_over_cons.
  assert (f x ≤ g x) by (apply H; left).
  assert (sum_over f l ≤ sum_over g l) by (apply IH; intros y Hy; apply H; by right).
  lia.
Qed.

Lemma occ_nil x : occ x [] = 0.
Proof. done. Qed.

Lemma occ_cons x y l : occ x (y :: l) = ind (y = x) + occ x l.
Proof. done. Qed.

Lemma occ_app x l1 l2 : occ x (l1 ++ l2) = occ x l1 + occ x l2.
Proof. apply sum_over_app. Qed.

Lemma occ_snoc x l y : occ x (l ++ [y]) = occ x l + ind (y = x).
Proof. apply (sum_over_snoc (λ y, ind (y = x))). Qed.

Lemma occ_delete x l k y : l !! k = Some y → occ x (delete k l) + ind (y = x) = occ x l.
Proof. intros H. by apply (sum_over_delete (λ y, ind (y = x)) l k y). Qed.

Lemma occ_zero x l : occ x l = 0 ↔ x ∉ l.
Proof.
  induction l as [|y l IH]; [rewrite occ_nil; split; [intros _; apply not_elem_of_nil | done]|].
  rewrite occ_cons, not_elem_of_cons. unfold ind. case_decide; subst.
  - split; [lia|]. by intros [? _].
  - rewrite <- IH. split; [intros; split; [done|lia] | intros [_ ?]; lia].
Qed.

Lemma occ_pos x l : 0 < occ x l ↔ x ∈ l.
Proof.
  destruct (decide (x ∈ l)) as [H|H]; split; try done.
  - intros _. destruct (decide (occ x l = 0)) as [E|E]; [|lia].
    by apply occ_zero in E.
  - apply occ_zero in H. lia.
Qed.

Lemma occ_NoDup l : NoDup l ↔ ∀ x, occ x l ≤ 1.
Proof.
  induction l as [|y l IH].
  - split; [intros _ x; rewrite occ_nil; lia | constructor].
  - split.
    + intros HN x. inversion HN as [|? ? Hy H]; subst.
      rewrite occ_cons. unfold ind. case_decide; subst.
      * apply occ_zero in Hy. lia.
      * by apply IH.
    + intros H. constructor.
      * apply occ_zero. specialize (H y). rewrite occ_cons in H.
        unfold ind in H. case_decide; [lia|done].
      * apply IH. intros x. specialize (H x). rewrite occ_cons in H. lia.
Qed.

Lemma occ_flat_map {A} (g : A → list nat) x l :
  occ x (flat_map g l) = sum_over (λ a, occ x (g a)) l.
Proof.
  induction l as [|a l IH]; [done|].
  change (flat_map g (a :: l)) with (g a ++ flat_map g l).
  rewrite occ_app, sum_over_cons, IH. done.
Qed.

Lemma occ_take_le x n l : occ x (take n l) ≤ occ x l.
Proof.
  rewrite <- (take_drop n l) at 2. rewrite occ_app. lia.
Qed.

Lemma occ_drop_le x n l : occ x (drop n l) ≤ occ x l.
Proof.
  rewrite <- (take_drop n l) at 2. rewrite occ_app. lia.
Qed.

Lemma occ_take_S x n l y :
  l !! n = Some y → occ x (take (S n) l) = occ x (take n l) + ind (y = x).
Proof. intros H. erewrite take_S_r by done. apply occ_snoc. Qed.

Definition seg {A} (a b : nat) (l : list A) : list A := take (b - a) (drop a l).

Definition exp_of (h : list ProducerMessage) (m : ptr) : option chan :=
  h !! m ≫= expectation.

Definition fields_of (h : list ProducerMessage) (m : ptr) : option (Z * Z) :=
  (λ pm, (Partition pm, Offset pm)) <$> h !! m.

Lemma seg_empty {A} a b (l : list A) : b ≤ a → seg a b l = [].
Proof. intros H. unfold seg. by replace (b - a) with 0 by lia. Qed.

Lemma occ_seg_le x a b l : occ x (seg a b l) ≤ occ x l.
Proof.
  unfold seg. etrans; [apply occ_take_le|apply occ_drop_le].
Qed.

Lemma occ_seg_snoc x a b l y :
  l !! b = Some y → a ≤ b →
  occ x (seg a (S b) l) = occ x (seg a b l) + ind (y = x).
Proof.
  intros Hb Hab. unfold seg. replace (S b - a) with (S (b - a)) by lia.
  apply occ_take_S. rewrite lookup_drop. by replace (a + (b - a)) with b by lia.
Qed.

Lemma occ_seg_cons x a b l y :
  l !! a = Some y → a < b →
  occ x (seg a b l) = ind (y = x) + occ x (seg (S a) b l).
Proof.
  intros Ha Hab. unfold seg. replace (b - a) with (S (b - S a)) by lia.
  rewrite (drop_S l y a Ha). by rewrite firstn_cons, occ_cons.
Qed.

Lemma occ_seg_0 x b l : occ x (seg 0 b l) = occ x (take b l).
Proof. unfold seg. by rewrite drop_0, Nat.sub_0_r. Qed.

(** * Invariants *)

(** ** Who holds a channel *)

(** A channel out of the pool and not attached to a message is held by the
    caller that acquired it. *)
Definition sm_holds (c : chan) (pc : SM_pc) : nat :=
  match pc with
  | SM_Attach c' | SM_Put c' _ => ind (c' = c)
  | _ => 0
  end.

Definition sub_holds (c : chan) (pc : Sub_pc) : nat :=
  match pc with
  | Sub_Attach _ c' => ind (c' = c)
  | _ => 0
  end.

Definition con_holds (c : chan) (pc : Con_pc) : nat :=
  match pc with
  | Con_Put _ c' _ _ => ind (c' = c)
  | _ => 0
  end.

Definition holds (c : chan) (th : Thread) : nat :=
  match th with
  | T_SendMessage _ pc => sm_holds c pc
  | T_SendMessages _ _ _ sub con => sub_holds c sub + con_holds c con
  | T_Close _ => 0
  end.

Definition att (c : chan) (pm : ProducerMessage) : nat :=
  ind (expectation pm = Some c).

(** Every channel made is in exactly one place: pooled, dropped by the pool,
    held by a caller, or attached to a message. *)
Definition own_inv (s : State) : Prop :=
  ∀ c, occ c (expectationsPool s) + occ c (collected s)
       + sum_over (holds c) (callers s) + sum_over (att c) (heap s)
       = ind (c < length (slots s)).

(** ** How far a batch has come *)

Definition sub_attached (n : nat) (pc : Sub_pc) : nat :=
  match pc with
  | Sub_Get i | Sub_Attach i _ => i
  | Sub_Push i _ | Sub_Index i => S i
  | Sub_Close | Sub_Exit => n
  end.

Definition sub_pushed (n : nat) (pc : Sub_pc) : nat :=
  match pc with
  | Sub_Get i | Sub_Attach i _ | Sub_Push i _ => i
  | Sub_Index i => S i
  | Sub_Close | Sub_Exit => n
  end.

Definition sub_sent (n : nat) (pc : Sub_pc) : nat :=
  match pc with
  | Sub_Get i | Sub_Attach i _ | Sub_Push i _ | Sub_Index i => i
  | Sub_Close | Sub_Exit => n
  end.

(** [k0] is the number of indices taken when the caller is at the head of
    its loop. *)
Definition con_taken (k0 n : nat) (pc : Con_pc) : nat :=
  match pc with
  | Con_Range _ => k0
  | Con_Read i _ | Con_Wait i _ _ | Con_Detach i _ _ _ | Con_Put i _ _ _ => S i
  | Con_Done _ => n
  end.

Definition con_received (k0 n : nat) (pc : Con_pc) : nat :=
  match pc with
  | Con_Range _ => k0
  | Con_Read i _ | Con_Wait i _ _ => i
  | Con_Detach i _ _ _ | Con_Put i _ _ _ => S i
  | Con_Done _ => n
  end.

Definition con_detached (k0 n : nat) (pc : Con_pc) : nat :=
  match pc with
  | Con_Range _ => k0
  | Con_Read i _ | Con_Wait i _ _ | Con_Detach i _ _ _ => i
  | Con_Put i _ _ _ => S i
  | Con_Done _ => n
  end.

Definition con_collected (k0 n : nat) (pc : Con_pc) : nat :=
  match pc with
  | Con_Range _ => k0
  | Con_Read i _ | Con_Wait i _ _ | Con_Detach i _ _ _ | Con_Put i _ _ _ => i
  | Con_Done _ => n
  end.

Definition taken0 (msgs : list ptr) (indices : list nat) (sub : Sub_pc) : nat :=
  sub_sent (length msgs) sub - length indices.

Definition sub_in_range (n : nat) (pc : Sub_pc) : Prop :=
  match pc with
  | Sub_Get i | Sub_Attach i _ | Sub_Push i _ | Sub_Index i => i < n
  | Sub_Close | Sub_Exit => True
  end.

(** The [indices] channel of a batch holds the indices sent and not yet
    taken, in order; it is closed when the goroutine has finished. *)
Definition thread_ok (th : Thread) : Prop :=
  match th with
  | T_SendMessages msgs indices cl sub con =>
      let n := length msgs in
      let k := con_taken (taken0 msgs indices sub) n con in
      sub_in_range n sub
      ∧ length indices ≤ sub_sent n sub
      ∧ k ≤ sub_sent n sub
      ∧ indices = seq k (sub_sent n sub - k)
      ∧ (cl = true ↔ sub = Sub_Exit)
      ∧ (match con with Con_Done _ => sub = Sub_Exit | _ => True end)
  | _ => True
  end.

(** The messages of a batch that carry a channel are those attached by the
    goroutine and not yet detached by the caller. *)
Definition range_ok (h : list ProducerMessage) (msgs : list ptr) (lo hi : nat) : Prop :=
  ∀ j m, msgs !! j = Some m →
    if decide (lo ≤ j < hi) then is_Some (exp_of h m) else exp_of h m = None.

(** Which messages of a call carry a channel. *)
Definition att_ok (h : list ProducerMessage) (th : Thread) : Prop :=
  match th with
  | T_SendMessage m pc =>
      exp_of h m =
        match pc with
        | SM_Push c | SM_Wait c | SM_Detach c _ => Some c
        | _ => None
        end
  | T_SendMessages msgs indices cl sub con =>
      let n := length msgs in
      let lo := con_detached (taken0 msgs indices sub) n con in
      let hi := sub_attached n sub in
      range_ok h msgs lo hi
      ∧ match sub with
        | Sub_Push i c => ∃ m, msgs !! i = Some m ∧ exp_of h m = Some c
        | _ => True
        end
      ∧ match con with
        | Con_Wait i x _ => ∃ m c, msgs !! i = Some m ∧ x = Some c ∧ exp_of h m = Some c
        | Con_Detach i c _ _ => ∃ m, msgs !! i = Some m ∧ exp_of h m = Some c
        | _ => True
        end
  | T_Close _ => True
  end.

Definition thread_msgs (th : Thread) : list ptr :=
  match th with
  | T_SendMessage m _ => [m]
  | T_SendMessages msgs _ _ _ _ => msgs
  | T_Close _ => []
  end.

Definition all_msgs (cs : list Thread) : list ptr := flat_map thread_msgs cs.

(** ** Where the result of a message is *)

Definition awaits (m : ptr) (th : Thread) : nat :=
  match th with
  | T_SendMessage m' (SM_Wait _) => ind (m' = m)
  | T_SendMessage _ _ => 0
  | T_SendMessages msgs indices cl sub con =>
      let n := length msgs in
      occ m (seg (con_received (taken0 msgs indices sub) n con) (sub_pushed n sub) msgs)
  | T_Close _ => 0
  end.

Definition pushedc (m : ptr) (th : Thread) : nat :=
  match th with
  | T_SendMessage m' (SM_Wait _ | SM_Detach _ _ | SM_Put _ _ | SM_Return _ | SM_Done _ _ _) =>
      ind (m' = m)
  | T_SendMessage _ _ => 0
  | T_SendMessages msgs indices cl sub con =>
      occ m (take (sub_pushed (length msgs) sub) msgs)
  | T_Close _ => 0
  end.

Definition hs_holds (m : ptr) (pc : HS_pc) : nat :=
  match pc with HS_Read m' => ind (m' = m) | _ => 0 end.

Definition he_holds (m : ptr) (pc : HE_pc) : nat :=
  match pc with HE_Read e => ind (Msg e = m) | _ => 0 end.

Definition hs_to (c : chan) (pc : HS_pc) : nat :=
  match pc with HS_Send (Some c') => ind (c' = c) | _ => 0 end.

Definition he_to (c : chan) (pc : HE_pc) : nat :=
  match pc with HE_Send (Some c') _ => ind (c' = c) | _ => 0 end.

Definition buffer (s : State) (c : chan) : list (option ProducerError) :=
  default [] (slots s !! c).

(** Deliveries to a channel: a router about to send into it, or a value
    buffered in it. *)
Definition deliveries (s : State) (c : chan) : nat :=
  hs_to c (handleSuccesses s) + he_to c (handleErrors s) + length (buffer s c).

Definition deliveries_msg (s : State) (m : ptr) : nat :=
  match exp_of (heap s) m with
  | Some c => deliveries s c
  | None => 0
  end.

(** The result of a message that its caller awaits is in exactly one place:
    with the engine, on a stream, with a router, or in the channel attached
    to the message.  No result exists for a message nobody awaits. *)
Definition tok_inv (s : State) : Prop :=
  ∀ m, occ m (inflight (producer s)) + occ m (successes (producer s))
       + occ m (Msg <$> errors (producer s))
       + hs_holds m (handleSuccesses s) + he_holds m (handleErrors s)
       + deliveries_msg s m
       = sum_over (awaits m) (callers s).

Definition del_inv (s : State) : Prop :=
  (∀ c, 0 < deliveries s c → 0 < sum_over (att c) (heap s))
  ∧ handleSuccesses s ≠ HS_Send None
  ∧ (∀ e, handleErrors s ≠ HE_Send None e).

(** A message is with the engine or reported as often as it was pushed. *)
Definition rep_inv (s : State) : Prop :=
  ∀ m, occ m (inflight (producer s)) + occ m (report_msg <$> reports (producer s))
       = sum_over (pushedc m) (callers s).

Definition uniq_inv (s : State) : Prop := NoDup (all_msgs (callers s)).

Definition thr_inv (s : State) : Prop :=
  ∀ t th, callers s !! t = Some th → thread_ok th ∧ att_ok (heap s) th.

(** * The atomic actions

    [step] as a relation, one rule per statement.  The rules are the cases of
    the functions above (lemma [step_astep]); proofs of invariants go by
    cases on the rule. *)

Inductive astep : Label → State → State → Prop :=
(* SendMessage *)
| a_sm_get_pool t k s msg c :
    callers s !! t = Some (T_SendMessage msg SM_Get) →
    expectationsPool s !! k = Some c →
    astep (L_call t (Some k)) s
      (upd t (T_SendMessage msg (SM_Attach c))
         (set_pool (delete k (expectationsPool s)) s))
| a_sm_get_new t s msg :
    callers s !! t = Some (T_SendMessage msg SM_Get) →
    astep (L_call t None) s
      (upd t (T_SendMessage msg (SM_Attach (length (slots s))))
         (set_slots (slots s ++ [[]]) s))
| a_sm_attach t pick s msg c pm :
    callers s !! t = Some (T_SendMessage msg (SM_Attach c)) →
    heap s !! msg = Some pm →
    astep (L_call t pick) s
      (upd t (T_SendMessage msg (SM_Push c))
         (set_heap (<[msg := with_expectation (Some c) pm]> (heap s)) s))
| a_sm_push t pick s msg c :
    callers s !! t = Some (T_SendMessage msg (SM_Push c)) →
    shutdown (producer s) = false →
    astep (L_call t pick) s
      (upd t (T_SendMessage msg (SM_Wait c))
         (set_producer (with_inflight (inflight (producer s) ++ [msg]) (producer s)) s))
| a_sm_wait t pick s msg c v rest :
    callers s !! t = Some (T_SendMessage msg (SM_Wait c)) →
    slots s !! c = Some (v :: rest) →
    astep (L_call t pick) s
      (upd t (T_SendMessage msg (SM_Detach c v))
         (set_slots (<[c := rest]> (slots s)) s))
| a_sm_detach t pick s msg c v pm :
    callers s !! t = Some (T_SendMessage msg (SM_Detach c v)) →
    heap s !! msg = Some pm →
    astep (L_call t pick) s
      (upd t (T_SendMessage msg (SM_Put c v))
         (set_heap (<[msg := with_expectation None pm]> (heap s)) s))
| a_sm_put t pick s msg c v :
    callers s !! t = Some (T_SendMessage msg (SM_Put c v)) →
    astep (L_call t pick) s
      (upd t (T_SendMessage msg (SM_Return v))
         (set_pool (expectationsPool s ++ [c]) s))
| a_sm_return_err t pick s msg e :
    callers s !! t = Some (T_SendMessage msg (SM_Return (Some e))) →
    astep (L_call t pick) s
      (upd t (T_SendMessage msg (SM_Done (-1) (-1) (Some (Err e)))) s)
| a_sm_return_ok t pick s msg pm :
    callers s !! t = Some (T_SendMessage msg (SM_Return None)) →
    heap s !! msg = Some pm →
    astep (L_call t pick) s
      (upd t (T_SendMessage msg (SM_Done (Partition pm) (Offset pm) None)) s)
(* the goroutine of SendMessages *)
| a_sub_get_pool t k s msgs ix cl con i c :
    callers s !! t = Some (T_SendMessages msgs ix cl (Sub_Get i) con) →
    expectationsPool s !! k = Some c →
    astep (L_go t (Some k)) s
      (upd t (T_SendMessages msgs ix cl (Sub_Attach i c) con)
         (set_pool (delete k (expectationsPool s)) s))
| a_sub_get_new t s msgs ix cl con i :
    callers s !! t = Some (T_SendMessages msgs ix cl (Sub_Get i) con) →
    astep (L_go t None) s
      (upd t (T_SendMessages msgs ix cl (Sub_Attach i (length (slots s))) con)
         (set_slots (slots s ++ [[]]) s))
| a_sub_attach t pick s msgs ix cl con i c msg pm :
    callers s !! t = Some (T_SendMessages msgs ix cl (Sub_Attach i c) con) →
    msgs !! i = Some msg →
    heap s !! msg = Some pm →
    astep (L_go t pick) s
      (upd t (T_SendMessages msgs ix cl (Sub_Push i c) con)
         (set_heap (<[msg := with_expectation (Some c) pm]> (heap s)) s))
| a_sub_push t pick s msgs ix cl con i c msg :
    callers s !! t = Some (T_SendMessages msgs ix cl (Sub_Push i c) con) →
    msgs !! i = Some msg →
    shutdown (producer s) = false →
    astep (L_go t pick) s
      (upd t (T_SendMessages msgs ix cl (Sub_Index i) con)
         (set_producer (with_inflight (inflight (producer s) ++ [msg]) (producer s)) s))
| a_sub_index t pick s msgs ix cl con i :
    callers s !! t = Some (T_SendMessages msgs ix cl (Sub_Index i) con) →
    length ix < length msgs →
    astep (L_go t pick) s
      (upd t (T_SendMessages msgs (ix ++ [i]) cl (sub_range msgs (S i)) con) s)
| a_sub_close t pick s msgs ix cl con :
    callers s !! t = Some (T_SendMessages msgs ix cl Sub_Close con) →
    astep (L_go t pick) s
      (upd t (T_SendMessages msgs ix true Sub_Exit con) s)
(* the caller of SendMessages *)
| a_con_take t pick s msgs i rest cl sub errs :
    callers s !! t = Some (T_SendMessages msgs (i :: rest) cl sub (Con_Range errs)) →
    astep (L_call t pick) s
      (upd t (T_SendMessages msgs rest cl sub (Con_Read i errs)) s)
| a_con_exit t pick s msgs sub errs :
    callers s !! t = Some (T_SendMessages msgs [] true sub (Con_Range errs)) →
    astep (L_call t pick) s
      (upd t (T_SendMessages msgs [] true sub (Con_Done (aggregate errs))) s)
| a_con_read t pick s msgs ix cl sub i errs msg pm :
    callers s !! t = Some (T_SendMessages msgs ix cl sub (Con_Read i errs)) →
    msgs !! i = Some msg →
    heap s !! msg = Some pm →
    astep (L_call t pick) s
      (upd t (T_SendMessages msgs ix cl sub (Con_Wait i (expectation pm) errs)) s)
| a_con_wait t pick s msgs ix cl sub i c errs v rest :
    callers s !! t = Some (T_SendMessages msgs ix cl sub (Con_Wait i (Some c) errs)) →
    slots s !! c = Some (v :: rest) →
    astep (L_call t pick) s
      (upd t (T_SendMessages msgs ix cl sub (Con_Detach i c v errs))
         (set_slots (<[c := rest]> (slots s)) s))
| a_con_detach t pick s msgs ix cl sub i c v errs msg pm :
    callers s !! t = Some (T_SendMessages msgs ix cl sub (Con_Detach i c v errs)) →
    msgs !! i = Some msg →
    heap s !! msg = Some pm →
    astep (L_call t pick) s
      (upd t (T_SendMessages msgs ix cl sub (Con_Put i c v errs))
         (set_heap (<[msg := with_expectation None pm]> (heap s)) s))
| a_con_put t pick s msgs ix cl sub i c v errs :
    callers s !! t = Some (T_SendMessages msgs ix cl sub (Con_Put i c v errs)) →
    astep (L_call t pick) s
      (upd t (T_SendMessages msgs ix cl sub (Con_Range (collect errs v)))
         (set_pool (expectationsPool s ++ [c]) s))
(* Close *)
| a_cl_asyncclose t pick s :
    callers s !! t = Some (T_Close CL_AsyncClose) →
    astep (L_call t pick) s
      (upd t (T_Close CL_Wait) (set_producer (with_shutdown true (producer s)) s))
| a_cl_wait t pick s :
    callers s !! t = Some (T_Close CL_Wait) →
    wg s = 0 →
    astep (L_call t pick) s (upd t (T_Close (CL_Done None)) s)
(* handleSuccesses *)
| a_hs_take s msg rest :
    handleSuccesses s = HS_Range →
    successes (producer s) = msg :: rest →
    astep L_handleSuccesses s
      (set_hs (HS_Read msg) (set_producer (with_successes rest (producer s)) s))
| a_hs_exit s :
    handleSuccesses s = HS_Range →
    successes (producer s) = [] →
    closed (producer s) = true →
    astep L_handleSuccesses s (set_hs HS_Exit s)
| a_hs_read s msg pm :
    handleSuccesses s = HS_Read msg →
    heap s !! msg = Some pm →
    astep L_handleSuccesses s (set_hs (HS_Send (expectation pm)) s)
| a_hs_send s c buf :
    handleSuccesses s = HS_Send (Some c) →
    slots s !! c = Some buf →
    length buf < slot_capacity →
    astep L_handleSuccesses s
      (set_hs HS_Range (set_slots (<[c := buf ++ [None]]> (slots s)) s))
| a_hs_done s n :
    handleSuccesses s = HS_Exit →
    wg s = S n →
    astep L_handleSuccesses s (set_hs HS_Done (set_wg n s))
(* handleErrors *)
| a_he_take s err rest :
    handleErrors s = HE_Range →
    errors (producer s) = err :: rest →
    astep L_handleErrors s
      (set_he (HE_Read err) (set_producer (with_errors rest (producer s)) s))
| a_he_exit s :
    handleErrors s = HE_Range →
    errors (producer s) = [] →
    closed (producer s) = true →
    astep L_handleErrors s (set_he HE_Exit s)
| a_he_read s err pm :
    handleErrors s = HE_Read err →
    heap s !! Msg err = Some pm →
    astep L_handleErrors s (set_he (HE_Send (expectation pm) err) s)
| a_he_send s c err buf :
    handleErrors s = HE_Send (Some c) err →
    slots s !! c = Some buf →
    length buf < slot_capacity →
    astep L_handleErrors s
      (set_he HE_Range (set_slots (<[c := buf ++ [Some err]]> (slots s)) s))
| a_he_done s n :
    handleErrors s = HE_Exit →
    wg s = S n →
    astep L_handleErrors s (set_he HE_Done (set_wg n s))
(* the engine *)
| a_assign k p o s msg pm :
    inflight (producer s) !! k = Some msg →
    heap s !! msg = Some pm →
    astep (L_assign k p o) s
      (set_heap (<[msg := mkProducerMessage p o (expectation pm)]> (heap s)) s)
| a_succeed k s msg pm :
    closed (producer s) = false →
    inflight (producer s) !! k = Some msg →
    heap s !! msg = Some pm →
    astep (L_succeed k) s
      (set_producer
         (with_reports (reports (producer s) ++ [Succeeded msg (Partition pm) (Offset pm)])
            (with_successes (successes (producer s) ++ [msg])
               (with_inflight (delete k (inflight (producer s))) (producer s)))) s)
| a_fail k cause s msg :
    closed (producer s) = false →
    inflight (producer s) !! k = Some msg →
    astep (L_fail k cause) s
      (set_producer
         (with_reports (reports (producer s) ++ [Failed msg cause])
            (with_errors (errors (producer s) ++ [mkProducerError msg cause])
               (with_inflight (delete k (inflight (producer s))) (producer s)))) s)
| a_close s :
    shutdown (producer s) = true →
    closed (producer s) = false →
    inflight (producer s) = [] →
    astep L_close s (set_producer (with_closed true (producer s)) s)
(* the pool *)
| a_pool_drop k s c :
    expectationsPool s !! k = Some c →
    astep (L_pool_drop k) s
      (set_collected (collected s ++ [c])
         (set_pool (delete k (expectationsPool s)) s)).

Lemma step_astep l s s' : step l s = Some s' → astep l s s'.
Proof.
  intros H. destruct l as [t pick|t pick| | |k p o|k|k cause| |k]; simpl in H.
  - destruct (callers s !! t) as [th|] eqn:Hth; simpl in H; [|done].
    destruct th as [msg pc|msgs ix cl sub con|pc]; simpl in H.
    + destruct pc; simpl in H; unfold Get, set_expectation, Input_send, slot_recv,
        chan_recv, Put in H; repeat (simplify_option_eq || case_match);
        try (econstructor; eauto; fail).
    + destruct con; simpl in H; unfold set_expectation, slot_recv,
        chan_recv, Put in H; repeat (simplify_option_eq || case_match);
        try (econstructor; eauto; fail).
    + destruct pc; simpl in H; repeat (simplify_option_eq || case_match);
        try (econstructor; eauto; fail).
  - destruct (callers s !! t) as [th|] eqn:Hth; simpl in H; [|done].
    destruct th as [msg pc|msgs ix cl sub con|pc]; simpl in H; try done.
    destruct sub; simpl in H; unfold Get, set_expectation, Input_send,
      chan_send in H; repeat (simplify_option_eq || case_match);
      try (econstructor; eauto; fail).
  - unfold handleSuccesses_step, slot_send, chan_send, wg_Done in H.
    repeat (simplify_option_eq || case_match); try (econstructor; eauto; fail).
  - unfold handleErrors_step, slot_send, chan_send, wg_Done in H.
    repeat (simplify_option_eq || case_match); try (econstructor; eauto; fail).
  - unfold engine_assign in H. simplify_option_eq. by econstructor.
  - unfold engine_succeed in H.
    repeat (simplify_option_eq || case_match); by econstructor.
  - unfold engine_fail in H.
    repeat (simplify_option_eq || case_match); by econstructor.
  - unfold engine_close in H. case_match; [|done]. simplify_eq.
    apply andb_prop in H0 as [H0 H2]. apply andb_prop in H0 as [H0 H1].
    apply negb_true_iff in H1. apply bool_decide_eq_true in H2.
    by econstructor.
  - unfold pool_drop in H. simplify_option_eq. by econstructor.
Qed.

Lemma astep_step l s s' : astep l s s' → step l s = Some s'.
Proof.
  destruct 1; simpl;
    unfold handleSuccesses_step, handleErrors_step, engine_assign, engine_succeed,
      engine_fail, engine_close, pool_drop;
    repeat match goal with H : _ = _ |- _ => rewrite H; try clear H end; simpl;
    unfold Get, set_expectation, Input_send, slot_recv, slot_send, chan_send,
      chan_recv, Put, wg_Done;
    repeat match goal with H : _ = _ |- _ => rewrite H; try clear H end; simpl;
    try done.
  all: try (case_decide; [done|lia]).
  all: by match goal with H : heap _ !! _ = _ |- _ => rewrite H end.
Qed.

(** * Preservation of the invariants *)

Lemma exp_of_insert h m pm m' :
  exp_of (<[m:=pm]> h) m' =
  if decide (m = m' ∧ m < length h) then expectation pm else exp_of h m'.
Proof. unfold exp_of. rewrite list_lookup_insert. by case_decide. Qed.

Lemma exp_of_insert_ne h m pm m' :
  m ≠ m' → exp_of (<[m:=pm]> h) m' = exp_of h m'.
Proof. intros. rewrite exp_of_insert. case_decide as Hd; [by destruct Hd|done]. Qed.

Lemma exp_of_insert_eq h m pm pm0 :
  h !! m = Some pm0 → exp_of (<[m:=pm]> h) m = expectation pm.
Proof.
  intros H%lookup_lt_Some. rewrite exp_of_insert.
  case_decide as Hd; [done|]. by destruct Hd.
Qed.

Lemma exp_of_insert_same h m pm pm0 m' :
  h !! m = Some pm0 → expectation pm = expectation pm0 →
  exp_of (<[m:=pm]> h) m' = exp_of h m'.
Proof.
  intros H E. rewrite exp_of_insert. case_decide as Hd; [|done].
  destruct Hd as [<- _]. unfold exp_of. by rewrite H.
Qed.

Lemma exp_of_Some h m c :
  exp_of h m = Some c ↔ ∃ pm, h !! m = Some pm ∧ expectation pm = Some c.
Proof.
  unfold exp_of. destruct (h !! m) as [pm|]; simpl.
  - split; [by exists pm | by intros (? & [= <-] & ?)].
  - split; [done | by intros (? & ? & ?)].
Qed.

Lemma sum_over_two {A} (f : A → nat) l i j x y :
  i ≠ j → l !! i = Some x → l !! j = Some y → f x + f y ≤ sum_over f l.
Proof.
  intros Hij Hi Hj. rewrite (sum_over_split f l i x Hi).
  destruct (decide (j < i)).
  - assert (take i l !! j = Some y) as Ht by (by rewrite lookup_take_lt).
    apply (sum_over_lookup_le f) in Ht. lia.
  - assert (drop (S i) l !! (j - S i) = Some y) as Ht.
    { rewrite lookup_drop. by replace (S i + (j - S i)) with j by lia. }
    apply (sum_over_lookup_le f) in Ht. lia.
Qed.

Lemma occ_elem x l : x ∈ l → 1 ≤ occ x l.
Proof. intros H. by apply occ_pos in H. Qed.

Lemma msgs_disjoint cs t t' th th' m :
  NoDup (all_msgs cs) → t ≠ t' →
  cs !! t = Some th → cs !! t' = Some th' →
  m ∈ thread_msgs th → m ∈ thread_msgs th' → False.
Proof.
  intros HN Htt Ht Ht' Hm Hm'. apply occ_elem in Hm, Hm'.
  apply occ_NoDup with (x := m) in HN. unfold all_msgs in HN.
  rewrite occ_flat_map in HN.
  pose proof (sum_over_two (λ a, occ m (thread_msgs a)) cs t t' th th' Htt Ht Ht').
  simpl in *. lia.
Qed.

Lemma msgs_NoDup cs t th :
  NoDup (all_msgs cs) → cs !! t = Some th → NoDup (thread_msgs th).
Proof.
  intros HN Ht. apply occ_NoDup. intros m.
  apply occ_NoDup with (x := m) in HN. unfold all_msgs in HN.
  rewrite occ_flat_map in HN.
  pose proof (sum_over_lookup_le (λ a, occ m (thread_msgs a)) cs t th Ht).
  simpl in *. lia.
Qed.

Lemma all_msgs_insert cs t th th' :
  cs !! t = Some th → thread_msgs th' = thread_msgs th →
  all_msgs (<[t:=th']> cs) = all_msgs cs.
Proof.
  intros Ht E. unfold all_msgs.
  rewrite <- (take_drop_middle cs t th Ht) at 2.
  rewrite insert_take_drop by (by eapply lookup_lt_Some).
  rewrite !flat_map_app. simpl. by rewrite E.
Qed.

Definition thr_inv_on (h : list ProducerMessage) (cs : list Thread) : Prop :=
  ∀ t th, cs !! t = Some th → thread_ok th ∧ att_ok h th.

Lemma att_ok_ext h h' th :
  (∀ m, m ∈ thread_msgs th → exp_of h' m = exp_of h m) →
  att_ok h th → att_ok h' th.
Proof.
  intros E. destruct th as [m pc|msgs ix cl sub con|pc]; simpl in *; [| |done].
  - intros H. rewrite <- H. apply E. by left.
  - assert (∀ j m, msgs !! j = Some m → exp_of h' m = exp_of h m) as E'.
    { intros j m Hj. apply E. by eapply list_elem_of_lookup_2. }
    intros (H1 & H2 & H3). split_and!.
    + intros j m Hj. rewrite (E' j m Hj). by apply H1.
    + destruct sub; try done. destruct H2 as (m & Hm & ?).
      exists m. by rewrite (E' _ _ Hm).
    + destruct con; try done.
      * destruct H3 as (m & c & Hm & ? & ?). exists m, c. by rewrite (E' _ _ Hm).
      * destruct H3 as (m & Hm & ?). exists m. by rewrite (E' _ _ Hm).
Qed.

Lemma thr_upd h h' cs t th th' :
  NoDup (all_msgs cs) → thr_inv_on h cs →
  cs !! t = Some th →
  (∀ m, m ∉ thread_msgs th → exp_of h' m = exp_of h m) →
  thread_ok th' → att_ok h' th' →
  thr_inv_on h' (<[t:=th']> cs).
Proof.
  intros HN Hinv Ht E Hok Hatt t2 th2. rewrite list_lookup_insert.
  case_decide as Hd.
  - intros [= <-]. done.
  - intros Ht2. destruct (Hinv _ _ Ht2) as [? Ha]. split; [done|].
    eapply att_ok_ext; [|done]. intros m Hm. apply E. intros Hm'.
    assert (t ≠ t2).
    { intros ->. apply Hd. split; [done|]. by eapply lookup_lt_Some. }
    by eapply (msgs_disjoint cs t t2).
Qed.

Lemma thr_heap h h' cs :
  (∀ m, exp_of h' m = exp_of h m) → thr_inv_on h cs → thr_inv_on h' cs.
Proof.
  intros E Hinv t th Ht. destruct (Hinv _ _ Ht). split; [done|].
  eapply att_ok_ext; [|done]. intros m _. apply E.
Qed.

Lemma seq_snoc_sub k i : k ≤ i → seq k (S i - k) = seq k (i - k) ++ [i].
Proof.
  intros H. replace (S i - k) with (S (i - k)) by lia.
  rewrite seq_S. do 2 f_equal. lia.
Qed.

Lemma seq_cons_inv i rest a b :
  i :: rest = seq a b → i = a ∧ rest = seq (S a) (b - 1) ∧ 0 < b.
Proof.
  destruct b as [|b]; simpl; [done|]. intros [= -> ->].
  by rewrite Nat.sub_0_r; split_and!; [| |lia].
Qed.

Lemma seq_nil_inv a b : [] = seq a b → b = 0.
Proof. by destruct b. Qed.

Lemma range_ok_attach h msgs lo i msg pm c :
  NoDup msgs → range_ok h msgs lo i → lo ≤ i →
  msgs !! i = Some msg → h !! msg = Some pm →
  range_ok (<[msg := with_expectation (Some c) pm]> h) msgs lo (S i).
Proof.
  unfold range_ok. intros HND Hr Hlo Hi Hm j m Hj. specialize (Hr j m Hj).
  destruct (decide (j = i)) as [->|Hne].
  - assert (m = msg) as -> by congruence.
    erewrite exp_of_insert_eq by done. simpl. clear Hr. case_decide; [done|lia].
  - rewrite exp_of_insert_ne.
    + repeat case_decide; try done; lia.
    + intros ->. apply Hne. by eapply NoDup_lookup.
Qed.

Lemma range_ok_detach h msgs i hi msg pm :
  NoDup msgs → range_ok h msgs i hi →
  msgs !! i = Some msg → h !! msg = Some pm →
  range_ok (<[msg := with_expectation None pm]> h) msgs (S i) hi.
Proof.
  unfold range_ok. intros HND Hr Hi Hm j m Hj. specialize (Hr j m Hj).
  destruct (decide (j = i)) as [->|Hne].
  - assert (m = msg) as -> by congruence.
    erewrite exp_of_insert_eq by done. simpl. clear Hr. case_decide; [lia|done].
  - rewrite exp_of_insert_ne.
    + repeat case_decide; try done; lia.
    + intros ->. apply Hne. by eapply NoDup_lookup.
Qed.

Lemma range_ok_bounds h msgs lo hi lo' hi' :
  lo = lo' → hi = hi' → range_ok h msgs lo hi → range_ok h msgs lo' hi'.
Proof. by intros -> ->. Qed.

Lemma exp_of_insert_other h msgs i j msg m pm :
  NoDup msgs → msgs !! i = Some msg → msgs !! j = Some m → i ≠ j →
  exp_of (<[msg:=pm]> h) m = exp_of h m.
Proof.
  intros HND Hi Hj Hne. apply exp_of_insert_ne. intros ->.
  apply Hne. by eapply NoDup_lookup.
Qed.

Lemma sub_range_sent msgs i :
  i < length msgs → sub_sent (length msgs) (sub_range msgs (S i)) = S i.
Proof. intros. unfold sub_range. case_decide; simpl; lia. Qed.

Lemma sub_range_attached msgs i :
  i < length msgs → sub_attached (length msgs) (sub_range msgs (S i)) = S i.
Proof. intros. unfold sub_range. case_decide; simpl; lia. Qed.

Lemma sub_range_pushed msgs i :
  i < length msgs → sub_pushed (length msgs) (sub_range msgs (S i)) = S i.
Proof. intros. unfold sub_range. case_decide; simpl; lia. Qed.

Lemma sub_range_in_range msgs i : sub_in_range (length msgs) (sub_range msgs i).
Proof. unfold sub_range. by case_decide. Qed.

Lemma sub_range_cases msgs i :
  sub_range msgs i = Sub_Get i ∨ sub_range msgs i = Sub_Close.
Proof. unfold sub_range. case_decide; auto. Qed.

Lemma sub_sent_pushed n sub : sub_sent n sub ≤ sub_pushed n sub.
Proof. destruct sub; simpl; lia. Qed.

Lemma sub_pushed_attached n sub : sub_pushed n sub ≤ sub_attached n sub.
Proof. destruct sub; simpl; lia. Qed.

Ltac thread_facts H :=
  match type of H with
  | callers ?s !! ?t = Some ?th =>
      match goal with
      | Hinv : thr_inv_on (heap s) (callers s), HN : uniq_inv s |- _ =>
          let Hok := fresh "Hok" in
          let Hatt := fresh "Hatt" in
          let HND := fresh "HND" in
          pose proof (proj1 (Hinv _ _ H)) as Hok;
          pose proof (proj2 (Hinv _ _ H)) as Hatt;
          pose proof (msgs_NoDup _ _ _ HN H) as HND;
          simpl in Hok, Hatt, HND
      end
  end.

Ltac thr_case :=
  match goal with
  | H : callers _ !! _ = Some _, HN : uniq_inv _, Hinv : thr_inv_on _ _ |- _ =>
      thread_facts H;
      eapply (thr_upd _ _ _ _ _ _ HN Hinv H);
      [ intros m' Hm'; simpl in Hm'; try done;
        try (apply exp_of_insert_ne; intros ->; apply Hm';
             first [by left | by eapply list_elem_of_lookup_2])
      | simpl | simpl ]
  end.

Ltac batch_facts :=
  unfold taken0 in *; simpl in *;
  match goal with
  | Hok : _ ∧ _ ∧ _ ∧ _ ∧ _ ∧ _, Hatt : _ ∧ _ ∧ _ |- _ =>
      destruct Hok as (Hr & Hlen & Htk & Hix & Hcl & Hdone);
      destruct Hatt as (Hrange & Hsub & Hcon)
  end.

Lemma thr_step l s s' :
  astep l s s' → uniq_inv s →
  thr_inv_on (heap s) (callers s) → thr_inv_on (heap s') (callers s').
Proof.
  intros Hs HN Hinv. destruct Hs; simpl; try done.
  (* SendMessage *)
  1-9: thr_case; try done; by erewrite exp_of_insert_eq.
  (* the goroutine *)
  - (* get, pooled *) thr_case; batch_facts; split_and!; try done.
    + split; [by intros ?%Hcl|done].
    + by destruct con.
  - thr_case; batch_facts; split_and!; try done.
    + split; [by intros ?%Hcl|done].
    + by destruct con.
  - (* attach *) thr_case; batch_facts; split_and!; try done.
    + split; [by intros ?%Hcl|done].
    + by destruct con.
    + eapply range_ok_attach; try done. destruct con; simpl in *; lia.
    + exists msg. split; [done|]. by erewrite exp_of_insert_eq.
    + destruct con; try done.
      * destruct Hcon as (m & c0 & Hm & -> & Hc). exists m, c0. split_and!; try done.
        erewrite exp_of_insert_other; try done. simpl in *. lia.
      * destruct Hcon as (m & Hm & Hc). exists m. split_and!; try done.
        erewrite exp_of_insert_other; try done. simpl in *. lia.
  - (* push *) thr_case; batch_facts; split_and!; try done.
    + split; [by intros ?%Hcl|done].
    + by destruct con.
  - (* index *) thr_case; batch_facts.
    + rewrite sub_range_sent, length_app by done. simpl.
      replace (S i - (length ix + 1)) with (i - length ix) by lia.
      split_and!; try lia.
      * apply sub_range_in_range.
      * rewrite seq_snoc_sub by done. by rewrite <- Hix.
      * split; [by intros ?%Hcl|]. by destruct (sub_range_cases msgs (S i)) as [-> | ->].
      * by destruct con.
    + rewrite sub_range_sent, sub_range_attached, length_app by done. simpl.
      replace (S i - (length ix + 1)) with (i - length ix) by lia.
      split_and!; try done.
      by destruct (sub_range_cases msgs (S i)) as [-> | ->].
  - (* close *) thr_case; batch_facts; split_and!; try done.
    by destruct con.
  (* the caller *)
  - (* take *) thr_case; batch_facts.
    + apply seq_cons_inv in Hix as (Hi & Hrest & Hpos).
      split_and!; try done; try lia.
      rewrite Hrest. f_equal; lia.
    + apply seq_cons_inv in Hix as (Hi & Hrest & Hpos).
      split_and!; try done. by rewrite Hi.
  - (* exit *) thr_case; batch_facts.
    + assert (sub = Sub_Exit) as -> by (by apply Hcl). simpl.
      split_and!; try done. by rewrite Nat.sub_diag.
    + assert (sub = Sub_Exit) as -> by (by apply Hcl). simpl in *.
      split_and!; try done. by rewrite Nat.sub_0_r in Hrange.
  - (* read *) thr_case; batch_facts; split_and!; try done.
    pose proof (Hrange i msg ltac:(done)) as Hm.
    pose proof (sub_sent_pushed (length msgs) sub).
    pose proof (sub_pushed_attached (length msgs) sub).
    case_decide; [|lia]. destruct Hm as [c Hc].
    exists msg, c. split_and!; try done.
    apply exp_of_Some in Hc as (pm' & ? & ?). congruence.
  - (* wait *) thr_case; batch_facts; split_and!; try done.
    destruct Hcon as (m & c0 & ? & [= <-] & ?). by exists m.
  - (* detach *) thr_case; batch_facts; split_and!; try done.
    + by eapply range_ok_detach.
    + destruct sub; try done. destruct Hsub as (m & Hm & Hc).
      exists m. split; [done|]. erewrite exp_of_insert_other; try done.
      simpl in *. lia.
  - (* put *) thr_case; batch_facts.
    + assert (length ix = sub_sent (length msgs) sub - S i) as Hl.
      { rewrite Hix at 1. apply length_seq. }
      replace (sub_sent (length msgs) sub - length ix) with (S i) by lia.
      split_and!; try done.
    + assert (length ix = sub_sent (length msgs) sub - S i) as Hl.
      { rewrite Hix at 1. apply length_seq. }
      replace (sub_sent (length msgs) sub - length ix) with (S i) by lia.
      split_and!; try done.
  (* Close *)
  - by thr_case.
  - by thr_case.
  (* the engine *)
  - eapply thr_heap; [|done]. intros m. by eapply exp_of_insert_same.
Qed.

Ltac sum_facts :=
  repeat match goal with
  | H : ?l !! ?i = Some ?y |- context [sum_over ?f (<[?i := ?x]> ?l)] =>
      let E := fresh "E" in
      let v := fresh "v" in
      pose proof (sum_over_insert f l i x y H) as E; simpl in E;
      set (v := sum_over f (<[i := x]> l)) in *; clearbody v
  | H : ?l !! ?k = Some ?y |- context [occ ?c (delete ?k ?l)] =>
      let E := fresh "E" in
      let v := fresh "v" in
      pose proof (occ_delete c l k y H) as E; simpl in E;
      set (v := occ c (delete k l)) in *; clearbody v
  end;
  rewrite ?occ_snoc, ?length_app, ?length_insert.

Ltac ind_cases := unfold ind in *; repeat case_decide; simplify_eq; try lia.

Lemma exp_of_lookup h m pm : h !! m = Some pm → exp_of h m = expectation pm.
Proof. unfold exp_of. by intros ->. Qed.

Lemma own_step l s s' :
  astep l s s' → uniq_inv s → thr_inv_on (heap s) (callers s) →
  own_inv s → own_inv s'.
Proof.
  intros Hs HN Hinv Hown c0. specialize (Hown c0).
  destruct Hs; simpl in *; try done.
  all: try match goal with H : callers _ !! _ = Some _ |- _ => thread_facts H end.
  all: try match goal with H : heap _ !! _ = Some _ |- _ => pose proof (exp_of_lookup _ _ _ H) end.
  all: sum_facts; simpl in *; unfold att in *; simpl in *.
  all: try (ind_cases; fail).
  - (* SendMessage attaches *)
    assert (expectation pm = None) as Hp by congruence. rewrite Hp in *. ind_cases.
  - (* SendMessage detaches *)
    assert (expectation pm = Some c) as Hp by congruence. rewrite Hp in *. ind_cases.
  - (* the goroutine attaches *)
    destruct Hok as (Hr & Hlen & Htk & _). destruct Hatt as (Hrange & _).
    specialize (Hrange i msg ltac:(done)). case_decide; [lia|].
    assert (expectation pm = None) as Hp by congruence. rewrite Hp in *. ind_cases.
  - (* the goroutine sends an index *)
    destruct (sub_range_cases msgs (S i)) as [Hc | Hc]; rewrite Hc in *;
      simpl in *; lia.
  - (* the caller detaches *)
    destruct Hatt as (_ & _ & m & Hm & Hc).
    assert (expectation pm = Some c) as Hp by congruence. rewrite Hp in *. ind_cases.
Qed.

Lemma rep_step l s s' :
  astep l s s' → thr_inv_on (heap s) (callers s) →
  rep_inv s → rep_inv s'.
Proof.
  intros Hs Hinv Hrep m0. specialize (Hrep m0).
  destruct Hs; simpl in *; try done.
  all: try match goal with H : callers _ !! _ = Some _ |- _ =>
         pose proof (proj1 (Hinv _ _ H)) as Hok; simpl in Hok end.
  all: rewrite ?fmap_app; simpl.
  all: sum_facts; simpl in *.
  all: try (ind_cases; fail).
  - (* the goroutine pushes *)
    rewrite (occ_take_S m0 i msgs msg) in E by done. lia.
  - (* the goroutine sends an index *)
    rewrite sub_range_pushed in E by (by destruct Hok). lia.
Qed.

Lemma default_snoc_nil {A} (sl : list (list A)) c :
  default [] ((sl ++ [[]]) !! c) = default [] (sl !! c).
Proof.
  destruct (decide (c < length sl)).
  - by rewrite lookup_app_l.
  - rewrite lookup_app_r, (lookup_ge_None_2 sl c) by lia.
    by destruct (c - length sl) as [|[|?]].
Qed.

Lemma default_insert {A} (sl : list (list A)) c b c' :
  default [] (<[c:=b]> sl !! c') =
  if decide (c = c' ∧ c < length sl) then b else default [] (sl !! c').
Proof. rewrite list_lookup_insert. by case_decide. Qed.

Lemma att_exp_of c h m : h !! m = None ∨ (∃ pm, h !! m = Some pm ∧ att c pm = ind (exp_of h m = Some c)).
Proof.
  unfold exp_of, att. destruct (h !! m) as [pm|]; [right|by left].
  exists pm. done.
Qed.

Lemma att_unique s c m1 m2 :
  own_inv s → exp_of (heap s) m1 = Some c → exp_of (heap s) m2 = Some c → m1 = m2.
Proof.
  intros Hown H1 H2. destruct (decide (m1 = m2)) as [|Hne]; [done|exfalso].
  apply exp_of_Some in H1 as (pm1 & Hm1 & He1), H2 as (pm2 & Hm2 & He2).
  pose proof (sum_over_two (att c) (heap s) m1 m2 pm1 pm2 Hne Hm1 Hm2) as Hs.
  specialize (Hown c). unfold att in Hs at 1 2. rewrite He1, He2 in Hs.
  unfold ind in *. repeat case_decide; try done; lia.
Qed.

Lemma att_pos s c m :
  exp_of (heap s) m = Some c → 0 < sum_over (att c) (heap s).
Proof.
  intros (pm & Hm & He)%exp_of_Some.
  pose proof (sum_over_lookup_le (att c) (heap s) m pm Hm) as Hs.
  unfold att in Hs at 1. rewrite He in Hs. unfold ind in Hs.
  case_decide; [lia|done].
Qed.

Lemma att_pos_inv h c :
  0 < sum_over (att c) h → ∃ m, exp_of h m = Some c.
Proof.
  intros (m & pm & Hm & Hp)%sum_over_pos. exists m.
  apply exp_of_Some. exists pm. split; [done|].
  unfold att, ind in Hp. case_decide; [done|lia].
Qed.

Lemma held_unattached s t th c :
  own_inv s → callers s !! t = Some th → 0 < holds c th →
  sum_over (att c) (heap s) = 0.
Proof.
  intros Hown Ht Hh. specialize (Hown c).
  pose proof (sum_over_lookup_le (holds c) (callers s) t th Ht).
  unfold ind in Hown. case_decide; lia.
Qed.

Lemma held_no_delivery s t th c :
  own_inv s → del_inv s → callers s !! t = Some th → 0 < holds c th →
  deliveries s c = 0.
Proof.
  intros Hown (Hdel & _) Ht Hh.
  pose proof (held_unattached s t th c Hown Ht Hh).
  specialize (Hdel c). lia.
Qed.

Lemma held_not_attached s t th c m :
  own_inv s → callers s !! t = Some th → 0 < holds c th →
  exp_of (heap s) m ≠ Some c.
Proof.
  intros Hown Ht Hh He. apply att_pos in He.
  pose proof (held_unattached s t th c Hown Ht Hh). lia.
Qed.

Lemma sum_over_single {A} (f : A → nat) l i x :
  l !! i = Some x → (∀ j y, l !! j = Some y → j ≠ i → f y = 0) →
  sum_over f l = f x.
Proof.
  intros Hi Hz. rewrite (sum_over_split f l i x Hi).
  rewrite (sum_over_zero f (take i l)), (sum_over_zero f (drop (S i) l)); [lia| |].
  - intros y (j & Hj)%list_elem_of_lookup_1. rewrite lookup_drop in Hj.
    apply (Hz _ _ Hj). lia.
  - intros y (j & Hj)%list_elem_of_lookup_1.
    apply lookup_take_Some in Hj as [Hj ?]. apply (Hz _ _ Hj). lia.
Qed.

Lemma awaits_le m th : awaits m th ≤ occ m (thread_msgs th).
Proof.
  destruct th as [m' pc|msgs ix cl sub con|pc]; [| |done].
  - change (thread_msgs (T_SendMessage m' pc)) with [m'].
    rewrite occ_cons, occ_nil. destruct pc; simpl; lia.
  - apply occ_seg_le.
Qed.

Lemma pushedc_le m th : pushedc m th ≤ occ m (thread_msgs th).
Proof.
  destruct th as [m' pc|msgs ix cl sub con|pc]; [| |done].
  - change (thread_msgs (T_SendMessage m' pc)) with [m'].
    rewrite occ_cons, occ_nil. destruct pc; simpl; lia.
  - apply occ_take_le.
Qed.

Lemma awaits_own cs t th m :
  NoDup (all_msgs cs) → cs !! t = Some th → m ∈ thread_msgs th →
  sum_over (awaits m) cs = awaits m th.
Proof.
  intros HN Ht Hm. apply (sum_over_single _ cs t th Ht).
  intros j y Hj Hne. pose proof (awaits_le m y) as Hle.
  destruct (decide (occ m (thread_msgs y) = 0)) as [|Hpos]; [lia|exfalso].
  eapply (msgs_disjoint cs j t); try done. apply occ_pos. lia.
Qed.

Lemma pushedc_own cs t th m :
  NoDup (all_msgs cs) → cs !! t = Some th → m ∈ thread_msgs th →
  sum_over (pushedc m) cs = pushedc m th.
Proof.
  intros HN Ht Hm. apply (sum_over_single _ cs t th Ht).
  intros j y Hj Hne. pose proof (pushedc_le m y) as Hle.
  destruct (decide (occ m (thread_msgs y) = 0)) as [|Hpos]; [lia|exfalso].
  eapply (msgs_disjoint cs j t); try done. apply occ_pos. lia.
Qed.

Lemma occ_seg_pos x a b l :
  0 < occ x (seg a b l) → ∃ j, a ≤ j < b ∧ l !! j = Some x.
Proof.
  intros (j & Hj)%occ_pos%list_elem_of_lookup_1. unfold seg in Hj.
  apply lookup_take_Some in Hj as [Hj ?]. rewrite lookup_drop in Hj.
  exists (a + j). split; [lia|done].
Qed.

Lemma occ_seg_after x i b l :
  NoDup l → l !! i = Some x → occ x (seg (S i) b l) = 0.
Proof.
  intros HND Hi. destruct (decide (occ x (seg (S i) b l) = 0)) as [|Hpos]; [done|].
  destruct (occ_seg_pos x (S i) b l) as (j & Hj & Hl); [lia|].
  pose proof (NoDup_lookup l i j x HND Hi Hl). lia.
Qed.

Lemma con_detached_received k0 n con : con_detached k0 n con ≤ con_received k0 n con.
Proof. destruct con; simpl; lia. Qed.

Lemma awaited_attached h cs m :
  thr_inv_on h cs → 0 < sum_over (awaits m) cs → is_Some (exp_of h m).
Proof.
  intros Hinv (t & th & Ht & Hpos)%sum_over_pos.
  destruct (Hinv _ _ Ht) as [Hok Hatt].
  destruct th as [m' pc|msgs ix cl sub con|pc]; simpl in *; [| |lia].
  - destruct pc; try lia. unfold ind in Hpos. case_decide; [subst|lia]. by eexists.
  - apply occ_seg_pos in Hpos as (j & Hj & Hl).
    destruct Hatt as (Hrange & _). specialize (Hrange j m Hl).
    pose proof (con_detached_received (taken0 msgs ix sub) (length msgs) con).
    pose proof (sub_pushed_attached (length msgs) sub).
    case_decide; [done|lia].
Qed.

Ltac router_pc :=
  try match goal with H : handleSuccesses _ = _ |- _ => rewrite H in * end;
  try match goal with H : handleErrors _ = _ |- _ => rewrite H in * end.

Ltac exp_cases m0 :=
  rewrite ?exp_of_insert; simpl;
  let c0 := fresh "c0" in
  let Hexp := fresh "Hexp" in
  destruct (exp_of _ m0) as [c0|] eqn:Hexp;
  rewrite ?default_snoc_nil, ?default_insert.

Lemma con_received_taken k0 n con : con_received k0 n con ≤ con_taken k0 n con.
Proof. destruct con; simpl; lia. Qed.

Lemma held_no_delivery' s t th c :
  own_inv s → del_inv s → callers s !! t = Some th → 0 < holds c th →
  hs_to c (handleSuccesses s) + he_to c (handleErrors s)
  + length (default [] (slots s !! c)) = 0.
Proof. apply held_no_delivery. Qed.

Ltac case_insert Hd :=
  match goal with
  | |- context [decide (?a = ?b ∧ ?c)] => destruct (decide (a = b ∧ c)) as [Hd|Hd]
  end.

Lemma tok_step l s s' :
  astep l s s' → uniq_inv s → thr_inv_on (heap s) (callers s) → own_inv s →
  del_inv s → tok_inv s → tok_inv s'.
Proof.
  intros Hs HN Hinv Hown Hdel Htok m0. pose proof (Htok m0) as Htok0.
  destruct Hs; unfold deliveries_msg, deliveries, buffer in Htok0 |- *; simpl in *; try done.
  all: try match goal with H : callers _ !! _ = Some _ |- _ => thread_facts H end.
  all: rewrite ?fmap_app; simpl.
  all: router_pc.
  all: sum_facts; unfold taken0 in *; simpl in *.
  all: try (ind_cases; fail).
  all: try (exp_cases m0; ind_cases; fail).
  - (* SendMessage attaches *)
    pose proof (held_no_delivery' s t _ c Hown Hdel H) as Hd. simpl in Hd.
    destruct (decide (m0 = msg)) as [->|Hne].
    + erewrite exp_of_insert_eq by done. simpl. rewrite Hatt in Htok0.
      unfold ind in Hd. case_decide; [|done]. lia.
    + rewrite exp_of_insert_ne by done. lia.
  - (* SendMessage receives *)
    exp_cases m0.
    + case_insert Hd.
      * destruct Hd as [<- _]. assert (m0 = msg) as -> by (by eapply att_unique).
        rewrite H0 in Htok0. simpl in Htok0. ind_cases.
      * assert (c ≠ c0).
        { intros <-. apply Hd. split; [done|]. by eapply lookup_lt_Some. }
        assert (msg ≠ m0) by congruence. ind_cases.
    + assert (msg ≠ m0) by congruence. ind_cases.
  - (* SendMessage detaches *)
    pose proof (awaits_own _ _ _ msg HN H ltac:(by left)) as Ha. simpl in Ha.
    destruct (decide (m0 = msg)) as [->|Hne].
    + erewrite exp_of_insert_eq by done. simpl. lia.
    + rewrite exp_of_insert_ne by done. lia.
  - (* the goroutine attaches *)
    pose proof (held_no_delivery' s t _ c Hown Hdel H) as Hd. simpl in Hd.
    destruct Hok as (Hr & Hlen & Htk & _). destruct Hatt as (Hrange & _).
    specialize (Hrange i msg ltac:(done)). case_decide; [lia|].
    destruct (decide (m0 = msg)) as [->|Hne].
    + erewrite exp_of_insert_eq by done. simpl. rewrite Hrange in Htok0.
      unfold ind in Hd. case_decide; [|done]. lia.
    + rewrite exp_of_insert_ne by done. lia.
  - (* the goroutine pushes *)
    destruct Hok as (Hr & Hlen & Htk & _).
    pose proof (con_received_taken (i - length ix) (length msgs) con).
    rewrite (occ_seg_snoc m0 _ i msgs msg) in E by (done || lia). lia.
  - (* the goroutine sends an index *)
    destruct Hok as (Hr & Hlen & Htk & _).
    rewrite sub_range_pushed, sub_range_sent, length_app in E by done.
    simpl in E. replace (S i - (length ix + 1)) with (i - length ix) in E by lia.
    lia.
  - (* the caller takes an index *)
    destruct Hok as (Hr & Hlen & Htk & Hix & _).
    apply seq_cons_inv in Hix as (Hi & _). rewrite <- Hi in E. lia.
  - (* the caller leaves the loop *)
    destruct Hok as (Hr & Hlen & Htk & Hix & Hcl & _).
    assert (sub = Sub_Exit) as -> by (by apply Hcl). simpl in E.
    rewrite Nat.sub_0_r in E. lia.
  - (* the caller receives *)
    destruct Hok as (Hr & Hlen & Htk & _).
    destruct Hatt as (_ & _ & m & c' & Hm & [= <-] & Hc).
    pose proof (sub_sent_pushed (length msgs) sub).
    rewrite (occ_seg_cons m0 i _ msgs m) in E by (done || lia).
    exp_cases m0.
    + case_insert Hd.
      * destruct Hd as [<- _]. assert (m0 = m) as -> by (by eapply att_unique).
        rewrite H0 in Htok0. simpl in Htok0. ind_cases.
      * assert (c ≠ c0).
        { intros <-. apply Hd. split; [done|]. by eapply lookup_lt_Some. }
        assert (m ≠ m0) by congruence. ind_cases.
    + assert (m ≠ m0) by congruence. ind_cases.
  - (* the caller detaches *)
    pose proof (awaits_own _ _ _ msg HN H ltac:(by eapply list_elem_of_lookup_2)) as Ha.
    simpl in Ha. rewrite (occ_seg_after msg i _ msgs) in Ha by done.
    destruct (decide (m0 = msg)) as [->|Hne].
    + erewrite exp_of_insert_eq by done. simpl. lia.
    + rewrite exp_of_insert_ne by done. lia.
  - (* the caller releases *)
    destruct Hok as (Hr & Hlen & Htk & Hix & _).
    assert (length ix = sub_sent (length msgs) sub - S i) as Hl.
    { rewrite Hix at 1. apply length_seq. }
    replace (sub_sent (length msgs) sub - length ix) with (S i) in E by lia. lia.
  - (* handleSuccesses takes a message *)
    rewrite H0, occ_cons in Htok0. lia.
  - (* handleSuccesses reads the channel *)
    pose proof (Htok msg) as Hm. rewrite H in Hm. simpl in Hm.
    assert (0 < sum_over (awaits msg) (callers s)) as Hpos by (ind_cases).
    apply (awaited_attached _ _ _ Hinv) in Hpos as [c Hc].
    assert (expectation pm = Some c) as -> by (by rewrite <- (exp_of_lookup _ _ _ H0)).
    simpl. exp_cases m0.
    + destruct (decide (c = c0)) as [<-|Hne].
      * assert (m0 = msg) as -> by (by eapply att_unique). ind_cases.
      * assert (msg ≠ m0) by congruence. ind_cases.
    + assert (msg ≠ m0) by congruence. ind_cases.
  - (* handleSuccesses delivers *)
    exp_cases m0; [|lia]. case_insert Hd.
    + destruct Hd as [<- _]. rewrite H0 in Htok0. rewrite length_app. simpl in *.
      ind_cases.
    + assert (c ≠ c0).
      { intros <-. apply Hd. split; [done|]. by eapply lookup_lt_Some. }
      ind_cases.
  - (* handleErrors takes an error *)
    rewrite H0, fmap_cons, occ_cons in Htok0. lia.
  - (* handleErrors reads the channel *)
    pose proof (Htok (Msg err)) as Hm. rewrite H in Hm. simpl in Hm.
    assert (0 < sum_over (awaits (Msg err)) (callers s)) as Hpos by (ind_cases).
    apply (awaited_attached _ _ _ Hinv) in Hpos as [c Hc].
    assert (expectation pm = Some c) as -> by (by rewrite <- (exp_of_lookup _ _ _ H0)).
    simpl. exp_cases m0.
    + destruct (decide (c = c0)) as [<-|Hne].
      * assert (m0 = Msg err) as -> by (by eapply att_unique). ind_cases.
      * assert (Msg err ≠ m0) by congruence. ind_cases.
    + assert (Msg err ≠ m0) by congruence. ind_cases.
  - (* handleErrors delivers *)
    exp_cases m0; [|lia]. case_insert Hd.
    + destruct Hd as [<- _]. rewrite H0 in Htok0. rewrite length_app. simpl in *.
      ind_cases.
    + assert (c ≠ c0).
      { intros <-. apply Hd. split; [done|]. by eapply lookup_lt_Some. }
      ind_cases.
  - (* the engine writes partition and offset *)
    by erewrite exp_of_insert_same.
Qed.

Lemma hs_read_attached s msg pm :
  thr_inv_on (heap s) (callers s) → tok_inv s →
  handleSuccesses s = HS_Read msg → heap s !! msg = Some pm →
  ∃ c, expectation pm = Some c ∧ exp_of (heap s) msg = Some c.
Proof.
  intros Hinv Htok H H0. pose proof (Htok msg) as Hm. rewrite H in Hm. simpl in Hm.
  assert (0 < sum_over (awaits msg) (callers s)) as Hpos by (ind_cases).
  apply (awaited_attached _ _ _ Hinv) in Hpos as [c Hc]. exists c.
  split; [|done]. by rewrite <- (exp_of_lookup _ _ _ H0).
Qed.

Lemma he_read_attached s err pm :
  thr_inv_on (heap s) (callers s) → tok_inv s →
  handleErrors s = HE_Read err → heap s !! Msg err = Some pm →
  ∃ c, expectation pm = Some c ∧ exp_of (heap s) (Msg err) = Some c.
Proof.
  intros Hinv Htok H H0. pose proof (Htok (Msg err)) as Hm. rewrite H in Hm. simpl in Hm.
  assert (0 < sum_over (awaits (Msg err)) (callers s)) as Hpos by (ind_cases).
  apply (awaited_attached _ _ _ Hinv) in Hpos as [c Hc]. exists c.
  split; [|done]. by rewrite <- (exp_of_lookup _ _ _ H0).
Qed.

Lemma unawaited_no_delivery s t th msg c :
  uniq_inv s → tok_inv s →
  callers s !! t = Some th → msg ∈ thread_msgs th → awaits msg th = 0 →
  exp_of (heap s) msg = Some c →
  hs_to c (handleSuccesses s) + he_to c (handleErrors s)
  + length (default [] (slots s !! c)) = 0.
Proof.
  intros HN Htok Ht Hm Ha Hc. specialize (Htok msg).
  rewrite (awaits_own _ _ _ msg HN Ht Hm), Ha in Htok.
  unfold deliveries_msg, deliveries, buffer in Htok. rewrite Hc in Htok. lia.
Qed.

Lemma del_step l s s' :
  astep l s s' → uniq_inv s → thr_inv_on (heap s) (callers s) → own_inv s →
  tok_inv s → del_inv s → del_inv s'.
Proof.
  intros Hs HN Hinv Hown Htok (Hd & Hhs & Hhe).
  split_and!.
  - intros c0. specialize (Hd c0). unfold deliveries, buffer in *.
    destruct Hs; simpl in *; try done.
    all: try match goal with H : callers _ !! _ = Some _ |- _ => thread_facts H end.
    all: router_pc.
    all: rewrite ?default_snoc_nil, ?default_insert; simpl in *.
    all: sum_facts; unfold att in *; simpl in *.
    all: try (intros; ind_cases; fail).
    + (* SendMessage attaches *)
      assert (expectation pm = None) as Hp by (by rewrite <- (exp_of_lookup _ _ _ H0)).
      rewrite Hp in E. intros Hpos. specialize (Hd Hpos). ind_cases.
    + (* SendMessage receives *)
      case_insert Hi; [|done]. destruct Hi as [<- _]. rewrite H0 in Hd.
      simpl in Hd. intros _. apply Hd. lia.
    + (* SendMessage detaches *)
      pose proof (unawaited_no_delivery s t _ msg c HN Htok H ltac:(by left) eq_refl Hatt).
      assert (expectation pm = Some c) as Hp by (by rewrite <- (exp_of_lookup _ _ _ H0)).
      rewrite Hp in E. intros Hpos. specialize (Hd Hpos). ind_cases.
    + (* the goroutine attaches *)
      destruct Hok as (Hr & Hlen & Htk & _). destruct Hatt as (Hrange & _).
      specialize (Hrange i msg ltac:(done)). case_decide; [lia|].
      assert (expectation pm = None) as Hp by (by rewrite <- (exp_of_lookup _ _ _ H1)).
      rewrite Hp in E. intros Hpos. specialize (Hd Hpos). ind_cases.
    + (* the caller receives *)
      case_insert Hi; [|done]. destruct Hi as [<- _]. rewrite H0 in Hd.
      simpl in Hd. intros _. apply Hd. lia.
    + (* the caller detaches *)
      destruct Hatt as (_ & _ & m & Hm & Hc). assert (m = msg) as -> by congruence.
      pose proof (unawaited_no_delivery s t _ msg c HN Htok H
                    ltac:(by eapply list_elem_of_lookup_2)
                    ltac:(by apply occ_seg_after) Hc).
      assert (expectation pm = Some c) as Hp by (by rewrite <- (exp_of_lookup _ _ _ H1)).
      rewrite Hp in E. intros Hpos. specialize (Hd Hpos). ind_cases.
    + (* handleSuccesses reads the channel *)
      destruct (hs_read_attached s msg pm Hinv Htok H H0) as (c & -> & Hc).
      apply att_pos in Hc. unfold att in Hc. intros Hpos. ind_cases.
    + (* handleErrors reads the channel *)
      destruct (he_read_attached s err pm Hinv Htok H H0) as (c & -> & Hc).
      apply att_pos in Hc. unfold att in Hc. intros Hpos. ind_cases.
  - destruct Hs; simpl in *; try done.
    by destruct (hs_read_attached s msg pm Hinv Htok H H0) as (c & -> & Hc).
  - intros e. specialize (Hhe e). destruct Hs; simpl in *; try done.
    by destruct (he_read_attached s err pm Hinv Htok H H0) as (c & -> & Hc).
Qed.

Lemma uniq_step l s s' : astep l s s' → uniq_inv s → uniq_inv s'.
Proof.
  unfold uniq_inv. destruct 1; simpl; try done.
  all: by erewrite all_msgs_insert.
Qed.

(** ** What the values on their way say *)

(** A value [v] delivered for message [m] tells what the engine reported
    about [m]: nil for a success, with the partition and offset the message
    carries; an error for a failure, paired with [m] and with the cause. *)
Definition reported_ok (h : list ProducerMessage) (reps : list Report)
    (m : ptr) (v : option ProducerError) : Prop :=
  match v with
  | None => ∃ p o, fields_of h m = Some (p, o) ∧ Succeeded m p o ∈ reps
  | Some e => Msg e = m ∧ Failed m (Err e) ∈ reps
  end.

(** The produce error of [m] according to the reports, if [m] failed. *)
Fixpoint failure_of (reps : list Report) (m : ptr) : option ProducerError :=
  match reps with
  | [] => None
  | Failed m' cause :: reps' =>
      if decide (m' = m) then Some (mkProducerError m cause) else failure_of reps' m
  | Succeeded _ _ _ :: reps' => failure_of reps' m
  end.

(** The produce errors of the failed members of a batch, in batch order. *)
Definition failures (reps : list Report) (msgs : list ptr) : ProducerErrors :=
  omap (failure_of reps) msgs.

Definition done_ok (reps : list Report) (m : ptr) (p o : Z) (err : option error) : Prop :=
  match err with
  | None => Succeeded m p o ∈ reps
  | Some cause => p = (-1)%Z ∧ o = (-1)%Z ∧ Failed m cause ∈ reps
  end.

Definition con_errs (pc : Con_pc) : ProducerErrors :=
  match pc with
  | Con_Range errs | Con_Read _ errs | Con_Wait _ _ errs
  | Con_Detach _ _ _ errs | Con_Put _ _ _ errs => errs
  | Con_Done _ => []
  end.

Definition thread_val (h : list ProducerMessage) (reps : list Report) (th : Thread) : Prop :=
  match th with
  | T_SendMessage m pc =>
      match pc with
      | SM_Detach _ v | SM_Put _ v | SM_Return v => reported_ok h reps m v
      | SM_Done p o err => done_ok reps m p o err
      | _ => True
      end
  | T_SendMessages msgs ix cl sub con =>
      let n := length msgs in
      let k0 := taken0 msgs ix sub in
      (∀ j m, j < con_received k0 n con → msgs !! j = Some m →
         m ∈ report_msg <$> reps)
      ∧ match con with
        | Con_Done ret => ret = aggregate (failures reps msgs)
        | _ => con_errs con = failures reps (take (con_collected k0 n con) msgs)
        end
      ∧ match con with
        | Con_Detach i _ v _ | Con_Put i _ v _ =>
            ∃ m, msgs !! i = Some m ∧ reported_ok h reps m v
        | _ => True
        end
  | T_Close _ => True
  end.

Definition val_inv (s : State) : Prop :=
  let h := heap s in
  let reps := reports (producer s) in
  (∀ m, m ∈ successes (producer s) → reported_ok h reps m None)
  ∧ (∀ e, e ∈ errors (producer s) → reported_ok h reps (Msg e) (Some e))
  ∧ match handleSuccesses s with
    | HS_Read m => reported_ok h reps m None
    | HS_Send (Some c) => ∀ m, exp_of h m = Some c → reported_ok h reps m None
    | _ => True
    end
  ∧ match handleErrors s with
    | HE_Read e => reported_ok h reps (Msg e) (Some e)
    | HE_Send (Some c) e => ∀ m, exp_of h m = Some c → reported_ok h reps m (Some e)
    | _ => True
    end
  ∧ (∀ c buf v m, slots s !! c = Some buf → v ∈ buf → exp_of h m = Some c →
       reported_ok h reps m v)
  ∧ (∀ t th, callers s !! t = Some th → thread_val h reps th).

(** ** The completion counter *)

Definition hs_active (pc : HS_pc) : nat :=
  match pc with HS_NotStarted | HS_Done => 0 | _ => 1 end.

Definition he_active (pc : HE_pc) : nat :=
  match pc with HE_NotStarted | HE_Done => 0 | _ => 1 end.

Definition close_ok (s : State) (pc : CL_pc) : Prop :=
  match pc with
  | CL_AsyncClose => True
  | CL_Wait => shutdown (producer s) = true
  | CL_Done err =>
      err = None ∧ shutdown (producer s) = true
      ∧ handleSuccesses s = HS_Done ∧ handleErrors s = HE_Done
  end.

(** The counter counts the routers that have not returned; a router returns
    only after its stream is closed and drained; the streams close only after
    [AsyncClose], when the engine holds no work. *)
Definition wg_inv (s : State) : Prop :=
  wg s = hs_active (handleSuccesses s) + he_active (handleErrors s)
  ∧ handleSuccesses s ≠ HS_NotStarted
  ∧ handleErrors s ≠ HE_NotStarted
  ∧ (handleSuccesses s = HS_Exit ∨ handleSuccesses s = HS_Done →
       closed (producer s) = true ∧ successes (producer s) = [])
  ∧ (handleErrors s = HE_Exit ∨ handleErrors s = HE_Done →
       closed (producer s) = true ∧ errors (producer s) = [])
  ∧ (closed (producer s) = true →
       shutdown (producer s) = true ∧ inflight (producer s) = [])
  ∧ (∀ t pc, callers s !! t = Some (T_Close pc) → close_ok s pc).
Definition close_inv (s : State) : Prop :=
  ∀ t pc, callers s !! t = Some (T_Close pc) → close_ok s pc.

Lemma close_ok_frame s s' pc :
  (shutdown (producer s) = true → shutdown (producer s') = true) →
  (handleSuccesses s = HS_Done → handleSuccesses s' = HS_Done) →
  (handleErrors s = HE_Done → handleErrors s' = HE_Done) →
  close_ok s pc → close_ok s' pc.
Proof.
  intros H1 H2 H3. destruct pc; simpl; [done|auto|].
  intros (? & ? & ? & ?). auto.
Qed.

Lemma close_upd s s' t th :
  close_inv s →
  callers s' = <[t:=th]> (callers s) →
  (shutdown (producer s) = true → shutdown (producer s') = true) →
  (handleSuccesses s = HS_Done → handleSuccesses s' = HS_Done) →
  (handleErrors s = HE_Done → handleErrors s' = HE_Done) →
  (∀ pc, th = T_Close pc → close_ok s' pc) →
  close_inv s'.
Proof.
  intros Hc E H1 H2 H3 Hth t' pc. rewrite E, list_lookup_insert.
  case_decide; [intros [= ->]; by apply Hth|].
  intros Ht'. eapply close_ok_frame; [done..|]. by eapply Hc.
Qed.

Lemma close_same s s' :
  close_inv s →
  callers s' = callers s →
  (shutdown (producer s) = true → shutdown (producer s') = true) →
  (handleSuccesses s = HS_Done → handleSuccesses s' = HS_Done) →
  (handleErrors s = HE_Done → handleErrors s' = HE_Done) →
  close_inv s'.
Proof.
  intros Hc E H1 H2 H3 t' pc. rewrite E.
  intros Ht'. eapply close_ok_frame; [done..|]. by eapply Hc.
Qed.

Lemma wg_step l s s' : astep l s s' → wg_inv s → wg_inv s'.
Proof.
  intros Hs (Hwg & Hhs & Hhe & Hsx & Hex & Hcl & Hclose).
  fold (close_inv s) in Hclose. unfold wg_inv. fold (close_inv s').
  split_and!.
  - destruct Hs; simpl in *; router_pc; simpl in *; lia.
  - destruct Hs; simpl in *; done.
  - destruct Hs; simpl in *; done.
  - destruct Hs; simpl in *; router_pc; try done;
      try (intros [|]; done).
    all: try (intros Hx; destruct (Hsx Hx); split; congruence).
    all: try (intros _; destruct (Hsx (or_introl eq_refl)); split; congruence).
  - destruct Hs; simpl in *; router_pc; try done;
      try (intros [|]; done).
    all: try (intros Hx; destruct (Hex Hx); split; congruence).
    all: try (intros _; destruct (Hex (or_introl eq_refl)); split; congruence).
  - destruct Hs; simpl in *; try done.
    all: try (intros Hc; destruct (Hcl Hc); congruence).
    + intros Hc; destruct (Hcl Hc). done.
  - destruct Hs.
    all: try (eapply (close_upd s); [done|done|simpl; try done..]; 
              try (intros ? [= <-]); simpl; try done; fail).
    all: try (eapply (close_same s); [done|done|simpl; router_pc; try done..]; fail).
    eapply (close_upd s); [done|done|simpl; try done..].
    intros ? [= <-]. simpl. pose proof (Hclose _ _ H) as Hsd. simpl in Hsd.
    split_and!; try done.
    + destruct (handleSuccesses s); simpl in *; try done; lia.
    + destruct (handleErrors s); simpl in *; try done; lia.
Qed.

Lemma awaits_sum_le cs m : NoDup (all_msgs cs) → sum_over (awaits m) cs ≤ 1.
Proof.
  intros HN. apply occ_NoDup with (x := m) in HN. unfold all_msgs in HN.
  rewrite occ_flat_map in HN.
  pose proof (sum_over_le (awaits m) (λ a, occ m (thread_msgs a)) cs
                (λ x _, awaits_le m x)). lia.
Qed.

Lemma pushedc_sum_le cs m : NoDup (all_msgs cs) → sum_over (pushedc m) cs ≤ 1.
Proof.
  intros HN. apply occ_NoDup with (x := m) in HN. unfold all_msgs in HN.
  rewrite occ_flat_map in HN.
  pose proof (sum_over_le (pushedc m) (λ a, occ m (thread_msgs a)) cs
                (λ x _, pushedc_le m x)). lia.
Qed.

Lemma rep_unique s m :
  uniq_inv s → rep_inv s →
  occ m (inflight (producer s)) + occ m (report_msg <$> reports (producer s)) ≤ 1.
Proof. intros HN Hrep. rewrite (Hrep m). by apply pushedc_sum_le. Qed.

Lemma reported_in h reps m v :
  reported_ok h reps m v → m ∈ report_msg <$> reps.
Proof.
  destruct v as [e|]; simpl.
  - intros [_ H]. by apply (list_elem_of_fmap_2 report_msg) in H.
  - intros (p & o & _ & H). by apply (list_elem_of_fmap_2 report_msg) in H.
Qed.

Lemma reported_not_inflight s m :
  uniq_inv s → rep_inv s →
  m ∈ report_msg <$> reports (producer s) → m ∉ inflight (producer s).
Proof.
  intros HN Hrep Hm%occ_elem Hi%occ_elem.
  pose proof (rep_unique s m HN Hrep). lia.
Qed.

Lemma ok_mono h h' reps reps' m v :
  fields_of h' m = fields_of h m → (∀ r, r ∈ reps → r ∈ reps') →
  reported_ok h reps m v → reported_ok h' reps' m v.
Proof.
  intros Hf Hr. destruct v as [e|]; simpl.
  - intros [? ?]. auto.
  - intros (p & o & ? & ?). exists p, o. rewrite Hf. auto.
Qed.

Lemma fields_of_insert_ne h m pm m' :
  m ≠ m' → fields_of (<[m:=pm]> h) m' = fields_of h m'.
Proof. intros. unfold fields_of. by rewrite list_lookup_insert_ne. Qed.

Lemma fields_of_insert_exp h m e pm m' :
  h !! m = Some pm →
  fields_of (<[m:=with_expectation e pm]> h) m' = fields_of h m'.
Proof.
  intros Hm. unfold fields_of. rewrite list_lookup_insert.
  case_decide as Hd; [|done]. destruct Hd as [<- _]. by rewrite Hm.
Qed.

Lemma fields_of_lookup h m pm :
  h !! m = Some pm → fields_of h m = Some (Partition pm, Offset pm).
Proof. unfold fields_of. by intros ->. Qed.

(** Reports are only ever added, and only about work the engine holds. *)
Lemma reports_step l s s' :
  astep l s s' →
  reports (producer s') = reports (producer s)
  ∨ ∃ r, reports (producer s') = reports (producer s) ++ [r]
         ∧ report_msg r ∈ inflight (producer s).
Proof.
  destruct 1; simpl; auto; right; eexists; (split; [done|]); simpl;
    by eapply list_elem_of_lookup_2.
Qed.

Lemma reports_step_incl l s s' r :
  astep l s s' → r ∈ reports (producer s) → r ∈ reports (producer s').
Proof.
  intros [->|(r' & -> & _)]%reports_step; [done|].
  intros. apply elem_of_app. by left.
Qed.

(** What has been established about a report stays true. *)
Lemma ok_step l s s' m v :
  astep l s s' → uniq_inv s → rep_inv s →
  reported_ok (heap s) (reports (producer s)) m v →
  reported_ok (heap s') (reports (producer s')) m v.
Proof.
  intros Hs HN Hrep Hok. eapply ok_mono; [|intros r; by eapply reports_step_incl|done].
  pose proof (reported_not_inflight s m HN Hrep (reported_in _ _ _ _ Hok)) as Hni.
  destruct Hs; simpl; try done; try (by eapply fields_of_insert_exp).
  apply fields_of_insert_ne. intros ->. apply Hni. by eapply list_elem_of_lookup_2.
Qed.

Lemma failure_of_app reps1 reps2 m :
  failure_of (reps1 ++ reps2) m =
  match failure_of reps1 m with
  | Some e => Some e
  | None => failure_of reps2 m
  end.
Proof.
  induction reps1 as [|[m' p o|m' c] reps1 IH]; simpl; [done|done|].
  by case_decide.
Qed.

Lemma failure_of_snoc_ne reps r m :
  report_msg r ≠ m → failure_of (reps ++ [r]) m = failure_of reps m.
Proof.
  intros Hne. rewrite failure_of_app. destruct (failure_of reps m); [done|].
  destruct r; simpl in *; [done|]. by case_decide.
Qed.

Lemma omap_ext_in {A B} (f g : A → option B) (l : list A) :
  (∀ x, x ∈ l → f x = g x) → omap f l = omap g l.
Proof.
  induction l as [|x l IH]; intros H; [done|].
  change (x :: l) with ([x] ++ l). rewrite !omap_app, IH.
  - simpl. by rewrite (H x) by left.
  - intros y ?. apply H. by right.
Qed.

Lemma failures_snoc_stable reps r ms :
  (∀ m, m ∈ ms → report_msg r ≠ m) →
  failures (reps ++ [r]) ms = failures reps ms.
Proof.
  intros H. apply omap_ext_in. intros m Hm. apply failure_of_snoc_ne. by apply H.
Qed.

Lemma failure_of_None reps m :
  m ∉ report_msg <$> reps → failure_of reps m = None.
Proof.
  induction reps as [|[m' p o|m' c] reps IH]; simpl; [done| |].
  - intros H. apply IH. intros ?. apply H. by right.
  - intros H. case_decide as Hd.
    + subst. exfalso. apply H. by left.
    + apply IH. intros ?. apply H. by right.
Qed.

Lemma ok_failure_of h reps m v :
  occ m (report_msg <$> reps) ≤ 1 →
  reported_ok h reps m v → failure_of reps m = v.
Proof.
  induction reps as [|r reps IH]; intros Hocc Hok.
  - apply reported_in in Hok. by apply elem_of_nil in Hok.
  - rewrite fmap_cons, occ_cons in Hocc.
    destruct (decide (report_msg r = m)) as [Hr|Hr].
    + assert (m ∉ report_msg <$> reps) as Hni.
      { apply occ_zero. unfold ind in Hocc. case_decide; [lia|done]. }
      destruct v as [e|]; simpl in Hok.
      * destruct Hok as [He Hin]. apply elem_of_cons in Hin as [<-|Hin].
        -- simpl. rewrite decide_True by done. destruct e; simpl in *. by subst.
        -- exfalso. apply Hni. by apply (list_elem_of_fmap_2 report_msg) in Hin.
      * destruct Hok as (p & o & _ & Hin). apply elem_of_cons in Hin as [<-|Hin].
        -- simpl. by apply failure_of_None.
        -- exfalso. apply Hni. by apply (list_elem_of_fmap_2 report_msg) in Hin.
    + assert (failure_of (r :: reps) m = failure_of reps m) as ->.
      { destruct r; simpl in *; [done|]. by case_decide. }
      apply IH.
      * unfold ind in Hocc. case_decide; [done|lia].
      * destruct v as [e|]; simpl in *.
        -- destruct Hok as [He Hin]. split; [done|].
           apply elem_of_cons in Hin as [<-|Hin]; [|done]. by simpl in Hr.
        -- destruct Hok as (p & o & Hf & Hin). exists p, o. split; [done|].
           apply elem_of_cons in Hin as [<-|Hin]; [|done]. by simpl in Hr.
Qed.

Lemma failures_take_S reps msgs i m :
  msgs !! i = Some m →
  failures reps (take (S i) msgs) =
  collect (failures reps (take i msgs)) (failure_of reps m).
Proof.
  intros Hi. unfold failures. rewrite (take_S_r msgs i m Hi), omap_app. simpl.
  destruct (failure_of reps m); simpl; [done|]. by rewrite app_nil_r.
Qed.

Lemma con_collected_received k0 n con : con_collected k0 n con ≤ con_received k0 n con.
Proof. destruct con; simpl; lia. Qed.

Lemma thread_val_frame l s s' th :
  astep l s s' → uniq_inv s → rep_inv s →
  thread_val (heap s) (reports (producer s)) th →
  thread_val (heap s') (reports (producer s')) th.
Proof.
  intros Hs HN Hrep. destruct th as [m pc|msgs ix cl sub con|pc]; simpl; [| |done].
  - destruct pc; try done; try (by eapply ok_step).
    destruct err; simpl.
    + intros (? & ? & ?). split_and!; try done. by eapply reports_step_incl.
    + by eapply reports_step_incl.
  - intros (H1 & H2 & H3).
    assert (∀ j m, j < con_received (taken0 msgs ix sub) (length msgs) con →
              msgs !! j = Some m → m ∈ report_msg <$> reports (producer s')) as H1'.
    { intros j m Hj Hm. specialize (H1 j m Hj Hm).
      destruct (reports_step _ _ _ Hs) as [->|(r & -> & _)]; [done|].
      rewrite fmap_app. apply elem_of_app. by left. }
    assert (∀ k, k ≤ con_received (taken0 msgs ix sub) (length msgs) con →
              failures (reports (producer s')) (take k msgs)
              = failures (reports (producer s)) (take k msgs)) as Hf.
    { intros k Hk. destruct (reports_step _ _ _ Hs) as [->|(r & -> & Hr)]; [done|].
      apply failures_snoc_stable. intros m (j & Hj)%list_elem_of_lookup_1 <-.
      apply lookup_take_Some in Hj as [Hj ?].
      eapply (reported_not_inflight s); [done..| |done].
      eapply H1; [|done]. lia. }
    split_and!; [done| |].
    + pose proof (con_collected_received (taken0 msgs ix sub) (length msgs) con).
      destruct con; simpl in *; try (by rewrite Hf).
      rewrite <- (firstn_all msgs), Hf by done. by rewrite firstn_all.
    + destruct con; try done; destruct H3 as (m & ? & ?); exists m;
        (split; [done|]); by eapply ok_step.
Qed.

Lemma val_threads_upd l s s' t th' :
  astep l s s' → uniq_inv s → rep_inv s →
  callers s' = <[t:=th']> (callers s) →
  (∀ t th, callers s !! t = Some th → thread_val (heap s) (reports (producer s)) th) →
  thread_val (heap s') (reports (producer s')) th' →
  ∀ t0 th0, callers s' !! t0 = Some th0 → thread_val (heap s') (reports (producer s')) th0.
Proof.
  intros Hs HN Hrep E Hv Hth t0 th0. rewrite E, list_lookup_insert.
  case_decide; [by intros [= <-]|]. intros Ht0.
  eapply thread_val_frame; [done..|]. by eapply Hv.
Qed.

Lemma val_threads_same l s s' :
  astep l s s' → uniq_inv s → rep_inv s →
  callers s' = callers s →
  (∀ t th, callers s !! t = Some th → thread_val (heap s) (reports (producer s)) th) →
  ∀ t0 th0, callers s' !! t0 = Some th0 → thread_val (heap s') (reports (producer s')) th0.
Proof.
  intros Hs HN Hrep E Hv t0 th0. rewrite E. intros Ht0.
  eapply thread_val_frame; [done..|]. by eapply Hv.
Qed.

(** A step attaches a channel to a message only when nothing is on its way
    to that channel. *)
Lemma exp_step l s s' m c :
  astep l s s' → thr_inv_on (heap s) (callers s) → own_inv s → del_inv s →
  exp_of (heap s') m = Some c →
  exp_of (heap s) m = Some c
  ∨ hs_to c (handleSuccesses s) + he_to c (handleErrors s)
    + length (default [] (slots s !! c)) = 0.
Proof.
  intros Hs Hinv Hown Hdel. destruct Hs; simpl; auto.
  all: rewrite exp_of_insert; case_decide as Hd; auto; destruct Hd as [<- _]; simpl.
  all: try done.
  - intros [= <-]. right. eapply (held_no_delivery' s t); [done..|].
    simpl. unfold ind. rewrite decide_True by done. lia.
  - intros [= <-]. right. eapply (held_no_delivery' s t); [done..|].
    simpl. unfold ind. rewrite decide_True by done. lia.
  - intros Hc. left. unfold exp_of. by rewrite H0.
Qed.

(** A value in a channel was there before the step or was just sent by a
    router. *)
Lemma slot_step l s s' c buf' v :
  astep l s s' → slots s' !! c = Some buf' → v ∈ buf' →
  (∃ buf, slots s !! c = Some buf ∧ v ∈ buf)
  ∨ (v = None ∧ handleSuccesses s = HS_Send (Some c))
  ∨ (∃ e, v = Some e ∧ handleErrors s = HE_Send (Some c) e).
Proof.
  intros Hs. destruct Hs; simpl; eauto.
  - intros Hc Hv. left. destruct (decide (c < length (slots s))).
    + rewrite lookup_app_l in Hc by done. eauto.
    + rewrite lookup_app_r in Hc by lia.
      destruct (c - length (slots s)) as [|[|?]]; simplify_eq/=.
      by apply elem_of_nil in Hv.
  - rewrite list_lookup_insert. case_decide as Hd; [|eauto].
    destruct Hd as [<- _]. intros [= <-] Hv. left. exists (v0 :: rest).
    split; [done|]. by right.
  - intros Hc Hv. left. destruct (decide (c < length (slots s))).
    + rewrite lookup_app_l in Hc by done. eauto.
    + rewrite lookup_app_r in Hc by lia.
      destruct (c - length (slots s)) as [|[|?]]; simplify_eq/=.
      by apply elem_of_nil in Hv.
  - rewrite list_lookup_insert. case_decide as Hd; [|eauto].
    destruct Hd as [<- _]. intros [= <-] Hv. left. exists (v0 :: rest).
    split; [done|]. by right.
  - rewrite list_lookup_insert. case_decide as Hd; [|eauto].
    destruct Hd as [<- _]. intros [= <-] [Hv|Hv]%elem_of_app; [eauto|].
    apply list_elem_of_singleton in Hv. eauto.
  - rewrite list_lookup_insert. case_decide as Hd; [|eauto].
    destruct Hd as [<- _]. intros [= <-] [Hv|Hv]%elem_of_app; [eauto|].
    apply list_elem_of_singleton in Hv. eauto 10.
Qed.

Local Arguments reported_ok : simpl never.

Lemma val_step l s s' :
  astep l s s' → uniq_inv s → thr_inv_on (heap s) (callers s) → own_inv s →
  tok_inv s → del_inv s → rep_inv s → val_inv s → val_inv s'.
Proof.
  intros Hs HN Hinv Hown Htok Hdel Hrep (V1 & V2 & V3 & V4 & V5 & V6).
  pose proof (λ m v, ok_step _ _ _ m v Hs HN Hrep) as Hstep.
  pose proof (λ t th', val_threads_upd _ _ _ t th' Hs HN Hrep) as Hupd.
  pose proof (val_threads_same _ _ _ Hs HN Hrep) as Hsame.
  unfold val_inv. split_and!.
  - (* the success stream *)
    intros m Hm. destruct Hs; simpl in *; try (apply Hstep, V1; done).
    + apply V1. rewrite H0. by right.
    + apply elem_of_app in Hm as [Hm|Hm]; [by apply Hstep, V1|].
      apply list_elem_of_singleton in Hm as ->.
      exists (Partition pm), (Offset pm). split; [by apply fields_of_lookup|].
      apply elem_of_app. right. by left.
  - (* the error stream *)
    intros e He. destruct Hs; simpl in *; try (apply Hstep, V2; done).
    + apply V2. rewrite H0. by right.
    + apply elem_of_app in He as [He|He]; [by apply Hstep, V2|].
      apply list_elem_of_singleton in He as ->.
      split; [done|]. apply elem_of_app. right. by left.
  - (* handleSuccesses *)
    assert (handleSuccesses s' = handleSuccesses s →
            match handleSuccesses s' with
            | HS_Read m => reported_ok (heap s') (reports (producer s')) m None
            | HS_Send (Some c) => ∀ m, exp_of (heap s') m = Some c →
                reported_ok (heap s') (reports (producer s')) m None
            | _ => True
            end) as Hframe.
    { intros ->. destruct (handleSuccesses s) as [| | |[c0|]| |] eqn:Hhs; try done.
      - by apply Hstep.
      - intros m Hm. destruct (exp_step _ _ _ _ _ Hs Hinv Hown Hdel Hm) as [Hm'|Hz].
        + by apply Hstep, V3.
        + rewrite Hhs in Hz. simpl in Hz. unfold ind in Hz.
          case_decide; [lia|done]. }
    destruct Hs; try (by apply Hframe); simpl in *; router_pc; try done.
    + apply V1. rewrite H0. by left.
    + destruct (hs_read_attached s msg pm Hinv Htok H H0) as (c & -> & Hc).
      intros m Hm. by rewrite (att_unique s c m msg Hown Hm Hc).
  - (* handleErrors *)
    assert (handleErrors s' = handleErrors s →
            match handleErrors s' with
            | HE_Read e => reported_ok (heap s') (reports (producer s')) (Msg e) (Some e)
            | HE_Send (Some c) e => ∀ m, exp_of (heap s') m = Some c →
                reported_ok (heap s') (reports (producer s')) m (Some e)
            | _ => True
            end) as Hframe.
    { intros ->. destruct (handleErrors s) as [| | |[c0|] e0| |] eqn:Hhe; try done.
      - by apply Hstep.
      - intros m Hm. destruct (exp_step _ _ _ _ _ Hs Hinv Hown Hdel Hm) as [Hm'|Hz].
        + by apply Hstep, V4.
        + rewrite Hhe in Hz. simpl in Hz. unfold ind in Hz.
          case_decide; [lia|done]. }
    destruct Hs; try (by apply Hframe); simpl in *; router_pc; try done.
    + apply V2. rewrite H0. by left.
    + destruct (he_read_attached s err pm Hinv Htok H H0) as (c & -> & Hc).
      intros m Hm. by rewrite (att_unique s c m (Msg err) Hown Hm Hc).
  - (* the channels *)
    intros c0 buf0 v0 m0 Hc0 Hv0 Hm0.
    destruct (exp_step _ _ _ _ _ Hs Hinv Hown Hdel Hm0) as [Hm'|Hz];
      destruct (slot_step _ _ _ _ _ _ Hs Hc0 Hv0)
        as [(buf & Hbuf & Hv)|[[-> Hhs]|(e & -> & Hhe)]].
    + apply Hstep. by eapply V5.
    + apply Hstep. rewrite Hhs in V3. by apply V3.
    + apply Hstep. rewrite Hhe in V4. by apply V4.
    + rewrite Hbuf in Hz. simpl in Hz. destruct buf; [by apply elem_of_nil in Hv|].
      simpl in Hz. lia.
    + rewrite Hhs in Hz. simpl in Hz. unfold ind in Hz. case_decide; [lia|done].
    + rewrite Hhe in Hz. simpl in Hz. unfold ind in Hz. case_decide; [lia|done].
  - (* the callers *)
    destruct Hs.
    all: try (eapply Hsame; done).
    all: (eapply Hupd; [done|done|]).
    all: try match goal with H : callers _ !! _ = Some _ |- _ =>
           pose proof (V6 _ _ H) as Hv; thread_facts H end; simpl in *; try done.
    all: try (by apply Hstep).
    + (* SendMessage receives *)
      eapply V5; [done| |done]. by left.
    + (* SendMessage returns an error *)
      by destruct Hv.
    + (* SendMessage returns partition and offset *)
      destruct Hv as (p & o & Hf & Hin).
      rewrite (fields_of_lookup _ _ _ H0) in Hf. by injection Hf as -> ->.
    + (* the goroutine attaches *)
      destruct Hv as (H1' & H2' & H3'). unfold taken0 in *. simpl in *.
      split_and!; try done. destruct con; try done;
        destruct H3' as (m & ? & ?); exists m; (split; [done|]); by apply Hstep.
    + (* the goroutine sends an index *)
      destruct Hv as (H1' & H2' & H3'). destruct Hok as (Hr & Hlen & _).
      unfold taken0 in *. rewrite sub_range_sent, length_app by done. simpl in *.
      replace (S i - (length ix + 1)) with (i - length ix) by lia. done.
    + (* the caller takes an index *)
      destruct Hv as (H1' & H2' & H3'). destruct Hok as (Hr & Hlen & Htk & Hix & _).
      unfold taken0 in *. simpl in *.
      apply seq_cons_inv in Hix as (Hi & _). rewrite <- Hi in *. done.
    + (* the caller leaves the loop *)
      destruct Hv as (H1' & H2' & H3'). destruct Hok as (Hr & Hlen & Htk & Hix & Hcl & _).
      assert (sub = Sub_Exit) as -> by (by apply Hcl). unfold taken0 in *. simpl in *.
      rewrite Nat.sub_0_r in *. split_and!; try done.
      rewrite H2'. by rewrite firstn_all.
    + (* the caller receives *)
      destruct Hv as (H1' & H2' & H3'). destruct Hatt as (_ & _ & m & c' & Hm & [= <-] & Hc).
      assert (reported_ok (heap s) (reports (producer s)) m v) as Hm'.
      { eapply V5; [done| |done]. by left. }
      unfold taken0 in *. simpl in *. split_and!; try done; [|by exists m].
      intros j m' Hj Hm''. destruct (decide (j = i)) as [->|].
      * assert (m' = m) as -> by congruence. by eapply reported_in.
      * eapply H1'; [|done]. lia.
    + (* the caller detaches *)
      destruct Hv as (H1' & H2' & H3'). unfold taken0 in *. simpl in *.
      split_and!; try done. destruct H3' as (m & ? & ?). exists m.
      split; [done|]. by apply Hstep.
    + (* the caller releases and collects *)
      destruct Hv as (H1' & H2' & m & Hm & Hm'). destruct Hok as (Hr & Hlen & Htk & Hix & _).
      assert (length ix = sub_sent (length msgs) sub - S i) as Hl.
      { rewrite Hix at 1. apply length_seq. }
      unfold taken0 in *. simpl in *.
      replace (sub_sent (length msgs) sub - length ix) with (S i) by lia.
      split_and!; try done.
      rewrite (failures_take_S _ _ _ _ Hm), <- H2'. f_equal. symmetry.
      eapply ok_failure_of; [|done].
      pose proof (rep_unique s m HN Hrep). lia.
Qed.

(** * Reachable states *)

Definition call_msgs (c : Call) : list ptr :=
  match c with
  | CallSendMessage m => [m]
  | CallSendMessages msgs => msgs
  | CallClose => []
  end.

(** The calls in flight work on pairwise distinct messages (§9 of the
    specification leaves the submission of one message twice undefined), and
    no message carries a channel before it is submitted ([expectation] is
    unexported and nil until [SendMessage] sets it). *)
Definition valid_init (h : list ProducerMessage) (calls : list Call) : Prop :=
  NoDup (flat_map call_msgs calls)
  ∧ Forall (λ pm, expectation pm = None) h.

Definition reachable (h : list ProducerMessage) (calls : list Call) (s : State) : Prop :=
  ∃ ls, run ls (init h calls) = Some s.

Definition Inv (s : State) : Prop :=
  uniq_inv s ∧ thr_inv_on (heap s) (callers s) ∧ own_inv s ∧ tok_inv s
  ∧ del_inv s ∧ rep_inv s ∧ val_inv s ∧ wg_inv s.

Lemma Inv_step l s s' : astep l s s' → Inv s → Inv s'.
Proof.
  intros Hs (HN & Hthr & Hown & Htok & Hdel & Hrep & Hval & Hwg).
  split_and!.
  - by eapply uniq_step.
  - by eapply thr_step.
  - by eapply own_step.
  - by eapply tok_step.
  - by eapply del_step.
  - by eapply rep_step.
  - by eapply val_step.
  - by eapply wg_step.
Qed.

Lemma Inv_run ls s s' : run ls s = Some s' → Inv s → Inv s'.
Proof.
  revert s. induction ls as [|l ls IH]; intros s; simpl.
  - by intros [= ->].
  - destruct (step l s) as [s1|] eqn:Hs; simpl; [|done].
    intros Hr Hi. apply (IH s1 Hr). eapply Inv_step; [|done]. by apply step_astep.
Qed.

Lemma all_msgs_start calls : all_msgs (start <$> calls) = flat_map call_msgs calls.
Proof.
  induction calls as [|c calls IH]; [done|].
  rewrite fmap_cons. simpl. unfold all_msgs in *. simpl. rewrite IH. by destruct c.
Qed.

Lemma exp_of_fresh h m : Forall (λ pm, expectation pm = None) h → exp_of h m = None.
Proof.
  intros Hh. unfold exp_of. destruct (h !! m) as [pm|] eqn:Hm; [|done].
  simpl. by eapply (Forall_lookup_1 _ _ _ _ Hh).
Qed.

Lemma start_pushed msgs : sub_pushed (length msgs) (sub_range msgs 0) = 0.
Proof. unfold sub_range. case_decide; simpl; lia. Qed.

Lemma start_attached msgs : sub_attached (length msgs) (sub_range msgs 0) = 0.
Proof. unfold sub_range. case_decide; simpl; lia. Qed.

Lemma start_sent msgs : sub_sent (length msgs) (sub_range msgs 0) = 0.
Proof. unfold sub_range. case_decide; simpl; lia. Qed.

Lemma Inv_init h calls : valid_init h calls → Inv (init h calls).
Proof.
  intros [HN Hh]. unfold init, blank, newSyncProducerFromAsyncProducer. simpl.
  assert (∀ f : Thread → nat, (∀ c, f (start c) = 0) → sum_over f (start <$> calls) = 0) as Hz.
  { intros f Hf. apply sum_over_zero. intros x (c & -> & _)%list_elem_of_fmap_1. apply Hf. }
  assert (∀ c, sum_over (att c) h = 0) as Hza.
  { intros c. apply sum_over_zero. intros pm Hpm. unfold att, ind.
    rewrite decide_False; [done|]. rewrite list.Forall_forall in Hh. by rewrite (Hh pm Hpm). }
  split_and!.
  - unfold uniq_inv. simpl. by rewrite all_msgs_start.
  - intros t th. simpl. rewrite list_lookup_fmap.
    destruct (calls !! t) as [c|]; simpl; [|done]. intros [= <-].
    destruct c as [m|msgs|]; simpl; [split; [done|]; by apply exp_of_fresh| |done].
    unfold taken0. rewrite start_sent, start_attached. simpl. split.
    + split_and!; try done.
      * unfold sub_range. by case_decide.
      * split; [done|]. unfold sub_range. by case_decide.
    + split_and!; try done.
      * intros j m _. case_decide; [lia|]. by apply exp_of_fresh.
      * unfold sub_range. by case_decide.
  - intros c. simpl. rewrite Hza, Hz; [done|]. intros [m|msgs|]; simpl; try done.
    unfold sub_range. by case_decide.
  - intros m. unfold deliveries_msg. simpl. rewrite exp_of_fresh by done.
    rewrite Hz; [done|]. intros [m'|msgs|]; simpl; try done.
    rewrite start_pushed. by rewrite seg_empty by lia.
  - unfold del_inv, deliveries, buffer. simpl. split_and!; try done. intros c. lia.
  - intros m. simpl. rewrite Hz; [done|]. intros [m'|msgs|]; simpl; try done.
    by rewrite start_pushed.
  - unfold val_inv. simpl. split_and!; try done.
    + intros m Hm. by apply elem_of_nil in Hm.
    + intros e He. by apply elem_of_nil in He.
    + intros t th. rewrite list_lookup_fmap.
      destruct (calls !! t) as [c|]; simpl; [|done]. intros [= <-].
      destruct c as [m|msgs|]; simpl; try done.
      unfold taken0. rewrite start_sent. simpl. split_and!; try done. intros; lia.
  - unfold wg_inv. simpl. split_and!; try done.
    + by intros [|].
    + by intros [|].
    + intros t pc. rewrite list_lookup_fmap.
      destruct (calls !! t) as [c|]; simpl; [|done]. intros [= Hc].
      destruct c; simplify_eq/=. done.
Qed.

Theorem Inv_reachable h calls s :
  valid_init h calls → reachable h calls s → Inv s.
Proof.
  intros Hv [ls Hr]. eapply Inv_run; [done|]. by apply Inv_init.
Qed.

(** * Progress *)

(** The work left for caller [t], counted in steps: the statements of the
    caller itself, and what the engine and the routers have to do. *)
Definition hs_rem (pc : HS_pc) : nat :=
  match pc with
  | HS_NotStarted | HS_Done => 0
  | HS_Exit => 1
  | HS_Range => 2
  | HS_Send _ => 3
  | HS_Read _ => 4
  end.

Definition he_rem (pc : HE_pc) : nat :=
  match pc with
  | HE_NotStarted | HE_Done => 0
  | HE_Exit => 1
  | HE_Range => 2
  | HE_Send _ _ => 3
  | HE_Read _ => 4
  end.

Definition sm_rem (pc : SM_pc) : nat :=
  match pc with
  | SM_Get => 11
  | SM_Attach _ => 10
  | SM_Push _ => 9
  | SM_Wait _ => 4
  | SM_Detach _ _ => 3
  | SM_Put _ _ => 2
  | SM_Return _ => 1
  | SM_Done _ _ _ => 0
  end.

Definition sub_rem (n : nat) (pc : Sub_pc) : nat :=
  match pc with
  | Sub_Get i => 8 * (n - i) + 1
  | Sub_Attach i _ => 8 * (n - i)
  | Sub_Push i _ => 8 * (n - i) - 1
  | Sub_Index i => 8 * (n - i) - 6
  | Sub_Close => 1
  | Sub_Exit => 0
  end.

Definition con_rem (n k0 : nat) (pc : Con_pc) : nat :=
  match pc with
  | Con_Range _ => 5 * (n - k0) + 1
  | Con_Read i _ => 5 * (n - i)
  | Con_Wait i _ _ => 5 * (n - i) - 1
  | Con_Detach i _ _ _ => 5 * (n - i) - 2
  | Con_Put i _ _ _ => 5 * (n - i) - 3
  | Con_Done _ => 0
  end.

Definition thread_rem (th : Thread) : nat :=
  match th with
  | T_SendMessage _ pc => sm_rem pc
  | T_SendMessages msgs ix cl sub con =>
      sub_rem (length msgs) sub + con_rem (length msgs) (taken0 msgs ix sub) con
  | T_Close _ => 0
  end.

Definition work (t : nat) (s : State) : nat :=
  3 * length (successes (producer s)) + hs_rem (handleSuccesses s)
  + 3 * length (errors (producer s)) + he_rem (handleErrors s)
  + 4 * length (inflight (producer s))
  + default 0 (thread_rem <$> callers s !! t).

Definition finished (th : Thread) : Prop :=
  match th with
  | T_SendMessage _ (SM_Done _ _ _) => True
  | T_SendMessages _ _ _ _ (Con_Done _) => True
  | T_Close (CL_Done _) => True
  | _ => False
  end.

Definition is_send (th : Thread) : Prop :=
  match th with T_Close _ => False | _ => True end.

(** The engine decides the fate of a message: [None] to succeed, a cause to
    fail. *)
Definition follows (fate : ptr → option error) (t : nat) (s : State) (l : Label) : Prop :=
  match l with
  | L_call t' _ | L_go t' _ => t' = t
  | L_handleSuccesses | L_handleErrors => True
  | L_succeed k => ∃ m, inflight (producer s) !! k = Some m ∧ fate m = None
  | L_fail k cause => ∃ m, inflight (producer s) !! k = Some m ∧ fate m = Some cause
  | _ => False
  end.

(** Nothing is with the engine, on a stream or with a router. *)
Definition idle (s : State) : Prop :=
  inflight (producer s) = [] ∧ successes (producer s) = []
  ∧ errors (producer s) = []
  ∧ (∀ m, hs_holds m (handleSuccesses s) = 0)
  ∧ (∀ m, he_holds m (handleErrors s) = 0)
  ∧ (∀ c, hs_to c (handleSuccesses s) = 0)
  ∧ (∀ c, he_to c (handleErrors s) = 0).

Lemma exp_of_valid h m : is_Some (exp_of h m) → is_Some (h !! m).
Proof. unfold exp_of. destruct (h !! m); [by eexists|]. by intros [? ?]. Qed.

Lemma awaited_valid s m :
  Inv s →
  0 < occ m (inflight (producer s)) + occ m (successes (producer s))
      + occ m (Msg <$> errors (producer s))
      + hs_holds m (handleSuccesses s) + he_holds m (handleErrors s) →
  is_Some (heap s !! m).
Proof.
  intros (HN & Hthr & Hown & Htok & Hdel & Hrep & Hval & Hwg) Hpos.
  apply exp_of_valid. eapply awaited_attached; [done|]. specialize (Htok m). lia.
Qed.

(** A router is never blocked on its send: the channel it sends into is
    empty. *)
Lemma send_enabled s c :
  Inv s →
  0 < hs_to c (handleSuccesses s) + he_to c (handleErrors s) →
  slots s !! c = Some [].
Proof.
  intros (HN & Hthr & Hown & Htok & Hdel & Hrep & Hval & Hwg) Hpos.
  destruct Hdel as (Hd & _). specialize (Hd c).
  assert (0 < sum_over (att c) (heap s)) as Hatt by (apply Hd; unfold deliveries; lia).
  destruct (att_pos_inv _ _ Hatt) as [m Hm].
  pose proof (Htok m) as Hm'. unfold deliveries_msg, deliveries, buffer in Hm'.
  rewrite Hm in Hm'. pose proof (awaits_sum_le (callers s) m HN).
  specialize (Hown c). unfold ind in Hown. case_decide as Hlt; [|lia].
  apply lookup_lt_is_Some in Hlt as [buf Hbuf]. rewrite Hbuf in Hm'. simpl in Hm'.
  destruct buf; [done|]. simpl in Hm'. lia.
Qed.

Ltac work_tac :=
  unfold work; simpl;
  repeat match goal with
  | H : ?x = _ |- context [?x] => rewrite H
  end; simpl; rewrite ?length_app; simpl; try lia.

Lemma routers_step fate t s :
  Inv s →
  idle s ∨ ∃ l s', step l s = Some s' ∧ work t s' < work t s ∧ follows fate t s l
                   ∧ callers s' = callers s.
Proof.
  intros HI. pose proof HI as (HN & Hthr & Hown & Htok & Hdel & Hrep & Hval & Hwg).
  destruct Hwg as (Hwg & Hhs & Hhe & Hsx & Hex & Hcl & Hclose).
  destruct Hdel as (Hd & Hds & Hde).
  (* handleSuccesses *)
  destruct (handleSuccesses s) as [| |m|[c|]| |] eqn:Es; try done.
  2: { (* reads *) right.
       destruct (awaited_valid s m HI) as [pm Hpm].
       { rewrite Es. simpl. unfold ind. rewrite decide_True by done. lia. }
       eexists _, _. split; [apply astep_step; by eapply a_hs_read|].
       split_and!; [work_tac|done|done]. }
  2: { (* sends *) right.
       pose proof (send_enabled s c HI) as Hc. rewrite Es in Hc. simpl in Hc.
       unfold ind in Hc. rewrite decide_True in Hc by done. specialize (Hc ltac:(lia)).
       eexists _, _. split; [apply astep_step; eapply a_hs_send; [done|done|]|].
       { simpl. unfold slot_capacity. lia. }
       split_and!; [work_tac|done|done]. }
  1: destruct (successes (producer s)) as [|m rest] eqn:Eq.
  2: { right. eexists _, _. split; [apply astep_step; by eapply a_hs_take|].
       split_and!; [work_tac|done|done]. }
  all: assert (successes (producer s) = []) as Eq' by (first [done | apply Hsx; auto]).
  all: clear Hsx.
  (* handleErrors *)
  all: destruct (handleErrors s) as [| |e|[c|] e| |] eqn:Ee; try done.
  all: try (exfalso; by eapply Hde).
  all: try (right; destruct (awaited_valid s (Msg e) HI) as [pm Hpm];
       [ rewrite Ee; simpl; unfold ind; rewrite decide_True by done; lia
       | eexists _, _; split; [apply astep_step; by eapply a_he_read|];
         split_and!; [work_tac|done|done] ]).
  all: try (right;
       pose proof (send_enabled s c HI) as Hc; rewrite Ee in Hc; simpl in Hc;
       unfold ind in Hc; rewrite decide_True in Hc by done; specialize (Hc ltac:(lia));
       eexists _, _; split; [apply astep_step; eapply a_he_send; [done|done|];
                             simpl; unfold slot_capacity; lia|];
       split_and!; [work_tac|done|done]).
  all: try (destruct (errors (producer s)) as [|e rest] eqn:Eqe;
       [| right; eexists _, _; split; [apply astep_step; by eapply a_he_take|];
          split_and!; [work_tac|done|done] ]).
  all: assert (errors (producer s) = []) as Eqe' by (first [done | apply Hex; auto]).
  all: clear Hex.
  (* the engine *)
  all: destruct (inflight (producer s)) as [|m rest] eqn:Ei;
    [ left; unfold idle; rewrite Es, Ee; by split_and! |].
  all: right.
  all: assert (closed (producer s) = false) as Hncl
         by (destruct (closed (producer s)) eqn:Ec; [by destruct (Hcl eq_refl)|done]).
  all: destruct (awaited_valid s m HI) as [pm Hpm];
       [ rewrite Ei, occ_cons; unfold ind; rewrite decide_True by done; lia |].
  all: destruct (fate m) as [cause|] eqn:Ef.
  all: try (exists (L_fail 0 cause); eexists; split;
            [apply astep_step; eapply a_fail; [done|by rewrite Ei]|];
            split_and!; [work_tac| exists m; by rewrite Ei |done]).
  all: try (exists (L_succeed 0); eexists; split;
            [apply astep_step; eapply a_succeed; [done|by rewrite Ei|done]|];
            split_and!; [work_tac| exists m; by rewrite Ei |done]).
Qed.

(** A call can make progress when the engine accepts its messages and they
    point to messages, or when the engine has already reported on all of
    them. *)
Definition ready (s : State) (th : Thread) : Prop :=
  (shutdown (producer s) = false
   ∧ ∀ m, m ∈ thread_msgs th → is_Some (heap s !! m))
  ∨ (∀ m, m ∈ thread_msgs th → m ∈ report_msg <$> reports (producer s)).

Lemma idle_slot s t th m c :
  Inv s → idle s → callers s !! t = Some th → m ∈ thread_msgs th →
  0 < awaits m th → exp_of (heap s) m = Some c →
  ∃ v rest, slots s !! c = Some (v :: rest).
Proof.
  intros (HN & Hthr & Hown & Htok & Hdel & Hrep & Hval & Hwg)
    (Hi & Hs & He & Hhs & Hhe & Hts & Hte) Ht Hm Ha Hc.
  specialize (Htok m). rewrite (awaits_own _ _ _ _ HN Ht Hm) in Htok.
  unfold deliveries_msg, deliveries, buffer in Htok.
  rewrite Hc, Hi, Hs, He, Hhs, Hhe, Hts, Hte in Htok. simpl in Htok.
  destruct (slots s !! c) as [[|v rest]|]; simpl in Htok; try lia. eauto.
Qed.

Lemma occ_take_before x i l : NoDup l → l !! i = Some x → occ x (take i l) = 0.
Proof.
  intros HND Hi. apply occ_zero. intros (j & Hj)%list_elem_of_lookup_1.
  apply lookup_take_Some in Hj as [Hj ?].
  pose proof (NoDup_lookup l i j x HND Hi Hj). lia.
Qed.

(** A message that was reported was pushed by its caller. *)
Lemma reported_pushed s t th m :
  Inv s → callers s !! t = Some th → m ∈ thread_msgs th →
  m ∈ report_msg <$> reports (producer s) → pushedc m th = 1.
Proof.
  intros (HN & Hthr & Hown & Htok & Hdel & Hrep & Hval & Hwg) Ht Hm Hr%occ_elem.
  pose proof (Hrep m) as Hp. rewrite (pushedc_own _ _ _ _ HN Ht Hm) in Hp.
  pose proof (pushedc_sum_le (callers s) m HN) as Hle.
  rewrite (pushedc_own _ _ _ _ HN Ht Hm) in Hle. lia.
Qed.

Ltac upd_work H :=
  unfold work; simpl;
  rewrite list_lookup_insert_eq by (by eapply lookup_lt_Some);
  rewrite H; simpl; unfold taken0; cbn [sub_sent]; rewrite ?length_app; simpl length;
  try lia.

Ltac call_with t rule :=
  exists (L_call t None); eexists; split; [apply astep_step; eapply rule; done|].
Ltac go_with t rule :=
  exists (L_go t None); eexists; split; [apply astep_step; eapply rule; done|].

Lemma thread_step_idle fate t s th :
  Inv s → idle s → callers s !! t = Some th → is_send th → ¬ finished th →
  ready s th →
  ∃ l s', step l s = Some s' ∧ work t s' < work t s ∧ follows fate t s l
          ∧ ∃ th', callers s' = <[t:=th']> (callers s)
                   ∧ thread_msgs th' = thread_msgs th ∧ is_send th'
                   ∧ reports (producer s') = reports (producer s)
                   ∧ shutdown (producer s') = shutdown (producer s)
                   ∧ length (heap s') = length (heap s).
Proof.
  intros HI Hidle Ht Hsend Hnf Hready.
  pose proof HI as (HN & Hthr & Hown & Htok & Hdel & Hrep & Hval & Hwg).
  destruct (Hthr _ _ Ht) as [Hok Hatt].
  pose proof (msgs_NoDup _ _ _ HN Ht) as HND.
  destruct Hval as (_ & _ & _ & _ & _ & V6). specialize (V6 _ _ Ht).
  destruct th as [msg pc|msgs ix cl sub con|pc]; simpl in *; [| |done].
  - (* SendMessage *)
    assert (pushedc msg (T_SendMessage msg pc) = 0 →
            shutdown (producer s) = false ∧ is_Some (heap s !! msg)) as Hpre.
    { intros Hz. destruct Hready as [[? Hv]|Hr].
      - split; [done|]. apply Hv. by left.
      - pose proof (reported_pushed s t _ msg HI Ht ltac:(by left)
                      (Hr msg ltac:(by left))). lia. }
    destruct pc; simpl in *; try done.
    + call_with t a_sm_get_new. split_and!; [upd_work Ht|done|]. eauto 10.
    + destruct Hpre as [_ [pm Hpm]]; [done|].
      call_with t a_sm_attach. split_and!; [upd_work Ht|done|].
      eexists. split_and!; try done. simpl. by rewrite length_insert.
    + destruct Hpre as [Hsd _]; [done|].
      call_with t a_sm_push. split_and!; [upd_work Ht|done|]. eauto 10.
    + destruct (idle_slot s t _ msg c HI Hidle Ht) as (v & rest & Hc); try done.
      { by left. } { simpl. unfold ind. rewrite decide_True by done. lia. }
      call_with t a_sm_wait. split_and!; [upd_work Ht|done|]. eauto 10.
    + apply exp_of_Some in Hatt as (pm & Hpm & _).
      call_with t a_sm_detach. split_and!; [upd_work Ht|done|].
      eexists. split_and!; try done. simpl. by rewrite length_insert.
    + call_with t a_sm_put. split_and!; [upd_work Ht|done|]. eauto 10.
    + destruct pErr as [e|].
      * call_with t a_sm_return_err. split_and!; [upd_work Ht|done|]. eauto 10.
      * destruct V6 as (p & o & Hf & _). unfold fields_of in Hf.
        destruct (heap s !! msg) as [pm|] eqn:Hpm; [|done].
        call_with t a_sm_return_ok. split_and!; [upd_work Ht|done|]. eauto 10.
  - (* SendMessages *)
    destruct Hok as (Hr & Hlen & Htk & Hix & Hcl & Hdone).
    destruct Hatt as (Hrange & Hsub & Hcon). unfold taken0 in *.
    assert (∀ i m, msgs !! i = Some m → sub_pushed (length msgs) sub ≤ i →
            shutdown (producer s) = false ∧ is_Some (heap s !! m)) as Hpre.
    { intros i m Hm Hi. destruct Hready as [[? Hv]|Hrd].
      - split; [done|]. apply Hv. by eapply list_elem_of_lookup_2.
      - pose proof (reported_pushed s t _ m HI Ht
                      ltac:(by eapply list_elem_of_lookup_2)
                      (Hrd m ltac:(by eapply list_elem_of_lookup_2))) as Hp.
        simpl in Hp.
        assert (occ m (take (sub_pushed (length msgs) sub) msgs) = 0); [|lia].
        apply occ_zero. intros (j & Hj)%list_elem_of_lookup_1.
        apply lookup_take_Some in Hj as [Hj ?].
        pose proof (NoDup_lookup msgs i j m HND Hm Hj). lia. }
    destruct sub; simpl in *.
    + go_with t a_sub_get_new. split_and!; [upd_work Ht|done|]. eauto 10.
    + destruct (lookup_lt_is_Some_2 msgs i Hr) as [msg Hmsg].
      destruct (Hpre i msg Hmsg ltac:(done)) as [_ [pm Hpm]].
      go_with t a_sub_attach. split_and!; [upd_work Ht|done|].
      eexists. split_and!; try done. simpl. by rewrite length_insert.
    + destruct Hsub as (msg & Hmsg & _).
      destruct (Hpre i msg Hmsg ltac:(done)) as [Hsd _].
      go_with t a_sub_push. split_and!; [upd_work Ht|done|]. eauto 10.
    + exists (L_go t None). eexists. split; [apply astep_step; eapply a_sub_index; [done|lia]|].
      split_and!; [|done|eauto 10].
      unfold work; simpl.
      rewrite list_lookup_insert_eq by (by eapply lookup_lt_Some).
      rewrite Ht. simpl. unfold taken0. rewrite sub_range_sent, length_app by done.
      cbn [sub_sent]. simpl length.
      destruct (sub_range_cases msgs (S i)) as [E|E]; rewrite E; simpl.
      * assert (S i < length msgs).
        { unfold sub_range in E. by case_decide. }
        destruct con; simpl in *; lia.
      * destruct con; simpl in *; lia.
    + go_with t a_sub_close. split_and!; [upd_work Ht|done|]. eauto 10.
    + (* the goroutine has exited: the caller moves *)
      assert (cl = true) as -> by (by apply Hcl).
      destruct con; simpl in *; try done.
      * destruct ix as [|i rest].
        -- call_with t a_con_exit. split_and!; [upd_work Ht|done|]. eauto 10.
        -- apply seq_cons_inv in Hix as (Hi & _ & _). simpl in *.
           call_with t a_con_take. split_and!; [upd_work Ht|done|]. eauto 10.
      * destruct (lookup_lt_is_Some_2 msgs i ltac:(lia)) as [msg Hmsg].
        pose proof (Hrange i msg Hmsg) as Hv. case_decide; [|lia].
        apply exp_of_valid in Hv as [pm Hpm].
        call_with t a_con_read. split_and!; [upd_work Ht|done|]. eauto 10.
      * destruct Hcon as (m & c & Hm & -> & Hc).
        destruct (idle_slot s t _ m c HI Hidle Ht) as (v & rest & Hs); try done.
        { by eapply list_elem_of_lookup_2. }
        { simpl. unfold taken0. simpl.
          rewrite (occ_seg_cons m i _ msgs m) by (done || lia).
          unfold ind. rewrite decide_True by done. lia. }
        call_with t a_con_wait. split_and!; [upd_work Ht|done|]. eauto 10.
      * destruct Hcon as (m & Hm & Hc). apply exp_of_Some in Hc as (pm & Hpm & _).
        call_with t a_con_detach. split_and!; [upd_work Ht|done|].
        eexists. split_and!; try done. simpl. by rewrite length_insert.
      * assert (length ix = length msgs - S i) as Hl.
        { rewrite Hix at 1. apply length_seq. }
        call_with t a_con_put. split_and!; [upd_work Ht|done|]. eauto 10.
Qed.

(** The call a thread executes. *)
Definition thread_call (th : Thread) : Call :=
  match th with
  | T_SendMessage m _ => CallSendMessage m
  | T_SendMessages msgs _ _ _ _ => CallSendMessages msgs
  | T_Close _ => CallClose
  end.

Lemma calls_insert (cs : list Thread) (t : nat) th th' :
  cs !! t = Some th → thread_call th' = thread_call th →
  thread_call <$> <[t:=th']> cs = thread_call <$> cs.
Proof.
  intros Ht E. rewrite list_fmap_insert, E.
  apply list_insert_id. by rewrite list_lookup_fmap, Ht.
Qed.

Lemma calls_step l s s' :
  astep l s s' → thread_call <$> callers s' = thread_call <$> callers s.
Proof. destruct 1; simpl; try done; by erewrite calls_insert. Qed.

Lemma calls_run ls s s' :
  run ls s = Some s' → thread_call <$> callers s' = thread_call <$> callers s.
Proof.
  revert s. induction ls as [|l ls IH]; intros s; simpl; [by intros [= ->]|].
  destruct (step l s) as [s1|] eqn:Hs; simpl; [|done].
  intros Hr. rewrite (IH _ Hr). eapply calls_step. by apply step_astep.
Qed.

Lemma calls_init h calls : thread_call <$> callers (init h calls) = calls.
Proof.
  simpl. rewrite <- list_fmap_compose. rewrite <- (list_fmap_id calls) at 2.
  apply list_fmap_ext. by intros ? [].
Qed.

Lemma calls_reachable h calls s :
  reachable h calls s → thread_call <$> callers s = calls.
Proof. intros [ls Hr]. rewrite (calls_run _ _ _ Hr). apply calls_init. Qed.

Lemma thread_of_call (cs cs' : list Thread) (t : nat) th :
  thread_call <$> cs' = thread_call <$> cs → cs !! t = Some th →
  ∃ th', cs' !! t = Some th' ∧ thread_call th' = thread_call th.
Proof.
  intros E Ht. assert ((thread_call <$> cs') !! t = Some (thread_call th)) as H.
  { by rewrite E, list_lookup_fmap, Ht. }
  rewrite list_lookup_fmap in H. destruct (cs' !! t) as [th'|]; [|done].
  exists th'. split; [done|]. by injection H.
Qed.

Lemma thread_call_msgs th th' :
  thread_call th' = thread_call th → thread_msgs th' = thread_msgs th.
Proof. destruct th, th'; simpl; congruence. Qed.

Lemma thread_call_send th th' :
  thread_call th' = thread_call th → is_send th → is_send th'.
Proof. by destruct th, th'. Qed.

Lemma heap_length_step l s s' : astep l s s' → length (heap s') = length (heap s).
Proof. destruct 1; simpl; try done; by rewrite length_insert. Qed.

Definition fated (fate : ptr → option error) (r : Report) : Prop :=
  match r with
  | Succeeded m _ _ => fate m = None
  | Failed m cause => fate m = Some cause
  end.

Lemma follows_reports fate t l s s' :
  astep l s s' → follows fate t s l →
  ∃ new, reports (producer s') = reports (producer s) ++ new
         ∧ Forall (fated fate) new.
Proof.
  destruct 1; simpl; try (intros _; exists []; by rewrite app_nil_r); try done.
  - intros (m & Hm & Hf). eexists. split; [done|].
    repeat constructor. simpl. congruence.
  - intros (m & Hm & Hf). eexists. split; [done|].
    repeat constructor. simpl. congruence.
Qed.

Lemma follows_shutdown fate t l s s' th :
  astep l s s' → follows fate t s l → callers s !! t = Some th → is_send th →
  shutdown (producer s') = shutdown (producer s).
Proof.
  destruct 1; simpl; try done. intros -> Ht. rewrite H in Ht. by injection Ht as <-.
Qed.

Lemma ready_step fate t l s s' th th' :
  astep l s s' → follows fate t s l → callers s !! t = Some th → is_send th →
  thread_msgs th' = thread_msgs th →
  ready s th → ready s' th'.
Proof.
  intros Hs Hf Ht Hsend E [[Hsd Hv]|Hr]; [left|right]; rewrite E.
  - split; [by rewrite (follows_shutdown _ _ _ _ _ _ Hs Hf Ht Hsend)|].
    intros m Hm. apply lookup_lt_is_Some. rewrite (heap_length_step _ _ _ Hs).
    apply lookup_lt_is_Some. by apply Hv.
  - intros m Hm. specialize (Hr m Hm).
    destruct (reports_step _ _ _ Hs) as [->|(r & -> & _)]; [done|].
    rewrite fmap_app. apply elem_of_app. by left.
Qed.

#[global] Instance finished_dec th : Decision (finished th).
Proof. destruct th as [? []|? ? ? ? []|[]]; simpl; apply _. Defined.

(** Every call that is [ready] comes to its end: there is a run, of the caller,
    the routers and the engine alone, in which the engine gives every message
    it still holds the fate asked for, and after which the call has
    returned. *)
Lemma progress fate t n : ∀ s th,
  work t s ≤ n → Inv s → callers s !! t = Some th → is_send th → ready s th →
  ∃ ls s' th' new,
    run ls s = Some s' ∧ callers s' !! t = Some th' ∧ finished th'
    ∧ thread_call th' = thread_call th
    ∧ reports (producer s') = reports (producer s) ++ new
    ∧ Forall (fated fate) new.
Proof.
  induction n as [|n IH]; intros s th Hw HI Ht Hsend Hready.
  all: destruct (decide (finished th)) as [Hfin|Hnf];
    [exists [], s, th, []; split_and!; try done; by rewrite app_nil_r|].
  all: assert (∃ l s', step l s = Some s' ∧ work t s' < work t s
                 ∧ follows fate t s l) as (l & s1 & Hstep & Hlt & Hfol).
  1,3: destruct (routers_step fate t s HI) as [Hidle|(l & s1 & ? & ? & ? & _)];
       [|by eauto];
       destruct (thread_step_idle fate t s th HI Hidle Ht Hsend Hnf Hready)
         as (l & s1 & ? & ? & ? & _); by eauto.
  - lia.
  - pose proof (step_astep _ _ _ Hstep) as Ha.
    destruct (thread_of_call _ _ _ _ (calls_step _ _ _ Ha) Ht) as (th1 & Ht1 & E1).
    destruct (IH s1 th1) as (ls & s' & th' & new & Hrun & Ht' & Hfin & E' & Hrep & Hnew).
    + lia.
    + by eapply Inv_step.
    + done.
    + by eapply thread_call_send.
    + eapply ready_step; try done. by apply thread_call_msgs.
    + destruct (follows_reports _ _ _ _ _ Ha Hfol) as (new1 & Hrep1 & Hnew1).
      exists (l :: ls), s', th', (new1 ++ new). split_and!; try done.
      * simpl. by rewrite Hstep.
      * congruence.
      * by rewrite Hrep, Hrep1, app_assoc.
      * by apply Forall_app.
Qed.

(** * Properties of the producer *)

#[global] Instance Report_eq_dec : EqDecision Report.
Proof. solve_decision. Defined.

#[global] Instance valid_init_dec h calls : Decision (valid_init h calls).
Proof. unfold valid_init. apply _. Defined.

(** What [SendMessage] returns for a report. *)
Definition outcome (r : Report) : Z * Z * option error :=
  match r with
  | Succeeded _ p o => (p, o, None)
  | Failed _ cause => ((-1)%Z, (-1)%Z, Some cause)
  end.

Lemma run_app ls1 ls2 s s1 s2 :
  run ls1 s = Some s1 → run ls2 s1 = Some s2 → run (ls1 ++ ls2) s = Some s2.
Proof.
  revert s. induction ls1 as [|l ls1 IH]; intros s; simpl; [by intros [= ->]|].
  destruct (step l s) as [s'|]; simpl; [|done]. apply IH.
Qed.

Lemma reachable_run h calls ls s s' :
  reachable h calls s → run ls s = Some s' → reachable h calls s'.
Proof. intros [ls0 H0] H. exists (ls0 ++ ls). by eapply run_app. Qed.

Lemma reports_run_incl ls s s' r :
  run ls s = Some s' → r ∈ reports (producer s) → r ∈ reports (producer s').
Proof.
  revert s. induction ls as [|l ls IH]; intros s; simpl; [by intros [= ->]|].
  destruct (step l s) as [s1|] eqn:Hs; simpl; [|done]. intros Hr Hin.
  apply (IH _ Hr). eapply reports_step_incl; [|done]. by apply step_astep.
Qed.

Lemma report_unique reps m r1 r2 :
  occ m (report_msg <$> reps) ≤ 1 →
  r1 ∈ reps → r2 ∈ reps → report_msg r1 = m → report_msg r2 = m → r1 = r2.
Proof.
  intros Hocc (i & Hi)%list_elem_of_lookup_1 (j & Hj)%list_elem_of_lookup_1 H1 H2.
  destruct (decide (i = j)) as [->|Hne]; [congruence|exfalso].
  pose proof (sum_over_two (λ y, ind (y = m)) (report_msg <$> reps) i j
                (report_msg r1) (report_msg r2) Hne) as Hs.
  rewrite !list_lookup_fmap, Hi, Hj in Hs. specialize (Hs eq_refl eq_refl).
  simpl in Hs. rewrite H1, H2 in Hs. unfold occ in Hocc.
  assert (ind (m = m) = 1) as E by (unfold ind; by rewrite decide_True).
  rewrite E in Hs. lia.
Qed.

Lemma Inv_report_unique s m r1 r2 :
  Inv s → r1 ∈ reports (producer s) → r2 ∈ reports (producer s) →
  report_msg r1 = m → report_msg r2 = m → r1 = r2.
Proof.
  intros (HN & _ & _ & _ & _ & Hrep & _) ? ? ? ?.
  eapply report_unique; try done. pose proof (rep_unique s m HN Hrep). lia.
Qed.

Lemma thread_at h calls s t c :
  reachable h calls s → calls !! t = Some c →
  ∃ th, callers s !! t = Some th ∧ thread_call th = c.
Proof.
  intros Hr Hc. apply calls_reachable in Hr.
  assert ((thread_call <$> callers s) !! t = Some c) as H by (by rewrite Hr).
  rewrite list_lookup_fmap in H. destruct (callers s !! t) as [th|]; [|done].
  exists th. split; [done|]. by injection H.
Qed.

(** A [SendMessage] that has returned has returned what the engine reported
    about its own message. *)
Lemma send_result_ok s t msg p o err r :
  Inv s → callers s !! t = Some (T_SendMessage msg (SM_Done p o err)) →
  r ∈ reports (producer s) → report_msg r = msg → outcome r = (p, o, err).
Proof.
  intros HI Ht Hr Hm. pose proof HI as (_ & _ & _ & _ & _ & _ & Hval & _).
  destruct Hval as (_ & _ & _ & _ & _ & V6). specialize (V6 _ _ Ht). simpl in V6.
  destruct err as [cause|]; simpl in V6.
  - destruct V6 as (-> & -> & Hin).
    by rewrite (Inv_report_unique s msg r (Failed msg cause) HI Hr Hin Hm eq_refl).
  - by rewrite (Inv_report_unique s msg r (Succeeded msg p o) HI Hr V6 Hm eq_refl).
Qed.

(** Once the engine has reported on its message, [SendMessage] returns, by
    steps of the routers and of the caller alone. *)
Lemma send_returns s t msg pc r :
  Inv s → callers s !! t = Some (T_SendMessage msg pc) →
  r ∈ reports (producer s) → report_msg r = msg →
  ∃ ls s' p o err, run ls s = Some s'
    ∧ callers s' !! t = Some (T_SendMessage msg (SM_Done p o err))
    ∧ outcome r = (p, o, err).
Proof.
  intros HI Ht Hr Hm.
  destruct (progress (λ _, None) t (work t s) s _ (le_n _) HI Ht I)
    as (ls & s' & th' & new & Hrun & Ht' & Hfin & Hcall & Hrep & _).
  { right. intros m [->|Hin]%elem_of_cons; [|by apply elem_of_nil in Hin].
    rewrite <- Hm. by apply list_elem_of_fmap_2. }
  destruct th' as [m' [| | | | | | |p o err]| |]; try done.
  simpl in Hcall. injection Hcall as ->.
  exists ls, s', p, o, err. split_and!; try done.
  eapply send_result_ok; [by eapply Inv_run| done | by eapply reports_run_incl | done].
Qed.

(** C1. For every message that the engine reports as succeeded, SendMessage
    returns the partition and offset that the engine assigned to the message
    and a nil error: in every state the system reaches afterwards in which the
    call has returned, it has returned these; and the call does return, by
    steps of the routers and of the caller alone. *)
Theorem SendMessage_success h calls s t msg p o :
  valid_init h calls → reachable h calls s →
  calls !! t = Some (CallSendMessage msg) →
  Succeeded msg p o ∈ reports (producer s) →
  (∀ ls s' p' o' err,
     run ls s = Some s' →
     callers s' !! t = Some (T_SendMessage msg (SM_Done p' o' err)) →
     p' = p ∧ o' = o ∧ err = None)
  ∧ (∃ ls s',
       run ls s = Some s'
       ∧ callers s' !! t = Some (T_SendMessage msg (SM_Done p o None))).
Proof.
  intros Hv Hr Hc Hin. pose proof (Inv_reachable _ _ _ Hv Hr) as HI. split.
  - intros ls s' p' o' err Hrun Ht.
    pose proof (send_result_ok s' t msg p' o' err (Succeeded msg p o)
                  (Inv_run _ _ _ Hrun HI) Ht (reports_run_incl _ _ _ _ Hrun Hin) eq_refl)
      as Ho.
    simpl in Ho. by injection Ho as <- <- <-.
  - destruct (thread_at _ _ _ _ _ Hr Hc) as (th & Ht & Hcall).
    destruct th as [m pc| |]; try done. simpl in Hcall. injection Hcall as ->.
    destruct (send_returns s t msg pc _ HI Ht Hin eq_refl)
      as (ls & s' & p' & o' & err & Hrun & Ht' & Ho).
    simpl in Ho. injection Ho as <- <- <-. by exists ls, s'.
Qed.

(** ** A message that succeeds *)

Definition fresh_msg : ProducerMessage := mkProducerMessage 0 0 None.

(** One caller sends message 0; the engine assigns partition 3 and offset 42
    and reports success; nothing has been routed yet. *)
Definition one_send : list Call := [CallSendMessage 0].

Definition until_success : list Label :=
  [L_call 0 None; L_call 0 None; L_call 0 None; L_assign 0 3 42; L_succeed 0].

Definition after_success : State :=
  default (init [fresh_msg] one_send) (run until_success (init [fresh_msg] one_send)).

Ltac by_computation := refine (bool_decide_unpack _ _); vm_compute; exact I.

Lemma SendMessage_success_witness :
  ∃ ls s', run ls after_success = Some s'
           ∧ callers s' !! 0 = Some (T_SendMessage 0 (SM_Done 3 42 None)).
Proof.
  apply (SendMessage_success [fresh_msg] one_send after_success 0 0 3 42).
  - by_computation.
  - exists until_success. vm_compute. reflexivity.
  - reflexivity.
  - by_computation.
Defined.

(** C2. For every message that the engine reports as failed, SendMessage
    returns the sentinel partition and offset -1, -1 and the cause that the
    engine reported, as it is ([cause] is any error value; nothing is read
    from it); the message is not handed to the engine again (no retry); and
    the call does return, by steps of the routers and of the caller alone. *)
Theorem SendMessage_failure h calls s t msg cause :
  valid_init h calls → reachable h calls s →
  calls !! t = Some (CallSendMessage msg) →
  Failed msg cause ∈ reports (producer s) →
  (∀ ls s' p' o' err,
     run ls s = Some s' →
     callers s' !! t = Some (T_SendMessage msg (SM_Done p' o' err)) →
     p' = (-1)%Z ∧ o' = (-1)%Z ∧ err = Some cause)
  ∧ (∀ ls s', run ls s = Some s' → msg ∉ inflight (producer s'))
  ∧ (∃ ls s',
       run ls s = Some s'
       ∧ callers s' !! t =
           Some (T_SendMessage msg (SM_Done (-1) (-1) (Some cause)))).
Proof.
  intros Hv Hr Hc Hin. pose proof (Inv_reachable _ _ _ Hv Hr) as HI. split_and!.
  - intros ls s' p' o' err Hrun Ht.
    pose proof (send_result_ok s' t msg p' o' err (Failed msg cause)
                  (Inv_run _ _ _ Hrun HI) Ht (reports_run_incl _ _ _ _ Hrun Hin) eq_refl)
      as Ho.
    simpl in Ho. by injection Ho as <- <- <-.
  - intros ls s' Hrun.
    pose proof (Inv_run _ _ _ Hrun HI) as (HN & _ & _ & _ & _ & Hrep & _).
    apply (reported_not_inflight s' msg HN Hrep).
    exact (list_elem_of_fmap_2 report_msg _ _ (reports_run_incl _ _ _ _ Hrun Hin)).
  - destruct (thread_at _ _ _ _ _ Hr Hc) as (th & Ht & Hcall).
    destruct th as [m pc| |]; try done. simpl in Hcall. injection Hcall as ->.
    destruct (send_returns s t msg pc _ HI Ht Hin eq_refl)
      as (ls & s' & p' & o' & err & Hrun & Ht' & Ho).
    simpl in Ho. injection Ho as <- <- <-. by exists ls, s'.
Qed.

(** ** A message that fails *)

(** One caller sends message 0; the engine fails it at once. *)
Definition until_failure : list Label :=
  [L_call 0 None; L_call 0 None; L_call 0 None;
   L_fail 0 (Cause "leader not available")].

Definition after_failure : State :=
  default (init [fresh_msg] one_send) (run until_failure (init [fresh_msg] one_send)).

Lemma SendMessage_failure_witness :
  ∃ ls s', run ls after_failure = Some s'
           ∧ callers s' !! 0 =
               Some (T_SendMessage 0
                       (SM_Done (-1) (-1) (Some (Cause "leader not available")))).
Proof.
  apply (SendMessage_failure [fresh_msg] one_send after_failure 0 0
           (Cause "leader not available")).
  - by_computation.
  - exists until_failure. vm_compute. reflexivity.
  - reflexivity.
  - by_computation.
Defined.

(** C8. When two or more callers invoke SendMessage at the same time on
    distinct messages, each caller that returns has the result of the report on
    its own message; every report reaches its caller (the call returns with
    it); no message is reported twice; and a value buffered in a channel is
    the report on the message that the channel is attached to, so no result
    is delivered to the channel of another caller. *)
Theorem SendMessage_no_cross_delivery h msgs s :
  2 ≤ length msgs →
  valid_init h (CallSendMessage <$> msgs) →
  reachable h (CallSendMessage <$> msgs) s →
  (∀ t m, msgs !! t = Some m →
     (∀ p o err,
        callers s !! t = Some (T_SendMessage m (SM_Done p o err)) →
        ∃ r, r ∈ reports (producer s) ∧ report_msg r = m ∧ outcome r = (p, o, err))
     ∧ (∀ r, r ∈ reports (producer s) → report_msg r = m →
        ∃ ls s' p o err,
          run ls s = Some s'
          ∧ callers s' !! t = Some (T_SendMessage m (SM_Done p o err))
          ∧ outcome r = (p, o, err)))
  ∧ NoDup (report_msg <$> reports (producer s))
  ∧ (∀ c buf, slots s !! c = Some buf → length buf ≤ slot_capacity)
  ∧ (∀ c buf v m,
       slots s !! c = Some buf → v ∈ buf → exp_of (heap s) m = Some c →
       reported_ok (heap s) (reports (producer s)) m v).
Proof.
  intros Hlen Hv Hr. pose proof (Inv_reachable _ _ _ Hv Hr) as HI.
  pose proof HI as (HN & Hthr & Hown & Htok & Hdel & Hrep & Hval & Hwg).
  split_and!.
  - intros t m Hm.
    assert ((CallSendMessage <$> msgs) !! t = Some (CallSendMessage m)) as Hc.
    { by rewrite list_lookup_fmap, Hm. }
    destruct (thread_at _ _ _ _ _ Hr Hc) as (th & Ht & Hcall).
    destruct th as [m' pc| |]; try done. simpl in Hcall. injection Hcall as ->.
    split.
    + intros p o err Ht'. rewrite Ht in Ht'. injection Ht' as ->.
      destruct Hval as (_ & _ & _ & _ & _ & V6). specialize (V6 _ _ Ht). simpl in V6.
      destruct err as [cause|]; simpl in V6.
      * destruct V6 as (-> & -> & Hin). by exists (Failed m cause).
      * by exists (Succeeded m p o).
    + intros r Hin Hrm. by eapply send_returns.
  - apply occ_NoDup. intros m. pose proof (rep_unique s m HN Hrep). lia.
  - intros c buf Hc. unfold slot_capacity.
    destruct buf as [|v buf]; simpl; [lia|].
    destruct (decide (0 < sum_over (att c) (heap s))) as [Hatt|Hn].
    + destruct (att_pos_inv _ _ Hatt) as [m Hm].
      pose proof (Htok m) as Hm'. unfold deliveries_msg, deliveries, buffer in Hm'.
      rewrite Hm, Hc in Hm'. simpl in Hm'.
      pose proof (awaits_sum_le (callers s) m HN). lia.
    + destruct Hdel as (Hd & _). specialize (Hd c). unfold deliveries, buffer in Hd.
      rewrite Hc in Hd. simpl in Hd. lia.
  - by destruct Hval as (_ & _ & _ & _ & V5 & _).
Qed.

(** ** Two callers *)

(** Two callers send messages 0 and 1; the engine fails 1 and then lets 0
    succeed; the routers have not run yet. *)
Definition two_sends : list ptr := [0; 1].

Definition until_both_reported : list Label :=
  [L_call 0 None; L_call 1 None; L_call 0 None; L_call 1 None;
   L_call 1 None; L_call 0 None;
   L_fail 0 (Cause "leader not available"); L_assign 0 7 9; L_succeed 0].

Definition after_both_reported : State :=
  default (init [fresh_msg; fresh_msg] (CallSendMessage <$> two_sends))
    (run until_both_reported
       (init [fresh_msg; fresh_msg] (CallSendMessage <$> two_sends))).

Lemma SendMessage_no_cross_delivery_witness :
  NoDup (report_msg <$> reports (producer after_both_reported)).
Proof.
  apply (SendMessage_no_cross_delivery [fresh_msg; fresh_msg] two_sends
           after_both_reported).
  - vm_compute. lia.
  - by_computation.
  - exists until_both_reported. vm_compute. reflexivity.
Defined.

(** A member of a batch failed when the engine reported a failure for it. *)
Definition failed (reps : list Report) (m : ptr) : Prop :=
  is_Some (failure_of reps m).

Lemma failure_of_Some reps m e :
  failure_of reps m = Some e → Msg e = m ∧ Failed m (Err e) ∈ reps.
Proof.
  induction reps as [|[m' p o|m' c] reps IH]; simpl; [done| |].
  - intros H. destruct (IH H). split; [done|]. by right.
  - case_decide as Hd.
    + intros [= <-]. subst. split; [done|]. by left.
    + intros H. destruct (IH H). split; [done|]. by right.
Qed.

Lemma failed_iff reps m : failed reps m ↔ ∃ cause, Failed m cause ∈ reps.
Proof.
  split.
  - intros [e He]. apply failure_of_Some in He as [_ He]. eauto.
  - intros [cause Hin]. unfold failed.
    destruct (failure_of reps m) eqn:E; [done|exfalso].
    induction reps as [|[m' p o|m' c] reps IH]; simpl in E.
    + by apply elem_of_nil in Hin.
    + apply elem_of_cons in Hin as [?|?]; [done|]. by apply IH.
    + case_decide as Hd; [done|].
      apply elem_of_cons in Hin as [[= -> ->]|?]; [done|]. by apply IH.
Qed.

Lemma failures_msgs reps (msgs : list ptr) :
  Msg <$> failures reps msgs = filter (failed reps) msgs.
Proof.
  unfold failures, failed. induction msgs as [|m msgs IH]; [done|].
  rewrite filter_cons. simpl. rewrite <- IH.
  destruct (failure_of reps m) as [e|] eqn:E; simpl.
  - by apply failure_of_Some in E as [-> _].
  - done.
Qed.

Lemma failures_in reps msgs e :
  e ∈ failures reps msgs → Msg e ∈ msgs ∧ Failed (Msg e) (Err e) ∈ reps.
Proof.
  unfold failures. intros (m & Hm & He)%list_elem_of_omap.
  apply failure_of_Some in He as [-> ?]. done.
Qed.

Lemma aggregate_cases errs :
  (length errs = 0 → aggregate errs = None)
  ∧ (0 < length errs → aggregate errs = Some errs).
Proof. unfold aggregate. case_decide; split; intros; try done; lia. Qed.

(** A batch that has returned: every member was reported, and the result is
    the aggregate of the failures reported. *)
Lemma batch_done s t msgs ix cl sub ret :
  Inv s → callers s !! t = Some (T_SendMessages msgs ix cl sub (Con_Done ret)) →
  (∀ m, m ∈ msgs → m ∈ report_msg <$> reports (producer s))
  ∧ ret = aggregate (failures (reports (producer s)) msgs).
Proof.
  intros (_ & _ & _ & _ & _ & _ & Hval & _) Ht.
  destruct Hval as (_ & _ & _ & _ & _ & V6). destruct (V6 _ _ Ht) as (H1 & H2 & _).
  simpl in *. split; [|done].
  intros m (j & Hj)%list_elem_of_lookup_1. eapply H1; [|done]. by eapply lookup_lt_Some.
Qed.

Lemma fated_failure_of fate reps m :
  Forall (fated fate) reps → m ∈ report_msg <$> reps →
  failure_of reps m = mkProducerError m <$> fate m.
Proof.
  induction reps as [|r reps IH]; intros Hf Hin; [by apply elem_of_nil in Hin|].
  apply list.Forall_cons in Hf as [Hr Hf]. rewrite fmap_cons in Hin.
  destruct (decide (m ∈ report_msg <$> reps)) as [Hm|Hm].
  - specialize (IH Hf Hm). destruct r as [m' p o|m' c]; simpl in *; [done|].
    case_decide; [|done]. subst. by rewrite Hr.
  - apply elem_of_cons in Hin as [->|?]; [|done].
    destruct r as [m' p o|m' c]; simpl in *.
    + rewrite Hr. by apply failure_of_None.
    + rewrite decide_True by done. by rewrite Hr.
Qed.

Lemma heap_length_run ls s s' :
  run ls s = Some s' → length (heap s') = length (heap s).
Proof.
  revert s. induction ls as [|l ls IH]; intros s; simpl; [by intros [= ->]|].
  destruct (step l s) as [s1|] eqn:Hs; simpl; [|done]. intros Hr.
  rewrite (IH _ Hr). eapply heap_length_step. by apply step_astep.
Qed.

Lemma heap_length_reachable h calls s :
  reachable h calls s → length (heap s) = length h.
Proof. intros [ls Hr]. by rewrite (heap_length_run _ _ _ Hr). Qed.

(** C3. For every batch of N messages of which the engine fails exactly K,
    SendMessages returns nil when K = 0 and, when K > 0, an aggregate error
    that lists exactly K produce errors: one for each failed member, in the
    order of the batch, each with the cause the engine reported, and none for
    a member that succeeded.  And the call returns, whatever members the
    engine fails: for every fate of the members not yet reported there is a
    run in which the engine reports these fates and the call returns. *)
Theorem SendMessages_aggregate h calls s t msgs :
  valid_init h calls → reachable h calls s →
  calls !! t = Some (CallSendMessages msgs) →
  (∀ ix cl sub ret,
     callers s !! t = Some (T_SendMessages msgs ix cl sub (Con_Done ret)) →
     let reps := reports (producer s) in
     let K := length (filter (failed reps) msgs) in
     (∀ m, m ∈ msgs → m ∈ report_msg <$> reps)
     ∧ (K = 0 → ret = None)
     ∧ (0 < K →
        ∃ errs, ret = Some errs ∧ length errs = K
                ∧ Msg <$> errs = filter (failed reps) msgs
                ∧ ∀ e, e ∈ errs → Failed (Msg e) (Err e) ∈ reps))
  ∧ (shutdown (producer s) = false → (∀ m, m ∈ msgs → m < length h) →
     ∀ fate : ptr → option error,
     ∃ ls s' ix cl sub ret,
       run ls s = Some s'
       ∧ callers s' !! t = Some (T_SendMessages msgs ix cl sub (Con_Done ret))
       ∧ ∀ m, m ∈ msgs → m ∉ report_msg <$> reports (producer s) →
           failure_of (reports (producer s')) m = mkProducerError m <$> fate m).
Proof.
  intros Hv Hr Hc. pose proof (Inv_reachable _ _ _ Hv Hr) as HI. split.
  - intros ix cl sub ret Ht reps K.
    destruct (batch_done _ _ _ _ _ _ _ HI Ht) as [Hall ->]. fold reps.
    assert (length (failures reps msgs) = K) as HK.
    { unfold K. by rewrite <- failures_msgs, length_fmap. }
    destruct (aggregate_cases (failures reps msgs)) as [H0 H1].
    split_and!; [done|intros; apply H0; lia|].
    intros HK'. exists (failures reps msgs). split_and!.
    + apply H1. lia.
    + done.
    + apply failures_msgs.
    + intros e He. by apply failures_in in He as [_ ?].
  - intros Hsd Hvalid fate.
    destruct (thread_at _ _ _ _ _ Hr Hc) as (th & Ht & Hcall).
    destruct th as [|msgs' ix cl sub con|]; try done.
    simpl in Hcall. injection Hcall as ->.
    destruct (progress fate t (work t s) s _ (le_n _) HI Ht I)
      as (ls & s' & th' & new & Hrun & Ht' & Hfin & Hcall & Hrep & Hnew).
    { left. split; [done|]. intros m Hm. apply lookup_lt_is_Some.
      rewrite (heap_length_reachable _ _ _ Hr). by apply Hvalid. }
    destruct th' as [|msgs' ix' cl' sub' [| | | | |ret]|]; try done.
    simpl in Hcall. injection Hcall as ->.
    exists ls, s', ix', cl', sub', ret. split_and!; try done.
    intros m Hm Hnot.
    destruct (batch_done _ _ _ _ _ _ _ (Inv_run _ _ _ Hrun HI) Ht') as [Hall _].
    specialize (Hall m Hm). rewrite Hrep. rewrite Hrep, fmap_app in Hall.
    apply elem_of_app in Hall as [?|Hin]; [done|].
    rewrite failure_of_app, (failure_of_None _ _ Hnot).
    by apply fated_failure_of.
Qed.

(** ** A batch of three *)

(** The batch [A; B; C] of §8: the engine reports C, then fails B with
    `leader not available', then reports A. *)
Definition three_fresh : list ProducerMessage := [fresh_msg; fresh_msg; fresh_msg].

Definition one_batch : list Call := [CallSendMessages [0; 1; 2]].

Definition leader_not_available : error := Cause "leader not available".

Definition only_B_fails (m : ptr) : option error :=
  if decide (m = 1) then Some leader_not_available else None.

Definition submit_all : list Label := replicate 13 (L_go 0 None).

Definition C_then_B : list Label :=
  [L_succeed 2; L_fail 1 leader_not_available;
   L_handleSuccesses; L_handleSuccesses; L_handleSuccesses;
   L_handleErrors; L_handleErrors; L_handleErrors;
   L_call 0 None; L_call 0 None].

Definition then_A : list Label :=
  [L_succeed 0; L_handleSuccesses; L_handleSuccesses; L_handleSuccesses].

Definition drain_all : list Label := replicate 14 (L_call 0 None).

Lemma SendMessages_aggregate_witness :
  ∃ ls s' ix cl sub ret,
    run ls (init three_fresh one_batch) = Some s'
    ∧ callers s' !! 0 = Some (T_SendMessages [0; 1; 2] ix cl sub (Con_Done ret))
    ∧ ∀ m, m ∈ [0; 1; 2] →
        m ∉ report_msg <$> reports (producer (init three_fresh one_batch)) →
        failure_of (reports (producer s')) m = mkProducerError m <$> only_B_fails m.
Proof.
  refine (proj2 (SendMessages_aggregate three_fresh one_batch
                   (init three_fresh one_batch) 0 [0; 1; 2] _ _ _) _ _ only_B_fails).
  - by_computation.
  - exists []. reflexivity.
  - reflexivity.
  - reflexivity.
  - intros m Hm. simpl. rewrite !elem_of_cons in Hm.
    destruct Hm as [->|[->|[->|Hm]]]; [lia..|by apply elem_of_nil in Hm].
Defined.

(** The scenario of §8 replayed on the model: the aggregate holds B's failure
    only. *)
Example SendMessages_scenario :
  ∃ s ix cl sub,
    run (submit_all ++ C_then_B ++ then_A ++ drain_all) (init three_fresh one_batch) = Some s
    ∧ callers s !! 0
      = Some (T_SendMessages [0; 1; 2] ix cl sub
                (Con_Done (Some [mkProducerError 1 leader_not_available]))).
Proof. do 4 eexists. vm_compute. split; reflexivity. Qed.

(** The member of the batch that the caller of SendMessages awaits next: the
    index at the head of [indices] when the caller is at the head of its
    loop, the index it has taken when it reads or receives from the
    channel. *)
Definition con_index (indices : list nat) (con : Con_pc) : option nat :=
  match con with
  | Con_Range _ => head indices
  | Con_Read i _ | Con_Wait i _ _ => Some i
  | _ => None
  end.

Lemma slot_bounded s c buf :
  Inv s → slots s !! c = Some buf → length buf ≤ slot_capacity.
Proof.
  intros (HN & Hthr & Hown & Htok & Hdel & Hrep & Hval & Hwg) Hc.
  unfold slot_capacity. destruct buf as [|v buf]; simpl; [lia|].
  destruct (decide (0 < sum_over (att c) (heap s))) as [Hatt|Hn].
  - destruct (att_pos_inv _ _ Hatt) as [m Hm].
    pose proof (Htok m) as Hm'. unfold deliveries_msg, deliveries, buffer in Hm'.
    rewrite Hm, Hc in Hm'. simpl in Hm'.
    pose proof (awaits_sum_le (callers s) m HN). lia.
  - destruct Hdel as (Hd & _). specialize (Hd c). unfold deliveries, buffer in Hd.
    rewrite Hc in Hd. simpl in Hd. lia.
Qed.

Lemma sub_sent_attached n sub : sub_sent n sub ≤ sub_attached n sub.
Proof. destruct sub; simpl; lia. Qed.

Lemma sub_sent_le n sub : sub_in_range n sub → sub_sent n sub ≤ n.
Proof. destruct sub; simpl; lia. Qed.

(** The position of the caller in its batch. *)
Lemma con_index_pos msgs ix cl sub con i :
  thread_ok (T_SendMessages msgs ix cl sub con) →
  con_index ix con = Some i →
  let k0 := taken0 msgs ix sub in
  let n := length msgs in
  con_received k0 n con = i ∧ con_detached k0 n con = i
  ∧ con_collected k0 n con = i ∧ i < sub_sent n sub.
Proof.
  intros (Hin & Hlen & Hk & Hix & _) Hi. simpl in *.
  destruct con as [errs|j errs|j x errs| | |]; simpl in *; try done.
  - destruct ix as [|i' rest]; [done|]. simpl in Hi. injection Hi as ->.
    destruct (sub_sent (length msgs) sub - taken0 msgs (i :: rest) sub) eqn:E;
      [done|]. simpl in Hix. injection Hix as Hi _. lia.
  - injection Hi as ->. lia.
  - injection Hi as ->. lia.
Qed.

(** C4. Within one SendMessages call the results are awaited in the order of
    submission: when the caller is about to await, or awaits, the i-th
    member, that member still carries its channel, every earlier member has
    been reported by the engine, its result has been received (the errors
    collected so far are the failures among the first i members) and its
    channel has been detached; the indices still to come follow in increasing
    order.  The engine may complete the members in any order: a router never
    blocks on its send, because the channel it sends into is empty, and a
    channel never holds more than the one value of its capacity. *)
Theorem SendMessages_awaits_in_order h calls s t msgs ix cl sub con :
  valid_init h calls → reachable h calls s →
  callers s !! t = Some (T_SendMessages msgs ix cl sub con) →
  (∀ i, con_index ix con = Some i →
     (∃ m, msgs !! i = Some m ∧ is_Some (exp_of (heap s) m))
     ∧ (∀ j m', j < i → msgs !! j = Some m' →
          m' ∈ report_msg <$> reports (producer s) ∧ exp_of (heap s) m' = None)
     ∧ con_errs con = failures (reports (producer s)) (take i msgs))
  ∧ (∀ i x errs, con = Con_Wait i x errs →
       ∃ m c, msgs !! i = Some m ∧ x = Some c ∧ exp_of (heap s) m = Some c)
  ∧ (∃ k, ix = seq k (length ix))
  ∧ (∀ c, 0 < hs_to c (handleSuccesses s) + he_to c (handleErrors s) →
       slots s !! c = Some [])
  ∧ (∀ c buf, slots s !! c = Some buf → length buf ≤ slot_capacity).
Proof.
  intros Hv Hr Ht. pose proof (Inv_reachable _ _ _ Hv Hr) as HI.
  pose proof HI as (HN & Hthr & Hown & Htok & Hdel & Hrep & Hval & Hwg).
  destruct (Hthr _ _ Ht) as [Hok Hatt].
  destruct Hval as (_ & _ & _ & _ & _ & V6). specialize (V6 _ _ Ht).
  split_and!.
  - intros i Hi.
    destruct (con_index_pos _ _ _ _ _ _ Hok Hi) as (Hrec & Hdet & Hcol & Hlt).
    destruct Hok as (Hin & _). destruct Hatt as (Hrange & _).
    destruct V6 as (H1 & H2 & _). simpl in *.
    rewrite Hrec in H1. rewrite Hdet in Hrange.
    pose proof (sub_sent_attached (length msgs) sub).
    pose proof (sub_sent_le (length msgs) sub Hin).
    split_and!.
    + destruct (lookup_lt_is_Some_2 msgs i) as [m Hm]; [lia|].
      exists m. split; [done|]. specialize (Hrange i m Hm).
      rewrite decide_True in Hrange by lia. done.
    + intros j m' Hj Hm'. split; [by eapply H1|].
      specialize (Hrange j m' Hm'). rewrite decide_False in Hrange by lia. done.
    + rewrite <- Hcol. destruct con; first [exact H2 | by simpl in Hi].
  - intros i x errs ->. destruct Hatt as (_ & _ & Hw). exact Hw.
  - destruct Hok as (_ & _ & _ & Hix & _).
    pose proof (f_equal length Hix) as Hl. rewrite length_seq in Hl.
    eexists. etrans; [exact Hix|]. f_equal. by rewrite Hl.
  - intros c. by apply send_enabled.
  - intros c buf. by apply slot_bounded.
Qed.

(** The batch of three after the engine has reported C and B, and the
    routers have delivered both results, while A is still with the engine:
    the caller awaits A. *)
Definition before_A : State :=
  default (init three_fresh one_batch)
    (run (submit_all ++ C_then_B) (init three_fresh one_batch)).

Lemma SendMessages_awaits_in_order_witness :
  ∃ m c, [0; 1; 2] !! 0 = Some m ∧ Some 0 = Some c
         ∧ exp_of (heap before_A) m = Some c.
Proof.
  refine (proj1 (proj2
    (SendMessages_awaits_in_order three_fresh one_batch before_A 0 [0; 1; 2] [1; 2]
       true Sub_Exit (Con_Wait 0 (Some 0) []) _ _ _)) 0 (Some 0) [] eq_refl).
  - by_computation.
  - exists (submit_all ++ C_then_B). vm_compute. reflexivity.
  - vm_compute. reflexivity.
Defined.

(** The results of B and C sit in their channels while the caller is blocked
    on the channel of A; once A is reported the caller receives the three
    results in the order of the batch. *)
Example SendMessages_out_of_order :
  callers before_A !! 0
    = Some (T_SendMessages [0; 1; 2] [1; 2] true Sub_Exit (Con_Wait 0 (Some 0) []))
  ∧ slots before_A
    = [[]; [Some (mkProducerError 1 leader_not_available)]; [None]]
  ∧ step (L_call 0 None) before_A = None
  ∧ ∃ s ix cl sub ret,
      run (then_A ++ drain_all) before_A = Some s
      ∧ callers s !! 0 = Some (T_SendMessages [0; 1; 2] ix cl sub (Con_Done ret)).
Proof.
  split_and!; [vm_compute; reflexivity..|].
  do 5 eexists. vm_compute. split; reflexivity.
Qed.

(** The shared state that a call can touch besides its own control points. *)
Definition same_shared (s s' : State) : Prop :=
  expectationsPool s' = expectationsPool s ∧ slots s' = slots s
  ∧ collected s' = collected s ∧ heap s' = heap s ∧ producer s' = producer s.

Definition own_label (t : nat) (l : Label) : Prop :=
  ∃ pick, l = L_call t pick ∨ l = L_go t pick.

Lemma same_shared_refl s : same_shared s s.
Proof. by repeat split. Qed.

Lemma same_shared_trans s1 s2 s3 :
  same_shared s1 s2 → same_shared s2 s3 → same_shared s1 s3.
Proof.
  intros (?&?&?&?&?) (?&?&?&?&?). repeat split; congruence.
Qed.

(** Where a call on the empty batch can be. *)
Lemma empty_batch_shape s t ix cl sub con :
  Inv s → callers s !! t = Some (T_SendMessages [] ix cl sub con) →
  ix = [] ∧ (sub = Sub_Close ∧ cl = false ∨ sub = Sub_Exit ∧ cl = true)
  ∧ (con = Con_Range [] ∨ con = Con_Done None ∧ sub = Sub_Exit).
Proof.
  intros (HN & Hthr & Hown & Htok & Hdel & Hrep & Hval & Hwg) Ht.
  destruct (Hthr _ _ Ht) as [(Hin & Hlen & Hk & Hix & Hcl & Hdone) _].
  destruct Hval as (_ & _ & _ & _ & _ & V6).
  destruct (V6 _ _ Ht) as (_ & H2 & _). simpl in *.
  assert (sub_sent 0 sub = 0) as H0 by (destruct sub; simpl in *; lia).
  rewrite H0 in *. split_and!.
  - destruct ix; [done|simpl in *; lia].
  - destruct sub; simpl in Hin; try lia.
    + left. split; [done|]. destruct cl; [|done]. by destruct Hcl as [Hcl _]; specialize (Hcl eq_refl).
    + right. split; [done|]. by apply Hcl.
  - destruct con as [errs| | | | |ret]; simpl in *; try lia.
    + left. by rewrite H2, take_nil.
    + right. rewrite H2. split; [done|]. by destruct sub.
Qed.

(** C9. SendMessages on the empty batch: in every state the call has an
    empty [indices] channel, its goroutine is about to close that channel or
    has done so, and the caller is at the head of its loop with no error
    collected or has returned nil; no step of the call or of its goroutine
    takes a channel from the pool, puts one back, makes one, writes a message
    or changes the engine (so nothing is pushed into its intake); and the
    call returns nil by steps of its own alone. *)
Theorem SendMessages_empty h calls s t :
  valid_init h calls → reachable h calls s →
  calls !! t = Some (CallSendMessages []) →
  (∃ cl sub con,
     callers s !! t = Some (T_SendMessages [] [] cl sub con)
     ∧ (sub = Sub_Close ∨ sub = Sub_Exit)
     ∧ (con = Con_Range [] ∨ con = Con_Done None))
  ∧ (∀ l s', own_label t l → step l s = Some s' → same_shared s s')
  ∧ (∃ ls s',
       run ls s = Some s' ∧ Forall (own_label t) ls ∧ length ls ≤ 2
       ∧ callers s' !! t = Some (T_SendMessages [] [] true Sub_Exit (Con_Done None))
       ∧ same_shared s s').
Proof.
  intros Hv Hr Hc. pose proof (Inv_reachable _ _ _ Hv Hr) as HI.
  destruct (thread_at _ _ _ _ _ Hr Hc) as (th & Ht & Hcall).
  destruct th as [|msgs ix cl sub con|]; try done.
  simpl in Hcall. injection Hcall as ->.
  destruct (empty_batch_shape _ _ _ _ _ _ HI Ht) as (-> & Hsub & Hcon).
  assert (t < length (callers s)) as Hlt by (by eapply lookup_lt_Some).
  split_and!.
  - exists cl, sub, con. split_and!; [done|tauto|tauto].
  - intros l s' [pick [-> | ->]]; unfold step; rewrite Ht; simpl.
    + destruct Hcon as [-> | [-> ->]]; simpl; [|done].
      destruct cl; [|done]. by intros [= <-].
    + destruct Hsub as [[-> ->] | [-> ->]]; simpl; [|done]. by intros [= <-].
  - destruct Hsub as [[-> ->] | [-> ->]].
    + destruct Hcon as [-> | [_ [=]]].
      exists [L_go t None; L_call t None]. eexists. split_and!.
      * simpl. rewrite Ht. simpl. rewrite list_lookup_insert_eq by done. simpl.
        reflexivity.
      * repeat constructor; exists None; auto.
      * simpl. lia.
      * simpl. rewrite list_insert_insert_eq. by rewrite list_lookup_insert_eq.
      * done.
    + destruct Hcon as [-> | [-> _]].
      * exists [L_call t None]. eexists. split_and!.
        -- simpl. rewrite Ht. simpl. reflexivity.
        -- repeat constructor; exists None; auto.
        -- simpl. lia.
        -- simpl. by rewrite list_lookup_insert_eq.
        -- done.
      * exists [], s. split_and!; [done|constructor|simpl; lia|done|apply same_shared_refl].
Qed.

Definition empty_batch : list Call := [CallSendMessages []].

Lemma SendMessages_empty_witness :
  ∃ ls s',
    run ls (init [] empty_batch) = Some s' ∧ Forall (own_label 0) ls ∧ length ls ≤ 2
    ∧ callers s' !! 0 = Some (T_SendMessages [] [] true Sub_Exit (Con_Done None))
    ∧ same_shared (init [] empty_batch) s'.
Proof.
  refine (proj2 (proj2 (SendMessages_empty [] empty_batch (init [] empty_batch) 0 _ _ _))).
  - by_computation.
  - exists []. reflexivity.
  - reflexivity.
Defined.

(** ** Channels of the pool *)

(** Only a message of a call carries a channel. *)
Definition free_inv (s : State) : Prop :=
  ∀ m, is_Some (exp_of (heap s) m) → m ∈ all_msgs (callers s).

Lemma all_msgs_step l s s' :
  astep l s s' → all_msgs (callers s') = all_msgs (callers s).
Proof. destruct 1; simpl; try done; by erewrite all_msgs_insert. Qed.

Lemma all_msgs_elem (cs : list Thread) (t : nat) th m :
  cs !! t = Some th → m ∈ thread_msgs th → m ∈ all_msgs cs.
Proof.
  intros Ht Hm. unfold all_msgs. apply list_elem_of_In, in_flat_map.
  exists th. split; apply list_elem_of_In; [by eapply list_elem_of_lookup_2|done].
Qed.

Lemma all_msgs_inv (cs : list Thread) m :
  m ∈ all_msgs cs → ∃ t th, cs !! t = Some th ∧ m ∈ thread_msgs th.
Proof.
  unfold all_msgs. intros (th & Hth & Hm)%list_elem_of_In%in_flat_map.
  apply list_elem_of_In, list_elem_of_lookup_1 in Hth as [t Ht].
  exists t, th. split; [done|]. by apply list_elem_of_In.
Qed.

Lemma free_step l s s' : astep l s s' → free_inv s → free_inv s'.
Proof.
  intros Hs Hf m. rewrite (all_msgs_step _ _ _ Hs).
  specialize (Hf m). destruct Hs; simpl; try done.
  all: rewrite exp_of_insert; case_decide as Hd; try done.
  all: destruct Hd as [<- _]; simpl.
  all: try (by intros [? ?]).
  - intros _. eapply all_msgs_elem; [done|]. by left.
  - intros _. eapply all_msgs_elem; [done|]. by eapply list_elem_of_lookup_2.
  - intros Hc. apply Hf. unfold exp_of. by rewrite H0.
Qed.

Lemma free_reachable h calls s :
  valid_init h calls → reachable h calls s → free_inv s.
Proof.
  intros [_ Hh] [ls Hr].
  assert (free_inv (init h calls)) as Hi.
  { intros m [c Hc]. simpl in Hc. by rewrite (exp_of_fresh _ _ Hh) in Hc. }
  clear Hh. revert Hi Hr. generalize (init h calls).
  induction ls as [|l ls IH]; intros s0 Hi; simpl.
  - by intros [= ->].
  - destruct (step l s0) as [s1|] eqn:Hs; simpl; [|done].
    apply IH. eapply free_step; [|done]. by apply step_astep.
Qed.

(** The channel that a call is about to put back into the pool. *)
Definition releasing (th : Thread) : option chan :=
  match th with
  | T_SendMessage _ (SM_Put c _) => Some c
  | T_SendMessages _ _ _ _ (Con_Put _ c _ _) => Some c
  | _ => None
  end.

(** A channel is drained: it is empty, no message carries it, and no router
    is about to send into it. *)
Definition drained (s : State) (c : chan) : Prop :=
  slots s !! c = Some []
  ∧ (∀ m, exp_of (heap s) m ≠ Some c)
  ∧ hs_to c (handleSuccesses s) = 0 ∧ he_to c (handleErrors s) = 0.

Lemma unattached_drained s c :
  Inv s → c < length (slots s) → sum_over (att c) (heap s) = 0 → drained s c.
Proof.
  intros (HN & Hthr & Hown & Htok & Hdel & Hrep & Hval & Hwg) Hlt Hatt.
  destruct Hdel as (Hd & _). specialize (Hd c).
  unfold deliveries, buffer in Hd.
  apply lookup_lt_is_Some in Hlt as [buf Hbuf]. rewrite Hbuf in Hd. simpl in Hd.
  split_and!; try lia.
  - destruct buf; [done|]. simpl in Hd. lia.
  - intros m Hm. pose proof (att_pos s c m Hm). lia.
Qed.

Lemma made_cases s c :
  own_inv s →
  0 < occ c (expectationsPool s) + occ c (collected s)
      + sum_over (holds c) (callers s) + sum_over (att c) (heap s) →
  c < length (slots s).
Proof. intros Hown. specialize (Hown c). unfold ind in Hown. case_decide; lia. Qed.

Lemma finished_clean s t th :
  Inv s → callers s !! t = Some th → finished th →
  (∀ c, holds c th = 0) ∧ ∀ m, m ∈ thread_msgs th → exp_of (heap s) m = None.
Proof.
  intros (HN & Hthr & _) Ht Hfin. destruct (Hthr _ _ Ht) as [Hok Hatt].
  destruct th as [m pc|msgs ix cl sub con|pc]; simpl in *.
  - destruct pc; try done. split; [done|].
    intros m' ->%list_elem_of_singleton. done.
  - destruct con; try done. destruct Hok as (_ & _ & _ & _ & _ & ->).
    split; [done|]. intros m (j & Hj)%list_elem_of_lookup_1.
    destruct Hatt as (Hrange & _). specialize (Hrange j m Hj).
    simpl in Hrange. rewrite decide_False in Hrange by lia. done.
  - split; [done|]. intros m Hm. by apply elem_of_nil in Hm.
Qed.

(** C5. Every channel in the pool is empty, and stays so: no message carries
    it, no router is about to send into it, no caller holds it.  A caller of
    SendMessage or SendMessages that is about to put a channel back has
    received the value from it and detached it from the message, whether the
    value was a success or a failure: the channel is empty and drained, it is
    not yet in the pool and the next step of the caller puts it there.  No
    channel is lost: a call that has returned holds no channel and none of
    its messages carries one; every channel made is in exactly one place
    (pooled, freed by the pool, held by a caller, attached to a message);
    and when all calls have returned, every channel made is in the pool or
    was freed by the pool. *)
Theorem pool_slots_empty h calls s :
  valid_init h calls → reachable h calls s →
  (∀ c, c ∈ expectationsPool s →
     drained s c ∧ occ c (expectationsPool s) = 1
     ∧ ∀ t th, callers s !! t = Some th → holds c th = 0)
  ∧ (∀ t th c, callers s !! t = Some th → releasing th = Some c →
       drained s c ∧ (c ∉ expectationsPool s)
       ∧ (∃ s', step (L_call t None) s = Some s')
       ∧ ∀ pick s', step (L_call t pick) s = Some s' →
           c ∈ expectationsPool s' ∧ slots s' = slots s ∧ heap s' = heap s)
  ∧ (∀ t th, callers s !! t = Some th → finished th →
       (∀ c, holds c th = 0) ∧ ∀ m, m ∈ thread_msgs th → exp_of (heap s) m = None)
  ∧ (∀ c, c < length (slots s) →
       occ c (expectationsPool s) + occ c (collected s)
       + sum_over (holds c) (callers s) + sum_over (att c) (heap s) = 1)
  ∧ ((∀ t th, callers s !! t = Some th → finished th) →
     ∀ c, c < length (slots s) → c ∈ expectationsPool s ∨ c ∈ collected s).
Proof.
  intros Hv Hr. pose proof (Inv_reachable _ _ _ Hv Hr) as HI.
  pose proof HI as (HN & Hthr & Hown & Htok & Hdel & Hrep & Hval & Hwg).
  split_and!.
  - intros c Hc%occ_pos.
    assert (c < length (slots s)) as Hlt by (apply made_cases; [done|lia]).
    pose proof (Hown c) as Hc'. unfold ind in Hc'. rewrite decide_True in Hc' by done.
    split_and!.
    + apply unattached_drained; [done..|lia].
    + lia.
    + intros t th Ht. pose proof (sum_over_lookup_le (holds c) _ _ _ Ht). lia.
  - intros t th c Ht Hrel.
    assert (0 < holds c th) as Hh.
    { destruct th as [m [ | | | | |c' v| |]|msgs ix cl sub [ | | | |i c' v errs|]|];
        simpl in Hrel; try done; injection Hrel as ->; simpl; unfold ind;
        rewrite decide_True by done; lia. }
    pose proof (sum_over_lookup_le (holds c) _ _ _ Ht) as Hle.
    assert (c < length (slots s)) as Hlt by (apply made_cases; [done|lia]).
    pose proof (Hown c) as Hc'. unfold ind in Hc'. rewrite decide_True in Hc' by done.
    split_and!.
    + apply unattached_drained; [done..|lia].
    + apply occ_zero. lia.
    + unfold step. rewrite Ht. simpl.
      destruct th as [m [ | | | | |c' v| |]|msgs ix cl sub [ | | | |i c' v errs|]|];
        simpl in Hrel; try done; simpl; eauto.
    + intros pick s'. unfold step. rewrite Ht. simpl.
      destruct th as [m [ | | | | |c' v| |]|msgs ix cl sub [ | | | |i c' v errs|]|];
        simpl in Hrel; try done; injection Hrel as ->; simpl; intros [= <-]; simpl.
      all: split; [|done]. all: apply elem_of_app; right; by left.
  - intros t th. by apply finished_clean.
  - intros c Hlt. specialize (Hown c). unfold ind in Hown.
    by rewrite decide_True in Hown by done.
  - intros Hfin c Hlt.
    pose proof (Hown c) as Hc'. unfold ind in Hc'. rewrite decide_True in Hc' by done.
    assert (sum_over (holds c) (callers s) = 0) as H0.
    { apply sum_over_zero. intros th (t & Ht)%list_elem_of_lookup_1.
      by destruct (finished_clean s t th HI Ht (Hfin t th Ht)) as [Hh _]. }
    assert (sum_over (att c) (heap s) = 0) as H1.
    { destruct (decide (0 < sum_over (att c) (heap s))) as [Hp|]; [exfalso|lia].
      destruct (att_pos_inv _ _ Hp) as [m Hm].
      destruct (all_msgs_inv (callers s) m) as (t & th & Ht & Hin).
      { apply (free_reachable _ _ _ Hv Hr). by rewrite Hm. }
      destruct (finished_clean s t th HI Ht (Hfin t th Ht)) as [_ Hn].
      by rewrite (Hn m Hin) in Hm. }
    destruct (decide (0 < occ c (expectationsPool s))) as [Hp|Hp].
    + left. by apply occ_pos.
    + right. apply occ_pos. lia.
Qed.

(** The failing send of [until_failure], once the routers have delivered the
    failure and the caller has received it and detached the channel. *)
Definition until_release : list Label :=
  until_failure
  ++ [L_handleErrors; L_handleErrors; L_handleErrors; L_call 0 None; L_call 0 None].

Definition before_release : State :=
  default (init [fresh_msg] one_send) (run until_release (init [fresh_msg] one_send)).

Lemma pool_slots_empty_witness :
  drained before_release 0 ∧ (0 ∉ expectationsPool before_release)
  ∧ (∃ s', step (L_call 0 None) before_release = Some s')
  ∧ ∀ pick s', step (L_call 0 pick) before_release = Some s' →
      0 ∈ expectationsPool s' ∧ slots s' = slots before_release
      ∧ heap s' = heap before_release.
Proof.
  refine (proj1 (proj2 (pool_slots_empty [fresh_msg] one_send before_release _ _))
            0 (T_SendMessage 0 (SM_Put 0 (Some (mkProducerError 0 leader_not_available))))
            0 _ _).
  - by_computation.
  - exists until_release. vm_compute. reflexivity.
  - vm_compute. reflexivity.
  - reflexivity.
Defined.

(** The caller of the failed send is about to put back channel 0. *)
Example release_after_failure :
  callers before_release !! 0
    = Some (T_SendMessage 0 (SM_Put 0 (Some (mkProducerError 0 leader_not_available))))
  ∧ slots before_release = [[]]
  ∧ (expectationsPool <$> run [L_call 0 None] before_release) = Some [0].
Proof. vm_compute. split_and!; reflexivity. Qed.

(** ** Shutting down *)

(** What is left to do before both routers have returned: the work of the
    engine and of the routers, and the closing of the streams. *)
Definition to_close (s : State) : nat :=
  work (length (callers s)) s + (if closed (producer s) then 0 else 1).

Lemma follows_closed fate t l s s' :
  astep l s s' → follows fate t s l →
  closed (producer s') = closed (producer s).
Proof. destruct 1; simpl; done. Qed.

Lemma follows_no_caller fate t l s s' :
  astep l s s' → follows fate t s l → callers s !! t = None →
  shutdown (producer s') = shutdown (producer s).
Proof. destruct 1; simpl; try done; intros -> Ht; congruence. Qed.

(** After [AsyncClose] the engine and the routers can always move on, until
    both routers have returned. *)
Lemma shutdown_step s :
  Inv s → shutdown (producer s) = true →
  (handleSuccesses s = HS_Done ∧ handleErrors s = HE_Done)
  ∨ ∃ l s', step l s = Some s' ∧ to_close s' < to_close s
            ∧ callers s' = callers s ∧ shutdown (producer s') = true.
Proof.
  intros HI Hsd.
  destruct (routers_step (λ _, None) (length (callers s)) s HI)
    as [Hidle|(l & s' & Hs & Hw & Hf & Hc)].
  2: { right. exists l, s'. pose proof (step_astep _ _ _ Hs) as Ha.
       split_and!; [done| |done|].
       - unfold to_close. rewrite Hc, (follows_closed _ _ _ _ _ Ha Hf). lia.
       - rewrite (follows_no_caller _ _ _ _ _ Ha Hf); [done|].
         by apply lookup_ge_None_2. }
  destruct Hidle as (Hi & Hss & Hes & Hhs & Hhe & Hts & Hte).
  pose proof HI as (HN & Hthr & Hown & Htok & Hdel & Hrep & Hval & Hwg).
  destruct Hwg as (Hwg & Hns & Hne & _).
  destruct Hdel as (_ & Hds & Hde).
  assert (callers s !! length (callers s) = None) as Hnone
    by (by apply lookup_ge_None_2).
  unfold to_close, work.
  destruct (closed (producer s)) eqn:Hcl.
  2: { right. eexists _, _. split; [apply astep_step; by apply a_close|].
       simpl. rewrite Hnone. split_and!; [lia|done|done]. }
  destruct (handleSuccesses s) as [| |m|[c|]| |] eqn:Es; try done.
  - right. eexists _, _. split; [apply astep_step; by apply a_hs_exit|].
    simpl. rewrite Hcl, Hnone. split_and!; [simpl; lia|done|done].
  - specialize (Hhs m). simpl in Hhs. unfold ind in Hhs.
    rewrite decide_True in Hhs by done. lia.
  - specialize (Hts c). simpl in Hts. unfold ind in Hts.
    rewrite decide_True in Hts by done. lia.
  - right. simpl in Hwg.
    eexists _, _. split; [apply astep_step; by eapply a_hs_done|].
    simpl. rewrite Hcl, Hnone. split_and!; [simpl; lia|done|done].
  - destruct (handleErrors s) as [| |e|[c|] e| |] eqn:Ee; try done.
    + right. eexists _, _. split; [apply astep_step; by apply a_he_exit|].
      simpl. rewrite Hcl, Es, Hnone. split_and!; [simpl; lia|done|done].
    + specialize (Hhe (Msg e)). simpl in Hhe. unfold ind in Hhe.
      rewrite decide_True in Hhe by done. lia.
    + specialize (Hte c). simpl in Hte. unfold ind in Hte.
      rewrite decide_True in Hte by done. lia.
    + exfalso. by eapply Hde.
    + right. simpl in Hwg.
      eexists _, _. split; [apply astep_step; by eapply a_he_done|].
      simpl. rewrite Hcl, Es, Hnone. split_and!; [simpl; lia|done|done].
    + by left.
Qed.

Lemma shutdown_run n : ∀ s,
  to_close s ≤ n → Inv s → shutdown (producer s) = true →
  ∃ ls s', run ls s = Some s' ∧ callers s' = callers s
           ∧ handleSuccesses s' = HS_Done ∧ handleErrors s' = HE_Done.
Proof.
  induction n as [|n IH]; intros s Hn HI Hsd.
  all: destruct (shutdown_step s HI Hsd) as [[Hs He]|(l & s1 & Hs & Hlt & Hc & Hsd1)].
  all: try (by exists [], s).
  - lia.
  - destruct (IH s1) as (ls & s' & Hr & Hc' & Hs' & He'); [lia| |done|].
    { eapply Inv_step; [|done]. by apply step_astep. }
    exists (l :: ls), s'. simpl. rewrite Hs. simpl. split_and!; try done. congruence.
Qed.

Lemma routers_returned s :
  wg_inv s →
  wg s = 0 ↔ handleSuccesses s = HS_Done ∧ handleErrors s = HE_Done.
Proof.
  intros (Hwg & Hns & Hne & _). rewrite Hwg. split.
  - intros H0. split.
    + destruct (handleSuccesses s); simpl in *; try done; lia.
    + destruct (handleErrors s); simpl in *; try done; lia.
  - by intros [-> ->].
Qed.

(** C7. A call of Close first signals the engine: its first statement sets
    the engine shutting down, after which nothing is accepted on the intake.
    It then waits on the completion counter, and passes exactly when both
    routers have returned.  When it has returned, both routers have returned,
    each after its stream was closed and drained (the engine is closed, holds
    nothing, and both streams are empty), and the error returned is nil.
    And Close does return: from every state there is a run in which it
    returns nil. *)
Theorem Close_waits_for_routers h calls s t :
  valid_init h calls → reachable h calls s → calls !! t = Some CallClose →
  ∃ pc, callers s !! t = Some (T_Close pc)
    ∧ (pc = CL_AsyncClose → ∀ pick,
         ∃ s', step (L_call t pick) s = Some s'
               ∧ shutdown (producer s') = true
               ∧ callers s' !! t = Some (T_Close CL_Wait))
    ∧ (pc ≠ CL_AsyncClose →
         shutdown (producer s) = true ∧ ∀ m, Input_send m s = None)
    ∧ (pc = CL_Wait → ∀ pick,
         (∃ s', step (L_call t pick) s = Some s')
         ↔ handleSuccesses s = HS_Done ∧ handleErrors s = HE_Done)
    ∧ (∀ err, pc = CL_Done err →
         err = None
         ∧ handleSuccesses s = HS_Done ∧ handleErrors s = HE_Done
         ∧ closed (producer s) = true ∧ inflight (producer s) = []
         ∧ successes (producer s) = [] ∧ errors (producer s) = [])
    ∧ ∃ ls s', run ls s = Some s'
               ∧ callers s' !! t = Some (T_Close (CL_Done None)).
Proof.
  intros Hv Hr Hc. pose proof (Inv_reachable _ _ _ Hv Hr) as HI.
  destruct (thread_at _ _ _ _ _ Hr Hc) as (th & Ht & Hcall).
  destruct th as [| |pc]; try done. clear Hcall.
  pose proof HI as (_ & _ & _ & _ & _ & _ & _ & Hwg).
  pose proof Hwg as (_ & _ & _ & Hsx & Hex & Hcl & Hclose).
  specialize (Hclose _ _ Ht).
  assert (t < length (callers s)) as Hlt by (by eapply lookup_lt_Some).
  assert (∀ s0, Inv s0 → callers s0 !! t = Some (T_Close CL_Wait) →
            ∃ ls s', run ls s0 = Some s'
                     ∧ callers s' !! t = Some (T_Close (CL_Done None))) as Hwait.
  { intros s0 HI0 Ht0.
    pose proof HI0 as (_ & _ & _ & _ & _ & _ & _ & Hwg0).
    destruct Hwg0 as (_ & _ & _ & _ & _ & _ & Hclose0).
    specialize (Hclose0 _ _ Ht0). simpl in Hclose0.
    destruct (shutdown_run (to_close s0) s0 (le_n _) HI0 Hclose0)
      as (ls & s1 & Hrun & Hcs & Hs1 & He1).
    pose proof (Inv_run _ _ _ Hrun HI0) as HI1.
    pose proof HI1 as (_ & _ & _ & _ & _ & _ & _ & Hwg1).
    assert (wg s1 = 0) as H0 by (by apply routers_returned).
    exists (ls ++ [L_call t None]), (upd t (T_Close (CL_Done None)) s1). split.
    - eapply run_app; [done|]. simpl. rewrite Hcs, Ht0. simpl.
      by rewrite decide_True by done.
    - simpl. rewrite list_lookup_insert_eq; [done|].
      rewrite Hcs. by eapply lookup_lt_Some. }
  exists pc. split_and!; [done|..].
  - intros -> pick. eexists. split_and!.
    + simpl. rewrite Ht. simpl. reflexivity.
    + done.
    + simpl. by rewrite list_lookup_insert_eq.
  - intros Hne. assert (shutdown (producer s) = true) as Hsd.
    { destruct pc; simpl in Hclose; [done|done|by destruct Hclose as (_ & ? & _)]. }
    split; [done|]. intros m. unfold Input_send. by rewrite Hsd.
  - intros -> pick. simpl. rewrite Ht. simpl.
    rewrite <- (routers_returned s Hwg). case_decide; split; eauto; [by intros [? ?]|done].
  - intros err ->. simpl in Hclose. destruct Hclose as (-> & Hsd & Hs & He).
    destruct (Hsx (or_intror Hs)) as [? ?]. destruct (Hex (or_intror He)) as [? ?].
    destruct (Hcl ltac:(done)) as [_ ?]. by split_and!.
  - destruct pc as [| |err].
    + destruct (Hwait (upd t (T_Close CL_Wait)
                         (set_producer (with_shutdown true (producer s)) s)))
        as (ls & s' & Hrun & Ht').
      * eapply Inv_step; [|done]. by apply a_cl_asyncclose with (pick := None).
      * simpl. by rewrite list_lookup_insert_eq.
      * exists (L_call t None :: ls), s'. split; [|done].
        simpl. rewrite Ht. simpl. done.
    + by apply Hwait.
    + simpl in Hclose. destruct Hclose as (-> & _). by exists [], s.
Qed.

(** One caller sends message 0 while another closes the producer: the send
    is accepted before [AsyncClose], the engine reports it, and the caller
    of Close is waiting. *)
Definition send_and_close : list Call := [CallSendMessage 0; CallClose].

Definition until_closing : list Label :=
  [L_call 0 None; L_call 0 None; L_call 0 None; L_call 1 None; L_succeed 0].

Definition closing : State :=
  default (init [fresh_msg] send_and_close)
    (run until_closing (init [fresh_msg] send_and_close)).

Lemma Close_waits_for_routers_witness :
  ∃ pc, callers closing !! 1 = Some (T_Close pc)
    ∧ (pc = CL_AsyncClose → ∀ pick,
         ∃ s', step (L_call 1 pick) closing = Some s'
               ∧ shutdown (producer s') = true
               ∧ callers s' !! 1 = Some (T_Close CL_Wait))
    ∧ (pc ≠ CL_AsyncClose →
         shutdown (producer closing) = true ∧ ∀ m, Input_send m closing = None)
    ∧ (pc = CL_Wait → ∀ pick,
         (∃ s', step (L_call 1 pick) closing = Some s')
         ↔ handleSuccesses closing = HS_Done ∧ handleErrors closing = HE_Done)
    ∧ (∀ err, pc = CL_Done err →
         err = None
         ∧ handleSuccesses closing = HS_Done ∧ handleErrors closing = HE_Done
         ∧ closed (producer closing) = true ∧ inflight (producer closing) = []
         ∧ successes (producer closing) = [] ∧ errors (producer closing) = [])
    ∧ ∃ ls s', run ls closing = Some s'
               ∧ callers s' !! 1 = Some (T_Close (CL_Done None)).
Proof.
  apply (Close_waits_for_routers [fresh_msg] send_and_close closing 1).
  - by_computation.
  - exists until_closing. vm_compute. reflexivity.
  - reflexivity.
Defined.

(** The run of Close replayed: it is blocked while the routers run, and
    returns nil once the engine has closed the streams and both routers have
    returned; the result of the send was delivered before. *)
Example Close_scenario :
  step (L_call 1 None) closing = None
  ∧ ∃ s, run [L_handleSuccesses; L_handleSuccesses; L_handleSuccesses; L_close;
              L_handleSuccesses; L_handleSuccesses; L_handleErrors; L_handleErrors;
              L_call 1 None] closing = Some s
         ∧ callers s !! 1 = Some (T_Close (CL_Done None))
         ∧ slots s = [[None]] ∧ wg s = 0.
Proof. split; [vm_compute; reflexivity|]. eexists. vm_compute. split_and!; reflexivity. Qed.

(** ** Construction *)

Definition is_ConfigurationError (e : error) : Prop :=
  match e with ConfigurationError _ => True | Cause _ => False end.

(** Both kinds of result are reported back. *)
Definition returns_both (c : Config) : bool :=
  Producer_Return_Successes c && Producer_Return_Errors c.

(** No router runs and nothing was added to the completion counter. *)
Definition no_workers (s : State) : Prop :=
  wg s = 0 ∧ handleSuccesses s = HS_NotStarted ∧ handleErrors s = HE_NotStarted
  ∧ step L_handleSuccesses s = None ∧ step L_handleErrors s = None.

(** The error a call has returned, if it has returned one; a batch returns
    the causes of its produce errors. *)
Definition returned_errors (th : Thread) : list error :=
  match th with
  | T_SendMessage _ (SM_Done _ _ (Some e)) => [e]
  | T_SendMessages _ _ _ _ (Con_Done (Some errs)) => Err <$> errs
  | T_Close (CL_Done (Some e)) => [e]
  | _ => []
  end.

Lemma verify_fails c :
  returns_both c = false →
  ∃ text, verifyProducerConfig c = Some (ConfigurationError text).
Proof.
  unfold returns_both, verifyProducerConfig.
  destruct c as [[|] [|]]; simpl; try done; eauto.
Qed.

Lemma verify_passes c : verifyProducerConfig c = None ↔ returns_both c = true.
Proof.
  unfold returns_both, verifyProducerConfig. by destruct c as [[|] [|]].
Qed.

Lemma blank_no_workers h calls : no_workers (blank h calls).
Proof. by repeat split. Qed.

(** Every error that a call has returned is the cause that the engine
    reported for a message of that call. *)
Lemma returned_reported s t th e :
  Inv s → callers s !! t = Some th → e ∈ returned_errors th →
  ∃ m, m ∈ thread_msgs th ∧ Failed m e ∈ reports (producer s).
Proof.
  intros HI Ht He. pose proof HI as (_ & _ & _ & _ & _ & _ & Hval & Hwg).
  destruct Hval as (_ & _ & _ & _ & _ & V6). specialize (V6 _ _ Ht).
  destruct Hwg as (_ & _ & _ & _ & _ & _ & Hclose).
  destruct th as [m pc|msgs ix cl sub con|pc]; simpl in *.
  - destruct pc as [| | | | | | |p o [e'|]]; try (by apply elem_of_nil in He).
    apply list_elem_of_singleton in He as ->. simpl in V6.
    destruct V6 as (_ & _ & Hin). exists m. split; [by left|done].
  - destruct con as [| | | | |[errs|]]; try (by apply elem_of_nil in He).
    apply list_elem_of_fmap_1 in He as (pe & -> & Hpe).
    destruct V6 as (_ & H2 & _). unfold aggregate in H2. case_decide; [|done].
    injection H2 as ->. apply failures_in in Hpe as [Hin Hpe]. eauto.
  - specialize (Hclose _ _ Ht). destruct pc as [| |[e'|]]; simpl in *;
      try (by apply elem_of_nil in He). by destruct Hclose.
Qed.

(** C6. When the configuration does not enable both the return of successes
    and the return of errors, NewSyncProducer and NewSyncProducerFromClient
    return a configuration error and leave the state as it was: the engine is
    not created, nothing is added to the completion counter and no router is
    started.  When construction succeeds, the configuration enables both and
    the two routers are started.  After construction the producer raises no
    configuration error of its own: every error that SendMessage or
    SendMessages returns is the cause that the engine reported for a message
    of that call, handed on as it is (a configuration error only if the
    engine reported one), and Close returns nil. *)
Theorem construction_checks_config
    (NewConfig : Config)
    (NewAsyncProducer : list string → Config → error + asyncProducer)
    (NewAsyncProducerFromClient : Client → error + asyncProducer) :
  (∀ addrs c s, returns_both c = false →
     ∃ text,
       NewSyncProducer NewConfig NewAsyncProducer addrs (Some c) s
         = (Some (ConfigurationError text), s)
       ∧ NewSyncProducerFromClient NewAsyncProducerFromClient (mkClient c) s
         = (Some (ConfigurationError text), s))
  ∧ (∀ h calls, no_workers (blank h calls))
  ∧ (∀ addrs c s s',
       NewSyncProducer NewConfig NewAsyncProducer addrs (Some c) s = (None, s') →
       returns_both c = true
       ∧ wg s' = wg s + 2 ∧ handleSuccesses s' = HS_Range ∧ handleErrors s' = HE_Range)
  ∧ (∀ addrs c h calls,
       returns_both c = true → NewAsyncProducer addrs c = inr fresh_engine →
       NewSyncProducer NewConfig NewAsyncProducer addrs (Some c) (blank h calls)
         = (None, init h calls))
  ∧ (∀ h calls s t th e,
       valid_init h calls → reachable h calls s →
       callers s !! t = Some th → e ∈ returned_errors th →
       ∃ m, m ∈ thread_msgs th ∧ Failed m e ∈ reports (producer s))
  ∧ (∀ h calls s t err,
       valid_init h calls → reachable h calls s →
       callers s !! t = Some (T_Close (CL_Done err)) → err = None).
Proof.
  split_and!.
  - intros addrs c s Hc. destruct (verify_fails c Hc) as [text Hv].
    exists text. unfold NewSyncProducer, NewSyncProducerFromClient. simpl.
    by rewrite Hv.
  - apply blank_no_workers.
  - intros addrs c s s'. unfold NewSyncProducer.
    destruct (verifyProducerConfig c) eqn:Hv; [done|].
    destruct (NewAsyncProducer addrs c); [done|]. intros [= <-].
    split; [by apply verify_passes|done].
  - intros addrs c h calls Hc Hp. unfold NewSyncProducer.
    apply verify_passes in Hc. by rewrite Hc, Hp.
  - intros h calls s t th e Hv Hr Ht He.
    by apply (returned_reported s t th e (Inv_reachable _ _ _ Hv Hr) Ht He).
  - intros h calls s t err Hv Hr Ht.
    pose proof (Inv_reachable _ _ _ Hv Hr) as (_ & _ & _ & _ & _ & _ & _ & Hwg).
    destruct Hwg as (_ & _ & _ & _ & _ & _ & Hclose).
    by destruct (Hclose _ _ Ht) as (-> & _).
Qed.

(** Error returns disabled, as in the scenario of §8. *)
Definition errors_disabled : Config := mkConfig true false.

Lemma construction_checks_config_witness :
  ∃ text,
    NewSyncProducer errors_disabled (λ _ _, inr fresh_engine) [] (Some errors_disabled)
        (blank [] [])
      = (Some (ConfigurationError text), blank [] [])
    ∧ NewSyncProducerFromClient (λ _, inr fresh_engine) (mkClient errors_disabled)
        (blank [] [])
      = (Some (ConfigurationError text), blank [] []).
Proof.
  refine (proj1 (construction_checks_config errors_disabled (λ _ _, inr fresh_engine)
                   (λ _, inr fresh_engine)) [] errors_disabled (blank [] []) _).
  reflexivity.
Defined.

(** ** A configuration error in operation *)

(** The engine rejects message 0 with a configuration error of its own, as
    it does for a message larger than [Producer.MaxMessageBytes]; the error
    router delivers the error and the caller returns it. *)
Definition too_large : error :=
  ConfigurationError "Attempt to produce message larger than configured Producer.MaxMessageBytes".

Definition rejected_by_engine : list Label :=
  [L_call 0 None; L_call 0 None; L_call 0 None; L_fail 0 too_large;
   L_handleErrors; L_handleErrors; L_handleErrors;
   L_call 0 None; L_call 0 None; L_call 0 None; L_call 0 None].

Definition after_rejection : State :=
  default (init [fresh_msg] one_send) (run rejected_by_engine (init [fresh_msg] one_send)).

(** Construction succeeds on a configuration that enables both returns, and
    yet a configuration error occurs afterwards: SendMessage returns the one
    that the engine reported.  So it is not the case that no call returns a
    configuration error after construction has succeeded. *)
Lemma configuration_error_after_construction :
  NewSyncProducer (mkConfig true true) (λ _ _, inr fresh_engine) []
      (Some (mkConfig true true)) (blank [fresh_msg] one_send)
    = (None, init [fresh_msg] one_send)
  ∧ valid_init [fresh_msg] one_send
  ∧ run rejected_by_engine (init [fresh_msg] one_send) = Some after_rejection
  ∧ callers after_rejection !! 0
    = Some (T_SendMessage 0 (SM_Done (-1) (-1) (Some too_large)))
  ∧ is_ConfigurationError too_large
  ∧ ¬ (∀ s t th e,
         reachable [fresh_msg] one_send s → callers s !! t = Some th →
         e ∈ returned_errors th → ¬ is_ConfigurationError e).
Proof.
  assert (run rejected_by_engine (init [fresh_msg] one_send) = Some after_rejection)
    as Hrun by (vm_compute; reflexivity).
  split_and!; [reflexivity|by_computation|exact Hrun|vm_compute; reflexivity|exact I|].
  intros Hnever.
  apply (Hnever after_rejection 0
           (T_SendMessage 0 (SM_Done (-1) (-1) (Some too_large))) too_large).
  - by exists rejected_by_engine.
  - vm_compute. reflexivity.
  - simpl. by left.
  - exact I.
Qed.

(** C10. With a nil configuration NewSyncProducer takes the default
    configuration and enables the return of successes in it.  The check then
    never fails for the return of successes; given that the default
    configuration has the return of errors enabled, the check passes and the
    result of NewSyncProducer is that of the engine's constructor, called on
    the default configuration with successes enabled: a producer with both
    routers started when the engine is created, and never a configuration
    error raised by the check. *)
Theorem NewSyncProducer_nil_config
    (NewConfig : Config)
    (NewAsyncProducer : list string → Config → error + asyncProducer)
    (addrs : list string) (s : State) :
  Producer_Return_Errors NewConfig = true →
  let config := mkConfig true (Producer_Return_Errors NewConfig) in
  Producer_Return_Successes config = true
  ∧ verifyProducerConfig config = None
  ∧ NewSyncProducer NewConfig NewAsyncProducer addrs None s
    = NewSyncProducer NewConfig NewAsyncProducer addrs (Some config) s
  ∧ NewSyncProducer NewConfig NewAsyncProducer addrs None s
    = match NewAsyncProducer addrs config with
      | inl err => (Some err, s)
      | inr p => (None, newSyncProducerFromAsyncProducer p s)
      end
  ∧ (∀ p, NewAsyncProducer addrs config = inr p →
       NewSyncProducer NewConfig NewAsyncProducer addrs None s
       = (None, newSyncProducerFromAsyncProducer p s)).
Proof.
  intros He config. unfold NewSyncProducer. fold config.
  assert (verifyProducerConfig config = None) as Hv.
  { unfold config, verifyProducerConfig. simpl. by rewrite He. }
  rewrite Hv. split_and!; try done. by intros p ->.
Qed.

(** The default configuration as far as it is read here: errors are
    returned, successes are not. *)
Definition default_config : Config := mkConfig false true.

Lemma NewSyncProducer_nil_config_witness :
  NewSyncProducer default_config (λ _ _, inr fresh_engine) [] None (blank [] [])
  = (None, init [] []).
Proof.
  refine (proj2 (proj2 (proj2 (proj2
    (NewSyncProducer_nil_config default_config (λ _ _, inr fresh_engine) []
       (blank [] []) _)))) fresh_engine _); reflexivity.
Defined.

(** * Further properties of the code *)

(** ** The [indices] channel of a batch *)

(** X1. The goroutine of SendMessages never blocks on [indices <- i]: the
    channel was made with the capacity of the batch, and when the goroutine
    is about to send an index the buffer holds fewer entries than that; the
    send appends the index and moves the goroutine to the next member.  The
    buffer never exceeds the capacity, and the channel is closed exactly when
    the goroutine has finished, so nothing is sent on a closed channel. *)
Theorem indices_send_never_blocks h calls s t msgs ix cl sub con :
  valid_init h calls → reachable h calls s →
  callers s !! t = Some (T_SendMessages msgs ix cl sub con) →
  length ix ≤ length msgs
  ∧ (cl = true ↔ sub = Sub_Exit)
  ∧ (∀ i, sub = Sub_Index i →
       length ix < length msgs
       ∧ ∀ pick, step (L_go t pick) s
           = Some (upd t (T_SendMessages msgs (ix ++ [i]) cl (sub_range msgs (S i)) con) s)).
Proof.
  intros Hv Hr Ht. pose proof (Inv_reachable _ _ _ Hv Hr) as (_ & Hthr & _).
  destruct (Hthr _ _ Ht) as [(Hin & Hlen & Hk & Hix & Hcl & Hdone) _].
  pose proof (sub_sent_le _ _ Hin) as Hle. split_and!; [lia|done|].
  intros i ->. simpl in *. split; [lia|]. intros pick.
  rewrite Ht. simpl. unfold chan_send. rewrite decide_True by lia. done.
Qed.

Lemma indices_send_never_blocks_witness :
  length [1; 2] ≤ length [0; 1; 2]
  ∧ (true = true ↔ Sub_Exit = Sub_Exit)
  ∧ (∀ i, Sub_Exit = Sub_Index i →
       length [1; 2] < length [0; 1; 2]
       ∧ ∀ pick, step (L_go 0 pick) before_A
           = Some (upd 0 (T_SendMessages [0; 1; 2] ([1; 2] ++ [i]) true
                            (sub_range [0; 1; 2] (S i)) (Con_Wait 0 (Some 0) []))
                     before_A)).
Proof.
  apply (indices_send_never_blocks three_fresh one_batch before_A 0).
  - by_computation.
  - exists (submit_all ++ C_then_B). vm_compute. reflexivity.
  - vm_compute. reflexivity.
Defined.

(** ** The completion counter *)

(** X2. The completion counter always equals the number of routers that have
    not returned, so it is at most 2 and both routers were started; a router
    that is about to run its deferred [wg.Done()] finds the counter positive
    (the call never makes it negative), and the step takes one off. *)
Theorem wg_counts_routers h calls s :
  valid_init h calls → reachable h calls s →
  wg s = hs_active (handleSuccesses s) + he_active (handleErrors s)
  ∧ wg s ≤ 2
  ∧ handleSuccesses s ≠ HS_NotStarted ∧ handleErrors s ≠ HE_NotStarted
  ∧ (handleSuccesses s = HS_Exit →
       0 < wg s ∧ step L_handleSuccesses s = Some (set_hs HS_Done (set_wg (wg s - 1) s)))
  ∧ (handleErrors s = HE_Exit →
       0 < wg s ∧ step L_handleErrors s = Some (set_he HE_Done (set_wg (wg s - 1) s))).
Proof.
  intros Hv Hr.
  pose proof (Inv_reachable _ _ _ Hv Hr) as (_ & _ & _ & _ & _ & _ & _ & Hwg).
  destruct Hwg as (Hwg & Hns & Hne & _). split_and!; try done.
  - rewrite Hwg. destruct (handleSuccesses s), (handleErrors s); simpl; lia.
  - intros Hs. rewrite Hs in Hwg. simpl in Hwg. split; [lia|].
    simpl. unfold handleSuccesses_step, wg_Done. rewrite Hs.
    destruct (wg s) as [|n] eqn:E; [lia|]. simpl. by rewrite Nat.sub_0_r.
  - intros He. rewrite He in Hwg. split; [destruct (handleSuccesses s); simpl in *; lia|].
    simpl. unfold handleErrors_step, wg_Done. rewrite He.
    destruct (wg s) as [|n] eqn:E; [destruct (handleSuccesses s); simpl in *; lia|].
    simpl. by rewrite Nat.sub_0_r.
Qed.

Lemma wg_counts_routers_witness :
  wg closing = hs_active (handleSuccesses closing) + he_active (handleErrors closing)
  ∧ wg closing ≤ 2
  ∧ handleSuccesses closing ≠ HS_NotStarted ∧ handleErrors closing ≠ HE_NotStarted
  ∧ (handleSuccesses closing = HS_Exit →
       0 < wg closing
       ∧ step L_handleSuccesses closing
         = Some (set_hs HS_Done (set_wg (wg closing - 1) closing)))
  ∧ (handleErrors closing = HE_Exit →
       0 < wg closing
       ∧ step L_handleErrors closing
         = Some (set_he HE_Done (set_wg (wg closing - 1) closing))).
Proof.
  apply (wg_counts_routers [fresh_msg] send_and_close closing).
  - by_computation.
  - exists until_closing. vm_compute. reflexivity.
Defined.

(** ** The routers *)

(** A message that the engine holds, that is on a stream or that a router
    has taken carries a channel, and nothing has been delivered for it yet
    when the engine still holds it or it is still on a stream. *)
Lemma pending_attached s m :
  Inv s →
  0 < occ m (inflight (producer s)) + occ m (successes (producer s))
      + occ m (Msg <$> errors (producer s))
      + hs_holds m (handleSuccesses s) + he_holds m (handleErrors s) →
  ∃ pm c, heap s !! m = Some pm ∧ expectation pm = Some c
          ∧ exp_of (heap s) m = Some c ∧ slots s !! c = Some [].
Proof.
  intros HI Hpos.
  pose proof HI as (HN & Hthr & Hown & Htok & Hdel & Hrep & Hval & Hwg).
  destruct (awaited_attached (heap s) (callers s) m Hthr) as [c Hc].
  { specialize (Htok m). lia. }
  pose proof Hc as Hc'. apply exp_of_Some in Hc' as (pm & Hpm & Hexp).
  exists pm, c. split_and!; try done.
  pose proof (Htok m) as Hm. unfold deliveries_msg, deliveries, buffer in Hm.
  rewrite Hc in Hm. pose proof (awaits_sum_le (callers s) m HN).
  pose proof (Hown c) as Ho. pose proof (att_pos s c m Hc).
  unfold ind in Ho. case_decide as Hlt; [|lia].
  apply lookup_lt_is_Some in Hlt as [buf Hbuf]. rewrite Hbuf in Hm |- *.
  destruct buf; [done|]. simpl in Hm. lia.
Qed.

(** X3. A router is never stuck inside its loop.  The message it has taken
    from its stream is a message whose [expectation] field holds a channel,
    never nil; the channel it is about to send into is empty, so the send
    goes through at once; hence a router cannot move only when it has
    returned, or when it waits at the head of its loop on a stream that is
    empty and not yet closed. *)
Theorem routers_never_stuck h calls s :
  valid_init h calls → reachable h calls s →
  (∀ m, handleSuccesses s = HS_Read m →
     ∃ pm c, heap s !! m = Some pm ∧ expectation pm = Some c)
  ∧ (∀ e, handleErrors s = HE_Read e →
       ∃ pm c, heap s !! Msg e = Some pm ∧ expectation pm = Some c)
  ∧ (∀ x, handleSuccesses s = HS_Send x → ∃ c, x = Some c ∧ slots s !! c = Some [])
  ∧ (∀ x e, handleErrors s = HE_Send x e → ∃ c, x = Some c ∧ slots s !! c = Some [])
  ∧ (step L_handleSuccesses s = None ↔
       handleSuccesses s = HS_Done
       ∨ (handleSuccesses s = HS_Range ∧ successes (producer s) = []
          ∧ closed (producer s) = false))
  ∧ (step L_handleErrors s = None ↔
       handleErrors s = HE_Done
       ∨ (handleErrors s = HE_Range ∧ errors (producer s) = []
          ∧ closed (producer s) = false)).
Proof.
  intros Hv Hr. pose proof (Inv_reachable _ _ _ Hv Hr) as HI.
  pose proof HI as (HN & Hthr & Hown & Htok & Hdel & Hrep & Hval & Hwg).
  destruct Hwg as (Hwg & Hns & Hne & _). destruct Hdel as (Hd & Hds & Hde).
  assert (∀ m, handleSuccesses s = HS_Read m →
            ∃ pm c, heap s !! m = Some pm ∧ expectation pm = Some c) as H1.
  { intros m Hm. destruct (pending_attached s m HI) as (pm & c & ? & ? & _); [|eauto].
    rewrite Hm. simpl. unfold ind. rewrite decide_True by done. lia. }
  assert (∀ e, handleErrors s = HE_Read e →
            ∃ pm c, heap s !! Msg e = Some pm ∧ expectation pm = Some c) as H2.
  { intros e He. destruct (pending_attached s (Msg e) HI) as (pm & c & ? & ? & _); [|eauto].
    rewrite He. simpl. unfold ind. rewrite decide_True by done. lia. }
  assert (∀ x, handleSuccesses s = HS_Send x → ∃ c, x = Some c ∧ slots s !! c = Some [])
    as H3.
  { intros [c|] Hx; [|done]. exists c. split; [done|].
    apply send_enabled; [done|]. rewrite Hx. simpl. unfold ind.
    rewrite decide_True by done. lia. }
  assert (∀ x e, handleErrors s = HE_Send x e → ∃ c, x = Some c ∧ slots s !! c = Some [])
    as H4.
  { intros [c|] e Hx; [|by destruct (Hde e)]. exists c. split; [done|].
    apply send_enabled; [done|]. rewrite Hx. simpl. unfold ind.
    rewrite decide_True by done. lia. }
  split_and!; try done.
  - simpl. unfold handleSuccesses_step.
    destruct (handleSuccesses s) as [| |m|x| |] eqn:Es; try done.
    + destruct (successes (producer s)) as [|m rest]; [|split; [done|]; by intros [|(_ & ? & _)]].
      destruct (closed (producer s)); split; try done; [by intros [|(_ & _ & ?)]|auto].
    + destruct (H1 m eq_refl) as (pm & c & -> & _). simpl.
      split; [done|]. by intros [|(? & _)].
    + destruct (H3 x eq_refl) as (c & -> & Hc). simpl. unfold slot_send. rewrite Hc. simpl.
      split; [done|]. by intros [|(? & _)].
    + unfold wg_Done. rewrite Hwg. simpl. split; [done|]. by intros [|(? & _)].
    + split; auto.
  - simpl. unfold handleErrors_step.
    destruct (handleErrors s) as [| |e|x e| |] eqn:Ee; try done.
    + destruct (errors (producer s)) as [|e rest]; [|split; [done|]; by intros [|(_ & ? & _)]].
      destruct (closed (producer s)); split; try done; [by intros [|(_ & _ & ?)]|auto].
    + destruct (H2 e eq_refl) as (pm & c & -> & _). simpl.
      split; [done|]. by intros [|(? & _)].
    + destruct (H4 x e eq_refl) as (c & -> & Hc). simpl. unfold slot_send. rewrite Hc. simpl.
      split; [done|]. by intros [|(? & _)].
    + unfold wg_Done. rewrite Hwg. destruct (handleSuccesses s); simpl;
        (split; [done|]; by intros [|(? & _)]).
    + split; auto.
Qed.

(** The batch of three with C reported and taken by the success router. *)
Definition C_taken : State :=
  default (init three_fresh one_batch)
    (run (submit_all ++ [L_succeed 2; L_handleSuccesses]) (init three_fresh one_batch)).

Lemma routers_never_stuck_witness :
  ∃ pm c, heap C_taken !! 2 = Some pm ∧ expectation pm = Some c.
Proof.
  refine (proj1 (routers_never_stuck three_fresh one_batch C_taken _ _) 2 _).
  - by_computation.
  - exists (submit_all ++ [L_succeed 2; L_handleSuccesses]). vm_compute. reflexivity.
  - vm_compute. reflexivity.
Defined.

(** ** Channels and messages *)

(** X4. A channel is attached to at most one message at a time, and an
    attached channel is neither in the pool nor freed nor held by a caller.
    Every message that the engine holds or that is on one of its streams
    carries a channel, and that channel is still empty: the one result of the
    message has not been delivered yet. *)
Theorem attachment_exclusive h calls s :
  valid_init h calls → reachable h calls s →
  (∀ m1 m2 c,
     exp_of (heap s) m1 = Some c → exp_of (heap s) m2 = Some c → m1 = m2)
  ∧ (∀ m c, exp_of (heap s) m = Some c →
       c < length (slots s)
       ∧ (c ∉ expectationsPool s) ∧ (c ∉ collected s)
       ∧ ∀ t th, callers s !! t = Some th → holds c th = 0)
  ∧ (∀ m, m ∈ inflight (producer s) ∨ m ∈ successes (producer s)
          ∨ m ∈ Msg <$> errors (producer s) →
       ∃ c, exp_of (heap s) m = Some c ∧ slots s !! c = Some []).
Proof.
  intros Hv Hr. pose proof (Inv_reachable _ _ _ Hv Hr) as HI.
  pose proof HI as (HN & Hthr & Hown & Htok & Hdel & Hrep & Hval & Hwg).
  split_and!.
  - intros m1 m2 c. by apply att_unique.
  - intros m c Hc. pose proof (att_pos s c m Hc) as Hp.
    pose proof (Hown c) as Ho. unfold ind in Ho. case_decide as Hlt; [|lia].
    split_and!; [done|apply occ_zero; lia|apply occ_zero; lia|].
    intros t th Ht. pose proof (sum_over_lookup_le (holds c) _ _ _ Ht). lia.
  - intros m Hm.
    destruct (pending_attached s m HI) as (pm & c & _ & _ & Hc & Hbuf); [|eauto].
    destruct Hm as [Hm|[Hm|Hm]]; apply occ_pos in Hm; lia.
Qed.

Lemma attachment_exclusive_witness :
  ∃ c, exp_of (heap C_taken) 0 = Some c ∧ slots C_taken !! c = Some [].
Proof.
  refine (proj2 (proj2 (attachment_exclusive three_fresh one_batch C_taken _ _)) 0 _).
  - by_computation.
  - exists (submit_all ++ [L_succeed 2; L_handleSuccesses]). vm_compute. reflexivity.
  - left. by_computation.
Defined.

Lemma occ_seg_in x a b j (l : list nat) :
  NoDup l → l !! j = Some x → a ≤ j < b → occ x (seg a b l) = 1.
Proof.
  intros HND Hj Hab.
  assert (x ∈ seg a b l) as Hin.
  { unfold seg. apply (list_elem_of_lookup_2 _ (j - a)).
    rewrite lookup_take_lt by lia. rewrite lookup_drop.
    by replace (a + (j - a)) with j by lia. }
  pose proof (occ_elem _ _ Hin). pose proof (occ_seg_le x a b l).
  pose proof (proj1 (occ_NoDup l) HND x). lia.
Qed.

Lemma occ_take_in x k j (l : list nat) :
  NoDup l → l !! j = Some x → occ x (take k l) = ind (j < k).
Proof.
  intros HND Hj. unfold ind. case_decide as Hlt.
  - assert (x ∈ take k l) as Hin.
    { apply (list_elem_of_lookup_2 _ j). by rewrite lookup_take_lt. }
    pose proof (occ_elem _ _ Hin). pose proof (occ_take_le x k l).
    pose proof (proj1 (occ_NoDup l) HND x). lia.
  - apply occ_zero. intros (i & Hi)%list_elem_of_lookup_1.
    pose proof (lookup_lt_Some _ _ _ Hi) as Hlen. rewrite length_take in Hlen.
    rewrite lookup_take_lt in Hi by lia.
    pose proof (NoDup_lookup _ _ _ _ HND Hi Hj). lia.
Qed.

(** A result that a caller still awaits, when the engine and the routers
    hold nothing, is in the channel of its message. *)
Lemma idle_result_buffered s m :
  Inv s → idle s → 0 < sum_over (awaits m) (callers s) →
  ∃ c v, exp_of (heap s) m = Some c ∧ slots s !! c = Some [v]
         ∧ reported_ok (heap s) (reports (producer s)) m v.
Proof.
  intros HI (Hi & Hs & He & Hhs & Hhe & Hts & Hte) Hpos.
  pose proof HI as (HN & Hthr & Hown & Htok & Hdel & Hrep & Hval & Hwg).
  destruct (awaited_attached (heap s) (callers s) m Hthr Hpos) as [c Hc].
  pose proof (Htok m) as Hm. unfold deliveries_msg, deliveries, buffer in Hm.
  rewrite Hc, Hi, Hs, He, Hhs, Hhe, Hts, Hte in Hm. simpl in Hm.
  pose proof (awaits_sum_le (callers s) m HN).
  destruct (slots s !! c) as [[|v [|v' rest]]|] eqn:Hbuf; simpl in Hm; try lia.
  exists c, v. split_and!; try done.
  destruct Hval as (_ & _ & _ & _ & V5 & _). eapply V5; [done| |done]. by left.
Qed.

Lemma closed_idle s t err :
  Inv s → callers s !! t = Some (T_Close (CL_Done err)) → idle s.
Proof.
  intros (_ & _ & _ & _ & _ & _ & _ & Hwg) Ht.
  destruct Hwg as (_ & _ & _ & Hsx & Hex & Hcl & Hclose).
  specialize (Hclose _ _ Ht). simpl in Hclose. destruct Hclose as (_ & _ & Hs & He).
  destruct (Hsx (or_intror Hs)) as [Hc ?]. destruct (Hex (or_intror He)) as [_ ?].
  destruct (Hcl Hc) as [_ ?]. unfold idle. rewrite Hs, He. by split_and!.
Qed.

(** X5. When Close has returned, no result is left behind with the engine or
    the routers: a caller of SendMessage that waits on its channel finds the
    result of its message in it and can receive it at once, and for a batch
    every member that was pushed and whose result the caller has not yet
    received has its result in its channel; these values are what the engine
    reported. *)
Theorem Close_delivers_results h calls s t err :
  valid_init h calls → reachable h calls s →
  callers s !! t = Some (T_Close (CL_Done err)) →
  (∀ t' m c, callers s !! t' = Some (T_SendMessage m (SM_Wait c)) →
     ∃ v, slots s !! c = Some [v]
          ∧ reported_ok (heap s) (reports (producer s)) m v
          ∧ ∀ pick, step (L_call t' pick) s
              = Some (upd t' (T_SendMessage m (SM_Detach c v))
                        (set_slots (<[c := []]> (slots s)) s)))
  ∧ (∀ t' msgs ix cl sub con j m,
       callers s !! t' = Some (T_SendMessages msgs ix cl sub con) →
       msgs !! j = Some m →
       con_received (taken0 msgs ix sub) (length msgs) con ≤ j
         < sub_pushed (length msgs) sub →
       ∃ c v, exp_of (heap s) m = Some c ∧ slots s !! c = Some [v]
              ∧ reported_ok (heap s) (reports (producer s)) m v).
Proof.
  intros Hv Hr Ht. pose proof (Inv_reachable _ _ _ Hv Hr) as HI.
  pose proof (closed_idle s t err HI Ht) as Hidle.
  pose proof HI as (HN & Hthr & _). split.
  - intros t' m c Ht'.
    destruct (idle_result_buffered s m HI Hidle) as (c' & v & Hc & Hbuf & Hok).
    { rewrite (awaits_own _ _ _ m HN Ht') by (by left).
      simpl. unfold ind. rewrite decide_True by done. lia. }
    destruct (Hthr _ _ Ht') as [_ Hatt]. simpl in Hatt.
    rewrite Hatt in Hc. injection Hc as <-.
    exists v. split_and!; try done.
    intros pick. simpl. rewrite Ht'. simpl. unfold slot_recv. rewrite Hbuf. done.
  - intros t' msgs ix cl sub con j m Ht' Hj Hrange.
    apply (idle_result_buffered s m HI Hidle).
    rewrite (awaits_own _ _ _ m HN Ht') by (by eapply list_elem_of_lookup_2).
    simpl. rewrite (occ_seg_in m _ _ j); [lia| |done|done].
    apply (msgs_NoDup _ _ _ HN Ht').
Qed.

(** The send and the close of [closing], run until Close has returned while
    the caller of SendMessage has not yet received its result. *)
Definition until_closed : list Label :=
  until_closing
  ++ [L_handleSuccesses; L_handleSuccesses; L_handleSuccesses; L_close;
      L_handleSuccesses; L_handleSuccesses; L_handleErrors; L_handleErrors;
      L_call 1 None].

Definition after_close : State :=
  default (init [fresh_msg] send_and_close)
    (run until_closed (init [fresh_msg] send_and_close)).

Lemma Close_delivers_results_witness :
  ∃ v, slots after_close !! 0 = Some [v]
       ∧ reported_ok (heap after_close) (reports (producer after_close)) 0 v
       ∧ ∀ pick, step (L_call 0 pick) after_close
           = Some (upd 0 (T_SendMessage 0 (SM_Detach 0 v))
                     (set_slots (<[0 := []]> (slots after_close)) after_close)).
Proof.
  refine (proj1 (Close_delivers_results [fresh_msg] send_and_close after_close 1 None
                   _ _ _) 0 0 0 _).
  - by_computation.
  - exists until_closed. vm_compute. reflexivity.
  - vm_compute. reflexivity.
  - vm_compute. reflexivity.
Defined.

(** ** The order of submission *)

(** X6. The goroutine of SendMessages hands the batch to the engine in the
    order of the batch: at every moment the members that the engine has
    received (it holds them or has reported on them) are exactly the first
    members of the batch, up to the position of the goroutine, each received
    once. *)
Theorem SendMessages_pushes_in_order h calls s t msgs ix cl sub con :
  valid_init h calls → reachable h calls s →
  callers s !! t = Some (T_SendMessages msgs ix cl sub con) →
  sub_pushed (length msgs) sub ≤ length msgs
  ∧ ∀ j m, msgs !! j = Some m →
      occ m (inflight (producer s)) + occ m (report_msg <$> reports (producer s))
        = ind (j < sub_pushed (length msgs) sub)
      ∧ (m ∈ inflight (producer s) ∨ m ∈ report_msg <$> reports (producer s)
         ↔ j < sub_pushed (length msgs) sub).
Proof.
  intros Hv Hr Ht. pose proof (Inv_reachable _ _ _ Hv Hr) as HI.
  pose proof HI as (HN & Hthr & Hown & Htok & Hdel & Hrep & Hval & Hwg).
  destruct (Hthr _ _ Ht) as [(Hin & _) _]. split.
  - destruct sub; simpl in *; lia.
  - intros j m Hj.
    assert (occ m (inflight (producer s)) + occ m (report_msg <$> reports (producer s))
            = ind (j < sub_pushed (length msgs) sub)) as Hocc.
    { rewrite (Hrep m).
      rewrite (pushedc_own _ _ _ m HN Ht) by (by eapply list_elem_of_lookup_2).
      simpl. apply occ_take_in; [|done]. apply (msgs_NoDup _ _ _ HN Ht). }
    split; [done|]. unfold ind in Hocc. rewrite <- !occ_pos. case_decide; split; try lia.
Qed.

Lemma SendMessages_pushes_in_order_witness :
  sub_pushed (length [0; 1; 2]) Sub_Exit ≤ length [0; 1; 2]
  ∧ ∀ j m, [0; 1; 2] !! j = Some m →
      occ m (inflight (producer before_A))
        + occ m (report_msg <$> reports (producer before_A))
        = ind (j < sub_pushed (length [0; 1; 2]) Sub_Exit)
      ∧ (m ∈ inflight (producer before_A)
         ∨ m ∈ report_msg <$> reports (producer before_A)
         ↔ j < sub_pushed (length [0; 1; 2]) Sub_Exit).
Proof.
  apply (SendMessages_pushes_in_order three_fresh one_batch before_A 0 [0; 1; 2]
           [1; 2] true Sub_Exit (Con_Wait 0 (Some 0) [])).
  - by_computation.
  - exists (submit_all ++ C_then_B). vm_compute. reflexivity.
  - vm_compute. reflexivity.
Defined.

(** ** SendMessage returns *)

(** X7. Before [AsyncClose], a call of SendMessage on a message can always
    run to its return, wherever it is and whatever the other callers have
    done: for every decision of the engine about the messages it has not yet
    reported there is a run in which the call returns, with a nil error when
    the engine lets its message succeed and with -1, -1 and the cause when
    the engine fails it. *)
Theorem SendMessage_returns h calls s t msg (fate : ptr → option error) :
  valid_init h calls → reachable h calls s →
  calls !! t = Some (CallSendMessage msg) →
  shutdown (producer s) = false → msg < length h →
  ∃ ls s' p o err,
    run ls s = Some s'
    ∧ callers s' !! t = Some (T_SendMessage msg (SM_Done p o err))
    ∧ (msg ∉ report_msg <$> reports (producer s) →
       err = fate msg ∧ (is_Some (fate msg) → p = (-1)%Z ∧ o = (-1)%Z)).
Proof.
  intros Hv Hr Hc Hsd Hlt. pose proof (Inv_reachable _ _ _ Hv Hr) as HI.
  destruct (thread_at _ _ _ _ _ Hr Hc) as (th & Ht & Hcall).
  destruct th as [m pc| |]; try done. simpl in Hcall. injection Hcall as ->.
  destruct (progress fate t (work t s) s _ (le_n _) HI Ht I)
    as (ls & s' & th' & new & Hrun & Ht' & Hfin & Hcall & Hrep & Hnew).
  { left. split; [done|]. intros m [->|Hin]%elem_of_cons; [|by apply elem_of_nil in Hin].
    apply lookup_lt_is_Some. by rewrite (heap_length_reachable _ _ _ Hr). }
  destruct th' as [m' [| | | | | | |p o err]| |]; try done.
  simpl in Hcall. injection Hcall as ->.
  exists ls, s', p, o, err. split_and!; try done. intros Hnot.
  pose proof (Inv_run _ _ _ Hrun HI) as HI'.
  pose proof HI' as (_ & _ & _ & _ & _ & _ & Hval & _).
  destruct Hval as (_ & _ & _ & _ & _ & V6). specialize (V6 _ _ Ht'). simpl in V6.
  assert (∀ r, r ∈ reports (producer s') → report_msg r = msg → fated fate r) as Hf.
  { intros r Hin Hm. rewrite Hrep in Hin. apply elem_of_app in Hin as [Hin|Hin].
    - exfalso. apply Hnot. rewrite <- Hm. by apply list_elem_of_fmap_2.
    - rewrite list.Forall_forall in Hnew. by apply Hnew. }
  destruct err as [cause|]; simpl in V6.
  - destruct V6 as (-> & -> & Hin). specialize (Hf _ Hin eq_refl). simpl in Hf.
    by rewrite Hf.
  - specialize (Hf _ V6 eq_refl). simpl in Hf. rewrite Hf. split; [done|].
    by intros [? ?].
Qed.

Definition fails_all (m : ptr) : option error := Some leader_not_available.

Lemma SendMessage_returns_witness :
  ∃ ls s' p o err,
    run ls (init [fresh_msg] one_send) = Some s'
    ∧ callers s' !! 0 = Some (T_SendMessage 0 (SM_Done p o err))
    ∧ (0 ∉ report_msg <$> reports (producer (init [fresh_msg] one_send)) →
       err = fails_all 0 ∧ (is_Some (fails_all 0) → p = (-1)%Z ∧ o = (-1)%Z)).
Proof.
  apply (SendMessage_returns [fresh_msg] one_send (init [fresh_msg] one_send) 0 0 fails_all).
  - by_computation.
  - exists []. reflexivity.
  - reflexivity.
  - reflexivity.
  - simpl. lia.
Defined.

(** ** What the producer writes *)

(** The steps of the synchronous producer itself: its callers, its
    goroutines and its routers (and the pool); the others are the engine's. *)
Definition producer_label (l : Label) : Prop :=
  match l with
  | L_call _ _ | L_go _ _ | L_handleSuccesses | L_handleErrors | L_pool_drop _ => True
  | L_assign _ _ _ | L_succeed _ | L_fail _ _ | L_close => False
  end.

(** X8. Of a message the synchronous producer writes the [expectation] field
    only: no statement of SendMessage, SendMessages, the routers or Close
    changes the partition or the offset of any message, makes or removes a
    message, or adds a report; and the only change it makes to the work of
    the engine is to add one message at the end of the intake. *)
Theorem producer_writes_expectation_only l s s' :
  producer_label l → step l s = Some s' →
  (∀ m, fields_of (heap s') m = fields_of (heap s) m)
  ∧ length (heap s') = length (heap s)
  ∧ reports (producer s') = reports (producer s)
  ∧ (inflight (producer s') = inflight (producer s)
     ∨ ∃ m, inflight (producer s') = inflight (producer s) ++ [m]).
Proof.
  intros Hl Hs. apply step_astep in Hs.
  destruct Hs; simpl in *; try done; split_and!; try done; auto.
  all: try (intros m; by erewrite fields_of_insert_exp).
  all: try (by rewrite length_insert).
  all: right; eauto.
Qed.

(** The caller of [after_close] receives its result. *)
Definition after_receive : State :=
  default after_close (step (L_call 0 None) after_close).

Lemma producer_writes_expectation_only_witness :
  (∀ m, fields_of (heap after_receive) m = fields_of (heap after_close) m)
  ∧ length (heap after_receive) = length (heap after_close)
  ∧ reports (producer after_receive) = reports (producer after_close)
  ∧ (inflight (producer after_receive) = inflight (producer after_close)
     ∨ ∃ m, inflight (producer after_receive) = inflight (producer after_close) ++ [m]).
Proof.
  apply (producer_writes_expectation_only (L_call 0 None) after_close).
  - exact I.
  - vm_compute. reflexivity.
Defined.

(** ** Accesses to the [expectation] field *)

(** The goroutines that are about to write [m.expectation]: a caller of
    SendMessage at line 120 or 123, the goroutine of SendMessages at line
    137, its caller at line 148. *)
Definition writes (m : ptr) (th : Thread) : nat :=
  match th with
  | T_SendMessage msg (SM_Attach _ | SM_Detach _ _) => ind (msg = m)
  | T_SendMessage _ _ => 0
  | T_SendMessages msgs _ _ sub con =>
      match sub with Sub_Attach i _ => ind (msgs !! i = Some m) | _ => 0 end
      + match con with Con_Detach i _ _ _ => ind (msgs !! i = Some m) | _ => 0 end
  | T_Close _ => 0
  end.

(** The callers that are about to read [m.expectation] (line 146). *)
Definition reads (m : ptr) (th : Thread) : nat :=
  match th with
  | T_SendMessages msgs _ _ _ (Con_Read i _) => ind (msgs !! i = Some m)
  | _ => 0
  end.

Definition pending_writes (s : State) (m : ptr) : nat :=
  sum_over (writes m) (callers s).

(** The routers read the field at lines 164 and 172. *)
Definition pending_reads (s : State) (m : ptr) : nat :=
  sum_over (reads m) (callers s)
  + hs_holds m (handleSuccesses s) + he_holds m (handleErrors s).

Lemma occ_seg_out x a b j (l : list nat) :
  NoDup l → l !! j = Some x → ¬ (a ≤ j < b) → occ x (seg a b l) = 0.
Proof.
  intros HND Hj Hn. destruct (decide (0 < occ x (seg a b l))) as [Hp|]; [|lia].
  destruct (occ_seg_pos _ _ _ _ Hp) as (j' & Hr & Hj').
  pose proof (NoDup_lookup _ _ _ _ HND Hj Hj'). lia.
Qed.

Lemma ind_lookup_le (msgs : list nat) i m : ind (msgs !! i = Some m) ≤ occ m msgs.
Proof.
  unfold ind. case_decide as H; [|lia].
  apply occ_elem. by eapply list_elem_of_lookup_2.
Qed.

Lemma ind_lookup_two (msgs : list nat) i j m :
  NoDup msgs → i ≠ j →
  ind (msgs !! i = Some m) + ind (msgs !! j = Some m) ≤ occ m msgs.
Proof.
  intros HND Hne. pose proof (ind_lookup_le msgs i m). pose proof (ind_lookup_le msgs j m).
  unfold ind in *. repeat case_decide; try lia.
  exfalso. apply Hne. by eapply NoDup_lookup.
Qed.

(** The goroutines of one call access different messages. *)
Lemma access_le m th :
  thread_ok th → NoDup (thread_msgs th) →
  writes m th + reads m th ≤ occ m (thread_msgs th).
Proof.
  intros Hok HND. destruct th as [msg pc|msgs ix cl sub con|pc];
    cbn [writes reads thread_msgs] in *.
  - rewrite occ_cons, occ_nil. destruct pc; lia.
  - destruct Hok as (Hin & Hlen & Hk & _).
    destruct sub as [i|i c|i c|i| |],
      con as [errs|i' errs|i' x errs|i' c' v errs|i' c' v errs|ret];
      cbn [sub_in_range con_taken sub_sent] in *; try lia.
    all: rewrite ?Nat.add_0_r, ?Nat.add_0_l.
    all: try apply ind_lookup_le.
    all: apply ind_lookup_two; [done|lia].
  - lia.
Qed.

Lemma writes_unawaited m th :
  thread_ok th → NoDup (thread_msgs th) → 0 < writes m th → awaits m th = 0.
Proof.
  intros Hok HND Hw. destruct th as [msg pc|msgs ix cl sub con|pc];
    cbn [writes awaits thread_msgs] in *.
  - destruct pc; cbn [writes awaits] in *; first [done|lia].
  - destruct Hok as (Hin & Hlen & Hk & _).
    destruct sub as [i|i c|i c|i| |],
      con as [errs|i' errs|i' x errs|i' c' v errs|i' c' v errs|ret];
      cbn [sub_in_range con_taken sub_sent sub_pushed con_received] in *; try lia.
    all: unfold ind in Hw.
    all: repeat case_decide; try lia.
    all: eapply occ_seg_out; [done|done|lia].
  - done.
Qed.

(** X9. The [expectation] field of a message is free of data races: at every
    moment at most one goroutine is about to write the field of a given
    message (a caller attaching or detaching a channel, or the goroutine of a
    batch attaching one), and while one is, no goroutine is about to read it
    (neither a router nor the caller of a batch). *)
Theorem expectation_race_free h calls s m :
  valid_init h calls → reachable h calls s →
  pending_writes s m ≤ 1
  ∧ (0 < pending_writes s m → pending_reads s m = 0).
Proof.
  intros Hv Hr. pose proof (Inv_reachable _ _ _ Hv Hr) as HI.
  pose proof HI as (HN & Hthr & Hown & Htok & Hdel & Hrep & Hval & Hwg).
  assert (sum_over (λ th, writes m th + reads m th) (callers s) ≤ 1) as Hsum.
  { etrans; [apply (sum_over_le _ (λ th, occ m (thread_msgs th)))|].
    - intros th (t & Ht)%list_elem_of_lookup_1. apply access_le.
      + by destruct (Hthr _ _ Ht).
      + by apply (msgs_NoDup _ _ _ HN Ht).
    - rewrite <- occ_flat_map. by apply occ_NoDup. }
  assert (sum_over (λ th, writes m th + reads m th) (callers s)
          = sum_over (writes m) (callers s) + sum_over (reads m) (callers s)) as Hsplit.
  { clear. induction (callers s) as [|th l IH]; [done|].
    rewrite !sum_over_cons, IH. lia. }
  unfold pending_writes, pending_reads. split; [lia|]. intros Hw.
  destruct (sum_over_pos _ _ Hw) as (t & th & Ht & Hpos).
  assert (awaits m th = 0) as Ha.
  { apply writes_unawaited; [by destruct (Hthr _ _ Ht)|by apply (msgs_NoDup _ _ _ HN Ht)|done]. }
  assert (m ∈ thread_msgs th) as Hin.
  { apply occ_pos. pose proof (access_le m th) as Hle.
    specialize (Hle (proj1 (Hthr _ _ Ht)) (msgs_NoDup _ _ _ HN Ht)). lia. }
  pose proof (Htok m) as Hm. rewrite (awaits_own _ _ _ m HN Ht Hin), Ha in Hm. lia.
Qed.

(** The batch of three while its goroutine is about to attach a channel to
    B. *)
Definition attaching_B : State :=
  default (init three_fresh one_batch)
    (run (replicate 5 (L_go 0 None)) (init three_fresh one_batch)).

Lemma expectation_race_free_witness :
  pending_writes attaching_B 1 ≤ 1
  ∧ (0 < pending_writes attaching_B 1 → pending_reads attaching_B 1 = 0).
Proof.
  apply (expectation_race_free three_fresh one_batch attaching_B 1).
  - by_computation.
  - exists (replicate 5 (L_go 0 None)). vm_compute. reflexivity.
Defined.

Example attaching_B_writes : pending_writes attaching_B 1 = 1.
Proof. vm_compute. reflexivity. Qed.

(** ** Errors of the engine's constructors *)

(** X10. When the configuration passes the check and the constructor of the
    engine fails, NewSyncProducer and NewSyncProducerFromClient return the
    error of that constructor as it is and start nothing: the state is left
    as it was.  When NewSyncProducerFromClient succeeds, the configuration of
    the client enables both returns, the producer wraps the engine that the
    constructor made, two was added to the completion counter and both
    routers are started.  A failing check comes first: the constructor of
    the engine then has no part in the result. *)
Theorem constructors_pass_engine_error
    (NewConfig : Config)
    (NewAsyncProducer NewAsyncProducer' : list string → Config → error + asyncProducer)
    (NewAsyncProducerFromClient NewAsyncProducerFromClient' : Client → error + asyncProducer)
    (addrs : list string) (c : Config) (client : Client) (s : State) :
  (∀ err, returns_both c = true → NewAsyncProducer addrs c = inl err →
     NewSyncProducer NewConfig NewAsyncProducer addrs (Some c) s = (Some err, s))
  ∧ (∀ err, returns_both (Client_Config client) = true →
       NewAsyncProducerFromClient client = inl err →
       NewSyncProducerFromClient NewAsyncProducerFromClient client s = (Some err, s))
  ∧ (∀ s', NewSyncProducerFromClient NewAsyncProducerFromClient client s = (None, s') →
       returns_both (Client_Config client) = true
       ∧ NewAsyncProducerFromClient client = inr (producer s')
       ∧ wg s' = wg s + 2
       ∧ handleSuccesses s' = HS_Range ∧ handleErrors s' = HE_Range
       ∧ heap s' = heap s ∧ slots s' = slots s ∧ callers s' = callers s)
  ∧ (returns_both c = false →
       NewSyncProducer NewConfig NewAsyncProducer addrs (Some c) s
       = NewSyncProducer NewConfig NewAsyncProducer' addrs (Some c) s)
  ∧ (returns_both (Client_Config client) = false →
       NewSyncProducerFromClient NewAsyncProducerFromClient client s
       = NewSyncProducerFromClient NewAsyncProducerFromClient' client s).
Proof.
  unfold NewSyncProducer, NewSyncProducerFromClient. split_and!.
  - intros err Hc%verify_passes Hp. by rewrite Hc, Hp.
  - intros err Hc%verify_passes Hp. by rewrite Hc, Hp.
  - intros s'. destruct (verifyProducerConfig (Client_Config client)) eqn:Hv; [done|].
    destruct (NewAsyncProducerFromClient client) as [err|p]; [done|].
    intros [= <-]. split; [by apply verify_passes|done].
  - intros Hc. by destruct (verify_fails c Hc) as [text ->].
  - intros Hc. by destruct (verify_fails _ Hc) as [text ->].
Qed.

Definition brokers_unreachable : error := Cause "kafka: client has run out of available brokers".

Lemma constructors_pass_engine_error_witness :
  NewSyncProducer default_config (λ _ _, inl brokers_unreachable) []
      (Some (mkConfig true true)) (blank [] [])
    = (Some brokers_unreachable, blank [] []).
Proof.
  refine (proj1 (constructors_pass_engine_error default_config
                   (λ _ _, inl brokers_unreachable) (λ _ _, inl brokers_unreachable)
                   (λ _, inl brokers_unreachable) (λ _, inl brokers_unreachable)
                   [] (mkConfig true true) (mkClient (mkConfig true true)) (blank [] []))
            brokers_unreachable _ _); reflexivity.
Defined.
